(** * webnative-cas: ZIP ingest into a content-addressable store

    A shallow embedding of the TypeScript sources and the properties
    proved about them.

    - [JS]: the fragment of JavaScript's numbers and strings the sources use.
    - [Crc32]: [CRC32_TABLE] and [crc32Update] (zip/upload_zip.ts).
    - [ZipPath]: [normalizeZipPath] (zip/upload_zip.ts).
    - [Buf]: Buffer reads.
    - [CentralDirectory]: zip/central_directory.ts.
    - [ZipStream]: zip/zip_stream.ts.
    - [Cas] and [CasFs]: store/cas.ts.
    - [Spool]: [teeToSpool] (zip/spool.ts).
    - [Upload]: [processRawToCas], [processEntryFromSpool] and
      [uploadZipAsFileset] (zip/upload_zip.ts).
    - [Server]: the request handler of server.ts. *)

From Stdlib Require Import ZArith NArith Lia List Ascii String Bool Sorted.
From stdpp Require Import gmap list strings.

#[global] Set Warnings "-clear-no-such-hyp".

Local Open Scope Z_scope.

(* ================================================================== *)
(** * JavaScript numbers and strings *)
(* ================================================================== *)

Module JS.

(** ** 32-bit integer operators

    The bitwise operators of JavaScript convert their operands with ToInt32
    (ToUint32 for [>>>]) and return a signed 32-bit result ([>>>]: unsigned).
    Numbers are modelled by [Z]; every number the sources feed to these
    operators is an integer below 2^53. *)

Definition ToUint32 (x : Z) : Z := x mod 2 ^ 32.

Definition ToInt32 (x : Z) : Z :=
  let u := x mod 2 ^ 32 in if 2 ^ 31 <=? u then u - 2 ^ 32 else u.

(** [a ^ b] *)
Definition bxor (a b : Z) : Z := ToInt32 (Z.lxor (ToInt32 a) (ToInt32 b)).

(** [a & b] *)
Definition band (a b : Z) : Z := ToInt32 (Z.land (ToInt32 a) (ToInt32 b)).

(** [a >>> n] *)
Definition ushr (a n : Z) : Z := Z.shiftr (ToUint32 a) (n mod 32).

(** [Number.MAX_SAFE_INTEGER] *)
Definition MAX_SAFE_INTEGER : Z := 2 ^ 53 - 1.

(** ** Strings

    A JavaScript string is a sequence of UTF-16 code units. *)

Definition jsstring : Type := list N.

(** A literal with 8-bit characters as a JavaScript string. *)
Definition str (s : string) : jsstring :=
  map N_of_ascii (list_ascii_of_string s).

Definition NUL : N := 0%N.
Definition SLASH : N := 47%N.
Definition BACKSLASH : N := 92%N.
Definition DOT : N := 46%N.
Definition COMMA : N := 44%N.

(** [s.includes(c)] for a one-unit needle. *)
Definition includesUnit (c : N) (s : jsstring) : bool :=
  existsb (N.eqb c) s.

(** [s === t] *)
Definition streq (s t : jsstring) : bool := bool_decide (s = t).

(** [s.startsWith(p)] *)
Fixpoint startsWith (p s : jsstring) : bool :=
  match p, s with
  | [], _ => true
  | _ :: _, [] => false
  | a :: p', b :: s' => N.eqb a b && startsWith p' s'
  end.

(** [s.endsWith(p)] *)
Definition endsWith (p s : jsstring) : bool :=
  startsWith (rev p) (rev s).

(** [s.split(c)] for a one-unit separator: never empty, the pieces hold
    no separator. *)
Fixpoint split (c : N) (s : jsstring) : list jsstring :=
  match s with
  | [] => [[]]
  | x :: s' =>
      if N.eqb x c then [] :: split c s'
      else match split c s' with
           | [] => [[x]]
           | piece :: pieces => (x :: piece) :: pieces
           end
  end.

(** [parts.join(sep)] *)
Fixpoint join (sep : jsstring) (parts : list jsstring) : jsstring :=
  match parts with
  | [] => []
  | [p] => p
  | p :: rest => p ++ sep ++ join sep rest
  end.

(** [s.replace(/c/g, d)] for one-unit [c] and [d]. *)
Definition replaceAllUnit (c d : N) (s : jsstring) : jsstring :=
  map (fun x => if N.eqb x c then d else x) s.

(** White space and line terminators, as [String.prototype.trim] strips
    them. *)
Definition isWhiteSpace (c : N) : bool :=
  ((9 <=? c) && (c <=? 13) || (c =? 32) || (c =? 160) || (c =? 5760)
   || (8192 <=? c) && (c <=? 8202) || (c =? 8232) || (c =? 8233)
   || (c =? 8239) || (c =? 8287) || (c =? 12288) || (c =? 65279))%N.

Fixpoint trimStart (s : jsstring) : jsstring :=
  match s with
  | c :: s' => if isWhiteSpace c then trimStart s' else s
  | [] => []
  end.

(** [s.trim()] *)
Definition trim (s : jsstring) : jsstring :=
  rev (trimStart (rev (trimStart s))).

(** [a < b], [a === b] and [a > b] on strings: code units compare position
    by position. *)
Fixpoint compareUnits (a b : jsstring) : comparison :=
  match a, b with
  | [], [] => Eq
  | [], _ :: _ => Lt
  | _ :: _, [] => Gt
  | x :: a', y :: b' =>
      match N.compare x y with
      | Eq => compareUnits a' b'
      | c => c
      end
  end.

(** Decimal digits of a natural number, as [Number.prototype.toString] and
    [BigInt.prototype.toString] print a non-negative integer. *)
Definition digit (d : N) : N := (48 + d)%N.

Fixpoint digitsFuel (fuel : nat) (n : N) (acc : jsstring) : jsstring :=
  match fuel with
  | O => acc
  | S fuel' =>
      let acc' := digit (n mod 10) :: acc in
      if (n <? 10)%N then acc' else digitsFuel fuel' (n / 10) acc'
  end.

Definition decimal (z : Z) : jsstring :=
  let n := Z.to_N (Z.abs z) in
  let ds := digitsFuel (S (N.to_nat (N.log2 n))) n [] in
  if z <? 0 then 45%N :: ds else ds.

End JS.

(* ================================================================== *)
(** * CRC-32 (zip/upload_zip.ts) *)
(* ================================================================== *)

Module Crc32.
Import JS.

(** One round of the table generator:
    [c = (c & 1) ? (0xEDB88320 ^ (c >>> 1)) : (c >>> 1)]. *)
Definition tableRound (c : Z) : Z :=
  if band c 1 =? 0 then ushr c 1 else bxor 0xEDB88320 (ushr c 1).

(** [table[i] = c >>> 0] after eight rounds from [c = i]. *)
Definition tableEntry (i : Z) : Z := ushr (Nat.iter 8 tableRound i) 0.

(** The [Uint32Array] built when the module loads. *)
Definition CRC32_TABLE : list Z :=
  Eval vm_compute in map (fun i => tableEntry (Z.of_nat i)) (seq 0 256).

(** [CRC32_TABLE[i]] *)
Definition tableAt (i : Z) : Z := nth (Z.to_nat i) CRC32_TABLE 0.

(** The loop body: [crc = CRC32_TABLE[(crc ^ buf[i]) & 0xFF] ^ (crc >>> 8)]. *)
Definition crcByte (crc b : Z) : Z :=
  bxor (tableAt (band (bxor crc b) 0xFF)) (ushr crc 8).

Definition crc32Update (crc : Z) (buf : list Z) : Z :=
  let crc := bxor crc 0xFFFFFFFF in
  let crc := fold_left crcByte buf crc in
  ushr (bxor crc 0xFFFFFFFF) 0.

(** ** The checksum as the specification words it

    Unsigned 32-bit arithmetic throughout: the table of the reflected
    polynomial 0xEDB88320, start from 0, XOR with 0xFFFFFFFF, one table
    step per byte, XOR with 0xFFFFFFFF and mask to 32 bits. *)

Definition polyRound (c : Z) : Z :=
  if Z.odd c then Z.lxor 0xEDB88320 (Z.shiftr c 1) else Z.shiftr c 1.

Definition table_spec (i : Z) : Z := Nat.iter 8 polyRound i.

Definition crcByte_spec (crc b : Z) : Z :=
  Z.lxor (table_spec (Z.land (Z.lxor crc b) 0xFF)) (Z.shiftr crc 8).

Definition crc32_spec (data : list Z) : Z :=
  Z.land
    (Z.lxor (fold_left crcByte_spec data (Z.lxor 0 0xFFFFFFFF)) 0xFFFFFFFF)
    0xFFFFFFFF.

End Crc32.

(* ================================================================== *)
(** * Errors and results *)
(* ================================================================== *)

(** Every [throw new Error(msg)] of the sources, by message, and the
    errors of the runtime the model surfaces. *)
Inductive error : Type :=
  (* zip/upload_zip.ts *)
  | Invalid_filename_NUL
  | Absolute_paths_not_allowed
  | Parent_path_not_allowed
  | File_too_large
  | Local_header_signature_mismatch
  | Entry_too_large
  | Unsupported_method_in_fallback (method : Z)
  | Too_many_entries
  | Total_too_large
  | Size_mismatch_local_header
  | CRC_mismatch_local_header
  | Size_mismatch_DD
  | CRC_mismatch_DD
  | Unsupported_method_in_CD (method : Z)
  | Size_mismatch_vs_CD (norm : JS.jsstring)
  | CRC_mismatch_vs_CD (norm : JS.jsstring)
  | Fallback_size_mismatch (norm : JS.jsstring)
  | Fallback_CRC_mismatch (norm : JS.jsstring)
  (* zip/zip_stream.ts *)
  | Unexpected_EOF
  | Queue_underflow
  | Need_4_bytes
  | Unsupported_compression_method (method : Z)
  | Zip64_csize_missing
  | Zip64_usize_missing
  (* zip/central_directory.ts *)
  | EOCD_not_found
  | Zip64_EOCD_not_found
  | Zip64_usize_missing_in_central
  | Zip64_csize_missing_in_central
  | Zip64_offset_missing_in_central
  (* zip/spool.ts *)
  | ZIP_too_large
  (* the runtime: a Buffer read, a file position or a stream range out of
     range; zlib rejecting its input; fs rejecting a path that holds a NUL;
     the file system missing a directory of a path *)
  | ERR_OUT_OF_RANGE
  | Z_DATA_ERROR
  | ERR_INVALID_ARG_VALUE
  | ENOENT.

Inductive result (A : Type) : Type :=
  | Ok (a : A)
  | Err (e : error).
Arguments Ok {A} a.
Arguments Err {A} e.

#[global] Instance result_ret : MRet result := fun A a => Ok a.
#[global] Instance result_bind : MBind result :=
  fun A B f m => match m with Ok a => f a | Err e => Err e end.

(** [if (cond) throw e] *)
Definition throwIf (cond : bool) (e : error) : result unit :=
  if cond then Err e else Ok tt.

(** The messages, as the sources spell them. *)
Definition message (e : error) : JS.jsstring :=
  let s := JS.str in
  match e with
  | Invalid_filename_NUL => s "Invalid filename (NUL)"
  | Absolute_paths_not_allowed => s "Absolute paths not allowed"
  | Parent_path_not_allowed => s "Parent path not allowed"
  | File_too_large => s "File too large"
  | Local_header_signature_mismatch => s "Local header signature mismatch"
  | Entry_too_large => s "Entry too large"
  | Unsupported_method_in_fallback m =>
      s "Unsupported method in fallback: " ++ JS.decimal m
  | Too_many_entries => s "Too many entries"
  | Total_too_large => s "Total too large"
  | Size_mismatch_local_header => s "Size mismatch (local header)"
  | CRC_mismatch_local_header => s "CRC mismatch (local header)"
  | Size_mismatch_DD => s "Size mismatch (DD)"
  | CRC_mismatch_DD => s "CRC mismatch (DD)"
  | Unsupported_method_in_CD m => s "Unsupported method in CD: " ++ JS.decimal m
  | Size_mismatch_vs_CD norm => s "Size mismatch vs CD for " ++ norm
  | CRC_mismatch_vs_CD norm => s "CRC mismatch vs CD for " ++ norm
  | Fallback_size_mismatch norm => s "Fallback size mismatch for " ++ norm
  | Fallback_CRC_mismatch norm => s "Fallback CRC mismatch for " ++ norm
  | Unexpected_EOF => s "Unexpected EOF"
  | Queue_underflow => s "Queue underflow"
  | Need_4_bytes => s "Need 4 bytes"
  | Unsupported_compression_method m =>
      s "Unsupported compression method: " ++ JS.decimal m
  | Zip64_csize_missing => s "Zip64 csize missing"
  | Zip64_usize_missing => s "Zip64 usize missing"
  | EOCD_not_found => s "EOCD not found"
  | Zip64_EOCD_not_found => s "Zip64 EOCD not found"
  | Zip64_usize_missing_in_central => s "Zip64 usize missing in central"
  | Zip64_csize_missing_in_central => s "Zip64 csize missing in central"
  | Zip64_offset_missing_in_central => s "Zip64 offset missing in central"
  | ZIP_too_large => s "ZIP too large"
  | ERR_OUT_OF_RANGE => s "ERR_OUT_OF_RANGE"
  | Z_DATA_ERROR => s "Z_DATA_ERROR"
  | ERR_INVALID_ARG_VALUE => s "ERR_INVALID_ARG_VALUE"
  | ENOENT => s "ENOENT"
  end.

(* ================================================================== *)
(** * The store (store/cas.ts) *)
(* ================================================================== *)

Module Fileset.
Import JS.

(** An element of [manifest.files]. *)
Record FileEntry : Type := {
  path : jsstring;
  sha256 : jsstring;
  size : Z;
}.

(** The object literal [manifest] of [uploadZipAsFileset]. *)
Record Manifest : Type := {
  schema : jsstring;
  fileset_id : jsstring;
  file_count : Z;
  total_bytes : Z;
  files : list FileEntry;
  warnings : list jsstring;
}.

End Fileset.

Module Cas.
Import JS Fileset.

(** The tree under the root, as [ensureStoreLayout] and the writes of the
    store make it: the files of [objects/] by hash (the Brotli bodies
    themselves are not modelled), the manifests of [filesets/] by id, and
    the files that stand directly in [refs/] by file name, each with its
    text.  Hashes and ids are the hexadecimal digests of the host, for which
    [objPath] and [filesetPath] name one file per digest; [refs/] holds no
    directory.  A ref name is another matter: it is joined to the path
    unchecked, see [CasFs.writeRef]. *)
Record CasStore : Type := {
  objects : gset jsstring;
  filesets : gmap jsstring Manifest;
  refs : gmap jsstring jsstring;
}.

Definition emptyStore : CasStore :=
  {| objects := ∅; filesets := ∅; refs := ∅ |}.

(** [commitTempObject(tmpPath, sha256hex)]: an existing object is kept. *)
Definition commitTempObject (sha256hex : jsstring) (cas : CasStore) : CasStore :=
  {| objects := {[ sha256hex ]} ∪ cas.(objects);
     filesets := cas.(filesets);
     refs := cas.(refs) |}.

(** [storeFilesetManifest(filesetId, manifest)] *)
Definition storeFilesetManifest (filesetId : jsstring) (manifest : Manifest)
    (cas : CasStore) : CasStore :=
  {| objects := cas.(objects);
     filesets := <[ filesetId := manifest ]> cas.(filesets);
     refs := cas.(refs) |}.

Definition loadFilesetManifest (filesetId : jsstring) (cas : CasStore)
  : option Manifest :=
  cas.(filesets) !! filesetId.

Definition readRef (name : jsstring) (cas : CasStore) : option jsstring :=
  trim <$> cas.(refs) !! name.

(** [objPath(root, sha256hex)] below the root. *)
Definition objPath (sha256hex : jsstring) : jsstring :=
  str "objects/" ++ take 2 sha256hex ++ str "/" ++ drop 2 sha256hex.

(** A name that [join(root, 'refs', name)] keeps as the file name of a path
    directly under [refs/]: not empty, no separator in it, and neither "."
    nor "..".  (POSIX paths: "/" is the one separator.) *)
Definition plainName (name : jsstring) : bool :=
  negb (streq name []) && negb (includesUnit SLASH name)
  && negb (streq name (str ".")) && negb (streq name (str "..")).

End Cas.

(* ================================================================== *)
(** * The runtime *)
(* ================================================================== *)

(** What the sources take from Node.js and the model leaves open: the
    digest, the DEFLATE decoder, the text codecs beyond plain 7-bit input,
    the collation of the host, how the request body is chunked, and what
    the file system does with a ref name that leaves [refs/]. *)
Class Runtime : Type := {
  (** [createHash('sha256').update(bytes).digest('hex')] *)
  sha256hex : list Z -> JS.jsstring;
  (** [zlib.createInflateRaw()] fed a whole compressed body; [None] when
      zlib rejects it. *)
  inflateRaw : list Z -> option (list Z);
  (** [zlib.createInflateRaw()] fed by [streamUnknown()] from what is left of
      the upload: the decoded bytes and how many bytes the stream has drawn
      from the queue by the time the pipeline settles.  The stream takes
      what is buffered, in reads as large as its high-water mark allows,
      and does not know where the DEFLATE data end: how far past them the
      reader stands afterwards depends on how the body was chunked. *)
  inflateRawUnknown : list Z -> option (list Z * nat);
  (** [buf.toString('utf8')] on input with a byte above 0x7F. *)
  utf8DecodeWide : list Z -> JS.jsstring;
  (** [new TextDecoder('shift_jis', { fatal: true }).decode(buf)] on input
      with a byte above 0x7F or one of the bytes 0x1A, 0x1C and 0x7F, which
      the converter of the host does not map to themselves; [None] when it
      throws. *)
  shiftJisDecodeWide : list Z -> option JS.jsstring;
  (** The UTF-8 encoding of a string with a code unit above 0x7F. *)
  utf8EncodeWide : JS.jsstring -> list Z;
  (** [a.localeCompare(b)] *)
  localeCompare : JS.jsstring -> JS.jsstring -> Z;
  (** Whether [createReadStream(path)] throws where it is called. *)
  createReadStreamThrows : JS.jsstring -> bool;
  (** The lengths of the chunks (['data'] events) in which the request
      delivers a body. *)
  requestChunks : list Z -> list nat;
  (** The error of [writeFile] for a file name directly under [refs/] that
      the file system refuses (one longer than it allows); [None] for a
      name it takes. *)
  refNameRefused : JS.jsstring -> option error;
  (** [writeRef(name, filesetId)] for a name that [join] does not keep
      directly under [refs/] (one with a separator in it, "." or ".."):
      the store after it and the error thrown, if any.  The path may lack a
      directory ([ENOENT] for "a/b"), or reach a file of [filesets/] or
      [objects/] through "..", which the rename then replaces. *)
  writeRefElsewhere :
    JS.jsstring -> JS.jsstring -> Cas.CasStore -> Cas.CasStore * option error;
}.

(* ================================================================== *)
(** * Path normalisation (zip/upload_zip.ts) *)
(* ================================================================== *)

Module ZipPath.
Import JS.

(** [while (p.startsWith('./')) p = p.slice(2)] *)
Fixpoint stripDotSlash (p : jsstring) : jsstring :=
  match p with
  | a :: (b :: rest) as tail =>
      if N.eqb a DOT && N.eqb b SLASH then stripDotSlash rest else a :: tail
  | _ => p
  end.

(** The [for (const part of parts)] loop with its accumulator [out]. *)
Fixpoint collectParts (parts : list jsstring) (out : list jsstring)
  : result (list jsstring) :=
  match parts with
  | [] => Ok out
  | part :: parts' =>
      if streq part [] || streq part (str ".") then collectParts parts' out
      else if streq part (str "..") then Err Parent_path_not_allowed
      else collectParts parts' (out ++ [part])
  end.

Definition normalizeZipPath (p : jsstring) : result jsstring :=
  _ ← throwIf (includesUnit NUL p) Invalid_filename_NUL;
  let p := replaceAllUnit BACKSLASH SLASH p in
  let p := stripDotSlash p in
  _ ← throwIf (startsWith (str "/") p) Absolute_paths_not_allowed;
  let parts := split SLASH p in
  out ← collectParts parts [];
  Ok (join (str "/") out).

End ZipPath.

(* ================================================================== *)
(** * Buffers and files *)
(* ================================================================== *)

Module Buf.

(** Little-endian value of a run of bytes. *)
Fixpoint le (bs : list Z) : Z :=
  match bs with
  | [] => 0
  | b :: bs' => b + 256 * le bs'
  end.

(** [buf.readUIntLE(off, w)]: a [RangeError] unless the [w] bytes at [off]
    lie inside the buffer. *)
Definition readUIntLE (w : nat) (buf : list Z) (off : Z) : result Z :=
  if (0 <=? off) && (off + Z.of_nat w <=? Z.of_nat (length buf))
  then Ok (le (take w (drop (Z.to_nat off) buf)))
  else Err ERR_OUT_OF_RANGE.

Definition readUInt8 := readUIntLE 1.
Definition readUInt16LE := readUIntLE 2.
Definition readUInt32LE := readUIntLE 4.
Definition readBigUInt64LE := readUIntLE 8.

(** [buf.subarray(a, b)] for [0 <= a]: clamped to the buffer, empty when
    [b <= a]. *)
Definition subarray (buf : list Z) (a b : Z) : list Z :=
  take (Z.to_nat (b - a)) (drop (Z.to_nat a) buf).

(** [buf.subarray(a)] *)
Definition subarrayFrom (buf : list Z) (a : Z) : list Z :=
  drop (Z.to_nat a) buf.

(** [Buffer.alloc(len)] filled by [fh.read(buf, 0, len, pos)]: the bytes the
    file has at [pos], zeros after its end. *)
Definition fhRead (file : list Z) (len pos : Z) : list Z :=
  let got := take (Z.to_nat len) (drop (Z.to_nat pos) file) in
  got ++ replicate (Z.to_nat len - length got) 0.

(** The same with the checks of the runtime: an allocation or a position
    beyond [Number.MAX_SAFE_INTEGER] is rejected; a read of no byte does not
    look at its position.  The allocation limit of the host, below that
    bound, is not modelled. *)
Definition allocRead (file : list Z) (len pos : Z) : result (list Z) :=
  if JS.MAX_SAFE_INTEGER <? len then Err ERR_OUT_OF_RANGE
  else if len =? 0 then Ok []
  else if JS.MAX_SAFE_INTEGER <? pos then Err ERR_OUT_OF_RANGE
  else Ok (fhRead file len pos).

(** [buf.toString('latin1')] *)
Definition toString_latin1 (buf : list Z) : JS.jsstring := map Z.to_N buf.

Definition isAscii (b : Z) : bool := (0 <=? b) && (b <? 128).

(** [buf.toString('utf8')]: 7-bit input decodes to itself. *)
Definition toString_utf8 `{Runtime} (buf : list Z) : JS.jsstring :=
  if forallb isAscii buf then map Z.to_N buf else utf8DecodeWide buf.

(** The 7-bit bytes that the Shift_JIS converter of the host maps to
    themselves: all but 0x1A, 0x1C and 0x7F, which it permutes. *)
Definition isPlainShiftJis (b : Z) : bool :=
  isAscii b && negb (b =? 0x1A) && negb (b =? 0x1C) && negb (b =? 0x7F).

(** [new TextDecoder('shift_jis', { fatal: true }).decode(buf)]: input of
    such bytes decodes to itself. *)
Definition decode_shift_jis `{Runtime} (buf : list Z) : option JS.jsstring :=
  if forallb isPlainShiftJis buf then Some (map Z.to_N buf)
  else shiftJisDecodeWide buf.

(** The UTF-8 bytes of a string: 7-bit strings encode to themselves. *)
Definition utf8 `{Runtime} (s : JS.jsstring) : list Z :=
  if forallb (fun c => (c <? 128)%N) s then map Z.of_N s else utf8EncodeWide s.

End Buf.

(* ================================================================== *)
(** * The central directory reader (zip/central_directory.ts) *)
(* ================================================================== *)

Module CentralDirectory.
Import JS Buf.

Record CentralEntry : Type := {
  fileName : jsstring;
  flags : Z;
  method : Z;
  crc32 : Z;
  compressedSize : Z;
  uncompressedSize : Z;
  localHeaderOffset : Z;
  isDirectory : bool;
}.

Definition EOCD_SIG : Z := 0x06054b50.
Definition Z64_LOC_SIG : Z := 0x07064b50.
Definition Z64_EOCD_SIG : Z := 0x06064b50.
Definition CEN_SIG : Z := 0x02014b50.

Definition u16 := readUInt16LE.
Definition u32 := readUInt32LE.
Definition u64 := readBigUInt64LE.

(** The object [out] of [parseExtraZip64]: a field is [None] while
    [undefined]. *)
Record Zip64Out : Type := {
  usize : option Z;
  csize : option Z;
  offset : option Z;
}.

Definition noZip64 : Zip64Out := {| usize := None; csize := None; offset := None |}.

(** One optional 8-byte field: [if (want) { out.f = extra.readBigUInt64LE(p); p += 8; }] *)
Definition wantField (want : bool) (extra : list Z) (p : Z)
  : result (option Z * Z) :=
  if want then v ← readBigUInt64LE extra p; Ok (Some v, p + 8)
  else Ok (None, p).

(** The [while (off + 4 <= extra.length)] loop of [parseExtraZip64]; every
    turn advances [off] by four at least, so [length extra] turns cover it. *)
Fixpoint parseExtraZip64Loop (fuel : nat) (extra : list Z) (off : Z)
    (wantU wantC wantOff : bool) : result Zip64Out :=
  match fuel with
  | O => Ok noZip64
  | S fuel' =>
      if negb (off + 4 <=? Z.of_nat (length extra)) then Ok noZip64 else
      id ← readUInt16LE extra off;
      sz ← readUInt16LE extra (off + 2);
      let off := off + 4 in
      if Z.of_nat (length extra) <? off + sz then Ok noZip64 else
      if id =? 0x0001 then
        '(u, p) ← wantField wantU extra off;
        '(c, p) ← wantField wantC extra p;
        '(o, _) ← wantField wantOff extra p;
        Ok {| usize := u; csize := c; offset := o |}
      else parseExtraZip64Loop fuel' extra (off + sz) wantU wantC wantOff
  end.

Definition parseExtraZip64 (extra : list Z) (wantU wantC wantOff : bool)
  : result Zip64Out :=
  parseExtraZip64Loop (length extra) extra 0 wantU wantC wantOff.

(** The loop of [parseUnicodePath] (extra field 0x7075). *)
Fixpoint parseUnicodePathLoop (fuel : nat) (extra : list Z) (off : Z)
  : result (option (list Z)) :=
  match fuel with
  | O => Ok None
  | S fuel' =>
      if negb (off + 4 <=? Z.of_nat (length extra)) then Ok None else
      id ← readUInt16LE extra off;
      sz ← readUInt16LE extra (off + 2);
      let off := off + 4 in
      if Z.of_nat (length extra) <? off + sz then Ok None else
      if (id =? 0x7075) && (5 <=? sz) then
        ver ← readUInt8 extra off;
        if negb (ver =? 1) then Ok None
        else Ok (Some (subarray extra (off + 5) (off + sz)))
      else parseUnicodePathLoop fuel' extra (off + sz)
  end.

Definition parseUnicodePath (extra : list Z) : result (option (list Z)) :=
  parseUnicodePathLoop (length extra) extra 0.

Definition decodeName `{Runtime} (nameBytes : list Z) (flags : Z)
    (extra : list Z) : result jsstring :=
  let utf8Flag := negb (band flags 2048 =? 0) in
  upath ← parseUnicodePath extra;
  if utf8Flag then Ok (toString_utf8 nameBytes) else
  match upath with
  | Some up => Ok (toString_utf8 up)
  | None =>
      match decode_shift_jis nameBytes with
      | Some s => Ok s
      | None => Ok (toString_latin1 nameBytes)
      end
  end.

(** ** Locating the end-of-central-directory record *)

Definition maxSearch : Z := 0x10000 + 22.

(** [start = size > maxSearch ? size - maxSearch : 0n] *)
Definition tailStart (size : Z) : Z :=
  if maxSearch <? size then size - maxSearch else 0.

(** The buffer [tail]: the file from [start] to its end. *)
Definition readTail (file : list Z) : list Z :=
  let size := Z.of_nat (length file) in
  let start := tailStart size in
  fhRead file (size - start) start.

(** [for (let i = tail.length - 22; i >= 0; i--)]: [n] is [i + 1], and the
    result is [eocdOff], -1 when no signature was met. *)
Fixpoint scanEOCD (tail : list Z) (n : nat) : result Z :=
  match n with
  | O => Ok (-1)
  | S i =>
      sig ← readUInt32LE tail (Z.of_nat i);
      if sig =? EOCD_SIG then Ok (Z.of_nat i) else scanEOCD tail i
  end.

Definition findEOCD (tail : list Z) : result Z :=
  scanEOCD tail (Z.to_nat (Z.of_nat (length tail) - 22 + 1)).

(** ** Enumerating the records *)

(** One turn of [while (p + 46 <= cdBuf.length)], after its two exit
    tests: the entry at [p] and the next [p]. *)
Definition readEntry `{Runtime} (cdBuf : list Z) (p : Z)
  : result (CentralEntry * Z) :=
  flags ← readUInt16LE cdBuf (p + 8);
  method ← readUInt16LE cdBuf (p + 10);
  crc32 ← (c ← readUInt32LE cdBuf (p + 16); Ok (ushr c 0));
  csize32e ← readUInt32LE cdBuf (p + 20);
  usize32e ← readUInt32LE cdBuf (p + 24);
  nameLen ← readUInt16LE cdBuf (p + 28);
  extraLen ← readUInt16LE cdBuf (p + 30);
  commentLen ← readUInt16LE cdBuf (p + 32);
  lhoff32 ← readUInt32LE cdBuf (p + 42);
  let nameBytes := subarray cdBuf (p + 46) (p + 46 + nameLen) in
  let extra := subarray cdBuf (p + 46 + nameLen) (p + 46 + nameLen + extraLen) in
  let wantU := usize32e =? 0xFFFFFFFF in
  let wantC := csize32e =? 0xFFFFFFFF in
  let wantO := lhoff32 =? 0xFFFFFFFF in
  '(usize, csize, lhoff) ←
    (if wantU || wantC || wantO then
       z64 ← parseExtraZip64 extra wantU wantC wantO;
       _ ← throwIf (wantU && bool_decide (z64.(usize) = None))
             Zip64_usize_missing_in_central;
       _ ← throwIf (wantC && bool_decide (z64.(csize) = None))
             Zip64_csize_missing_in_central;
       _ ← throwIf (wantO && bool_decide (z64.(offset) = None))
             Zip64_offset_missing_in_central;
       Ok (default usize32e z64.(usize),
           default csize32e z64.(csize),
           default lhoff32 z64.(offset))
     else Ok (usize32e, csize32e, lhoff32));
  name ← decodeName nameBytes flags extra;
  Ok ({| fileName := name;
         flags := flags;
         method := method;
         crc32 := crc32;
         compressedSize := csize;
         uncompressedSize := usize;
         localHeaderOffset := lhoff;
         isDirectory := endsWith (str "/") name |},
      p + 46 + nameLen + extraLen + commentLen).

(** The [while] loop; a turn advances [p] by 46 at least, so
    [length cdBuf] turns cover it. *)
Fixpoint readEntries `{Runtime} (fuel : nat) (cdBuf : list Z) (p : Z)
    (entries : list CentralEntry) : result (list CentralEntry) :=
  match fuel with
  | O => Ok entries
  | S fuel' =>
      if negb (p + 46 <=? Z.of_nat (length cdBuf)) then Ok entries else
      sig ← readUInt32LE cdBuf p;
      if negb (sig =? CEN_SIG) then Ok entries else
      '(e, p') ← readEntry cdBuf p;
      readEntries fuel' cdBuf p' (entries ++ [e])
  end.

Record CentralDirectoryResult : Type := {
  entries : list CentralEntry;
  warnings : list jsstring;
}.

Definition zip64Warning : jsstring :=
  str "Zip64 needed but Zip64 locator not found; using 32-bit CD fields".

(** [readCentralDirectory(zipPath)], on the bytes of the file. *)
Definition readCentralDirectory `{Runtime} (file : list Z)
  : result CentralDirectoryResult :=
  let tail := readTail file in
  eocdOff ← findEOCD tail;
  _ ← throwIf (eocdOff <? 0) EOCD_not_found;
  let eocd := subarrayFrom tail eocdOff in
  cdSize32 ← u32 eocd 12;
  cdOff32 ← u32 eocd 16;
  totalEntries16 ← u16 eocd 10;
  let needsZip64 :=
    (cdSize32 =? 0xFFFFFFFF) || (cdOff32 =? 0xFFFFFFFF) || (totalEntries16 =? 0xFFFF) in
  '(cdSize, cdOff, warnings) ←
    (if needsZip64 then
       let locPos := eocdOff - 20 in
       located ← (if 0 <=? locPos
                  then sig ← readUInt32LE tail locPos; Ok (sig =? Z64_LOC_SIG)
                  else Ok false);
       if (located : bool) then
         let loc := subarray tail locPos (locPos + 20) in
         z64eocdOff ← u64 loc 8;
         zbuf ← allocRead file 56 z64eocdOff;
         zsig ← readUInt32LE zbuf 0;
         _ ← throwIf (negb (zsig =? Z64_EOCD_SIG)) Zip64_EOCD_not_found;
         cdSize ← u64 zbuf 40;
         cdOff ← u64 zbuf 48;
         Ok (cdSize, cdOff, [])
       else Ok (cdSize32, cdOff32, [zip64Warning])
     else Ok (cdSize32, cdOff32, []));
  cdBuf ← allocRead file cdSize cdOff;
  entries ← readEntries (length cdBuf) cdBuf 0 [];
  Ok {| entries := entries; warnings := warnings |}.

End CentralDirectory.

(* ================================================================== *)
(** * The forward reader (zip/zip_stream.ts) *)
(* ================================================================== *)

Module ZipStream.
Import JS Buf.

Record ZipEntryHeader : Type := {
  localHeaderOffset : Z;
  fileNameBytes : list Z;
  extra : list Z;
  method : Z;
  flags : Z;
  compressedSize : Z;
  uncompressedSize : Z;
  crc32 : Z;
}.

Record DataDescriptor : Type := {
  dd_crc32 : Z;
  dd_compressedSize : Z;
  dd_uncompressedSize : Z;
}.

Definition LFH_SIG : Z := 0x04034b50.
Definition CDH_SIG : Z := 0x02014b50.
Definition EOCD_SIG : Z := 0x06054b50.
Definition DD_SIG : Z := 0x08074b50.

(** ** [AsyncByteQueue]

    The queue as its consumer meets it when the producer runs to its end
    or to its error (both set [ended] and leave what was delivered):
    [pending] is every byte delivered and not yet read ([chunks] and
    [length] of the source, chunk borders dropped).  [ensure(n)] suspends
    until [n] bytes are buffered or the producer has ended, so it succeeds
    exactly when [n] bytes are pending. *)
Record AsyncByteQueue : Type := {
  pending : list Z;
  consumedTotal : Z;
  discarding : bool;
}.

Definition newQueue (src : list Z) : AsyncByteQueue :=
  {| pending := src; consumedTotal := 0; discarding := false |}.

Definition discardFuture (q : AsyncByteQueue) : AsyncByteQueue :=
  {| pending := []; consumedTotal := q.(consumedTotal); discarding := true |}.

Definition getConsumedTotal (q : AsyncByteQueue) : Z := q.(consumedTotal).

Definition ensure (n : Z) (q : AsyncByteQueue) : result unit :=
  throwIf (Z.of_nat (length q.(pending)) <? n) Unexpected_EOF.

Definition read (n : Z) (q : AsyncByteQueue) : result (list Z * AsyncByteQueue) :=
  if n =? 0 then Ok ([], q) else
  _ ← throwIf (Z.of_nat (length q.(pending)) <? n) Queue_underflow;
  Ok (take (Z.to_nat n) q.(pending),
      {| pending := drop (Z.to_nat n) q.(pending);
         consumedTotal := q.(consumedTotal) + n;
         discarding := q.(discarding) |}).

(** Both paths of [peekU32LE] return the first four bytes and leave the
    queue and [consumedTotal] as they were. *)
Definition peekU32LE (q : AsyncByteQueue) : result Z :=
  _ ← throwIf (Z.of_nat (length q.(pending)) <? 4) Need_4_bytes;
  readUInt32LE q.(pending) 0.

(** [streamExact(n)] read to its end: the chunks it pushes.  With fewer
    than [n] bytes to come the stream is destroyed with the error of
    [ensure]. *)
Definition streamExact (n : Z) (q : AsyncByteQueue)
  : result (list (list Z) * AsyncByteQueue) :=
  _ ← throwIf ((n <? 0) || (MAX_SAFE_INTEGER <? n)) Entry_too_large;
  if n =? 0 then Ok ([], q) else
  _ ← ensure n q;
  '(chunk, q) ← read n q;
  Ok ([chunk], q).

Record Zip64Sizes : Type := {
  usize : option Z;
  csize : option Z;
}.

Definition noZip64 : Zip64Sizes := {| usize := None; csize := None |}.

Definition wantField (want : bool) (extra : list Z) (p : Z)
  : result (option Z * Z) :=
  if want then v ← readBigUInt64LE extra p; Ok (Some v, p + 8)
  else Ok (None, p).

(** The loop of [parseZip64Extra]; [length extra] turns cover it. *)
Fixpoint parseZip64ExtraLoop (fuel : nat) (extra : list Z) (off : Z)
    (wantC wantU : bool) : result Zip64Sizes :=
  match fuel with
  | O => Ok noZip64
  | S fuel' =>
      if negb (off + 4 <=? Z.of_nat (length extra)) then Ok noZip64 else
      id ← readUInt16LE extra off;
      sz ← readUInt16LE extra (off + 2);
      let off := off + 4 in
      if Z.of_nat (length extra) <? off + sz then Ok noZip64 else
      if id =? 0x0001 then
        '(u, p) ← wantField wantU extra off;
        '(c, _) ← wantField wantC extra p;
        Ok {| usize := u; csize := c |}
      else parseZip64ExtraLoop fuel' extra (off + sz) wantC wantU
  end.

Definition parseZip64Extra (extra : list Z) (wantC wantU : bool)
  : result Zip64Sizes :=
  parseZip64ExtraLoop (length extra) extra 0 wantC wantU.

(** ** [ZipStreamReader] *)

Definition nextHeader (q : AsyncByteQueue)
  : result (option ZipEntryHeader * AsyncByteQueue) :=
  _ ← ensure 4 q;
  sig ← peekU32LE q;
  if (sig =? CDH_SIG) || (sig =? EOCD_SIG) then Ok (None, discardFuture q) else
  if negb (sig =? LFH_SIG) then Ok (None, discardFuture q) else
  let localHeaderOffset := getConsumedTotal q in
  _ ← ensure 30 q;
  '(h, q) ← read 30 q;
  flags ← readUInt16LE h 6;
  method ← readUInt16LE h 8;
  _ ← throwIf (negb (method =? 0) && negb (method =? 8))
        (Unsupported_compression_method method);
  crc32 ← readUInt32LE h 14;
  csize32 ← readUInt32LE h 18;
  usize32 ← readUInt32LE h 22;
  nameLen ← readUInt16LE h 26;
  extraLen ← readUInt16LE h 28;
  _ ← ensure (nameLen + extraLen) q;
  '(nameBuf, q) ← read nameLen q;
  '(extra, q) ← read extraLen q;
  let wantC := csize32 =? 0xFFFFFFFF in
  let wantU := usize32 =? 0xFFFFFFFF in
  '(csize, usize) ←
    (if wantC || wantU then
       z64 ← parseZip64Extra extra wantC wantU;
       _ ← throwIf (wantC && bool_decide (z64.(csize) = None)) Zip64_csize_missing;
       _ ← throwIf (wantU && bool_decide (z64.(usize) = None)) Zip64_usize_missing;
       Ok (default csize32 z64.(csize), default usize32 z64.(usize))
     else Ok (csize32, usize32));
  Ok (Some {| localHeaderOffset := localHeaderOffset;
              fileNameBytes := nameBuf;
              extra := extra;
              method := method;
              flags := flags;
              compressedSize := csize;
              uncompressedSize := usize;
              crc32 := crc32 |},
      q).

Definition streamCompressedKnown := streamExact.

Definition readDataDescriptor (zip64 : bool) (q : AsyncByteQueue)
  : result (DataDescriptor * AsyncByteQueue) :=
  _ ← ensure 12 q;
  first ← peekU32LE q;
  '(_, q) ← (if first =? DD_SIG then read 4 q else Ok ([], q));
  _ ← ensure (if zip64 then 4 + 8 + 8 else 4 + 4 + 4) q;
  '(c, q) ← read 4 q;
  crc ← (v ← readUInt32LE c 0; Ok (ushr v 0));
  '(csize, usize, q) ←
    (if zip64 then
       '(b, q) ← read 16 q;
       csize ← readBigUInt64LE b 0;
       usize ← readBigUInt64LE b 8;
       Ok (csize, usize, q)
     else
       '(b, q) ← read 8 q;
       csize ← readUInt32LE b 0;
       usize ← readUInt32LE b 4;
       Ok (csize, usize, q));
  Ok ({| dd_crc32 := crc; dd_compressedSize := csize; dd_uncompressedSize := usize |},
      q).

End ZipStream.

(* ================================================================== *)
(** * The spool tee (zip/spool.ts) *)
(* ================================================================== *)

Module Spool.

(** What [teeToSpool] returns: the bytes the pass-through hands to the
    reader before it ends or is destroyed, and what the promise [spoolDone]
    settles to, the bytes of the spool file or the error that destroyed the
    write stream. *)
Record Tee : Type := {
  pass : list Z;
  spoolDone : result (list Z);
}.

(** The ['data'] handler over the chunks of the body, by their lengths:
    the bytes written to both sinks before a chunk takes the running count
    [seen] above [maxBytes]. *)
Fixpoint written (chunks : list nat) (seen : Z) (maxBytes : Z) : Z :=
  match chunks with
  | [] => seen
  | n :: rest =>
      let seen' := seen + Z.of_nat n in
      if maxBytes <? seen' then seen else written rest seen' maxBytes
  end.

(** [teeToSpool(req, spoolPath, maxBytes)].  A body within [maxBytes] goes
    whole to the reader and to the spool file.  With a longer body the chunk
    that takes [seen] above [maxBytes] destroys the request and both sinks
    with 'ZIP too large': the reader has the chunks before it and then meets
    the end of its source, and [spoolDone] rejects.  The function itself
    returns at once; the ingest reads the pass-through first and awaits
    [spoolDone] after its streaming phase.  (When that phase throws,
    [spoolDone] is never awaited; what the process does with a rejection
    nobody handles is outside the model.) *)
Definition teeToSpool `{Runtime} (body : list Z) (maxBytes : Z) : Tee :=
  if maxBytes <? Z.of_nat (length body) then
    {| pass := take (Z.to_nat (written (requestChunks body) 0 maxBytes)) body;
       spoolDone := Err ZIP_too_large |}
  else {| pass := body; spoolDone := Ok body |}.

End Spool.

(* ================================================================== *)
(** * The store on the file system (store/cas.ts) *)
(* ================================================================== *)

Module CasFs.
Import JS Fileset Cas.

(** [writeRef(name, filesetId)]: the store after it and the error thrown,
    if any.  [p] is [join(root, 'refs', name)] and [tmp] is [p + '.tmp'];
    [writeFile(tmp, filesetId)] is followed by [rename(tmp, p)].
    - A path that holds a NUL is rejected before the disk is touched.
    - For a plain name both files stand directly in [refs/]: the write
      replaces what [tmp] held, and the rename takes [tmp] away again, so a
      ref called [name + '.tmp'] is lost.
    - Any other name leaves [refs/]; what happens then is the host's
      ([writeRefElsewhere]).  The rename may replace the body of an object,
      but it removes no file other than [tmp], which, ending in ".tmp",
      names no object: the objects of the store stay. *)
Definition writeRef `{Runtime} (name filesetId : jsstring) (cas : CasStore)
  : CasStore * option error :=
  if includesUnit NUL name then (cas, Some ERR_INVALID_ARG_VALUE)
  else if plainName name then
    match refNameRefused name with
    | Some e => (cas, Some e)
    | None =>
        ({| objects := cas.(objects);
            filesets := cas.(filesets);
            refs := <[ name := filesetId ]>
                      (delete (name ++ str ".tmp") cas.(refs)) |},
         None)
    end
  else
    let '(cas', err) := writeRefElsewhere name filesetId cas in
    ({| objects := cas.(objects) ∪ cas'.(objects);
        filesets := cas'.(filesets);
        refs := cas'.(refs) |},
     err).

(** The stream [createReadStream(path)] returns.  It opens its file when it
    is read: [opens] tells whether the file is there.  A stream that does
    not open emits ['error'] (ENOENT) once it is piped. *)
Record ReadStream : Type := {
  streamOf : jsstring;
  opens : bool;
}.

(** [openObjectStream(sha256hex)]: [None] for [null], when
    [createReadStream] throws where it is called. *)
Definition openObjectStream `{Runtime} (sha256hex : jsstring) (cas : CasStore)
  : option ReadStream :=
  if createReadStreamThrows (objPath sha256hex) then None
  else Some {| streamOf := sha256hex;
               opens := bool_decide (sha256hex ∈ cas.(objects)) |}.

End CasFs.

(* ================================================================== *)
(** * The ingest (zip/upload_zip.ts) *)
(* ================================================================== *)

Module Upload.
Import JS Buf Cas CasFs.

Record UploadLimits : Type := {
  maxEntries : Z;
  maxFileBytes : Z;
  maxTotalBytes : Z;
  maxZipBytes : Z;
}.

Record StreamResult : Type := {
  sha256 : jsstring;
  size : Z;
  crc32 : Z;
}.

(** ** Effects

    An [async] function of the ingest acts on the store and either returns
    or throws; what it did to the store before it threw stays done. *)
Definition M (A : Type) : Type := CasStore -> CasStore * result A.

#[global] Instance M_ret : MRet M := fun A a cas => (cas, Ok a).
#[global] Instance M_bind : MBind M := fun A B f m cas =>
  match m cas with
  | (cas', Ok a) => f a cas'
  | (cas', Err e) => (cas', Err e)
  end.

(** A step that leaves the store alone. *)
Definition lift {A : Type} (r : result A) : M A := fun cas => (cas, r).

(** [await cas.commitTempObject(tmp, shaHex)] *)
Definition commit (shaHex : jsstring) : M unit :=
  fun cas => (commitTempObject shaHex cas, Ok tt).

(** A readable stream, by the chunks it delivers. *)
Definition asChunks (bytes : list Z) : list (list Z) :=
  match bytes with [] => [] | _ => [bytes] end.

(** [src.pipe(zlib.createInflateRaw())] *)
Definition inflated `{Runtime} (src : list (list Z)) : result (list (list Z)) :=
  match inflateRaw (concat src) with
  | Some raw => Ok (asChunks raw)
  | None => Err Z_DATA_ERROR
  end.

(** The transform [tap] over the chunks of the raw stream: [rawSize], [crc]
    and the bytes fed to [sha] so far. *)
Fixpoint tap (limits : UploadLimits) (chunks : list (list Z))
    (rawSize crc : Z) (sha : list Z) : result (Z * Z * list Z) :=
  match chunks with
  | [] => Ok (rawSize, crc, sha)
  | chunk :: rest =>
      let rawSize := rawSize + Z.of_nat (length chunk) in
      _ ← throwIf (limits.(maxFileBytes) <? rawSize) File_too_large;
      tap limits rest rawSize (Crc32.crc32Update crc chunk) (sha ++ chunk)
  end.

Definition processRawToCas `{Runtime} (rawStream : list (list Z))
    (limits : UploadLimits) : M StreamResult :=
  '(rawSize, crc, sha) ← lift (tap limits rawStream 0 0 []);
  let shaHex := sha256hex sha in
  _ ← commit shaHex;
  mret {| sha256 := shaHex; size := rawSize; crc32 := ushr crc 0 |}.

(** [createReadStream(zipPath, { start, end })] read to its end: the
    constructor rejects bounds that are no safe integers or are out of
    order. *)
Definition createReadStream (file : list Z) (start end_ : Z) : result (list (list Z)) :=
  _ ← throwIf ((start <? 0) || (MAX_SAFE_INTEGER <? start)) ERR_OUT_OF_RANGE;
  _ ← throwIf ((end_ <? 0) || (MAX_SAFE_INTEGER <? end_)) ERR_OUT_OF_RANGE;
  _ ← throwIf (end_ <? start) ERR_OUT_OF_RANGE;
  Ok (asChunks (take (Z.to_nat (end_ - start + 1)) (drop (Z.to_nat start) file))).

Definition processEntryFromSpool `{Runtime} (zipFile : list Z)
    (localHeaderOffset method compressedSize : Z) (limits : UploadLimits)
  : M StreamResult :=
  h ← lift (allocRead zipFile 30 localHeaderOffset);
  sig ← lift (readUInt32LE h 0);
  _ ← lift (throwIf (negb (sig =? 0x04034b50)) Local_header_signature_mismatch);
  nameLen ← lift (readUInt16LE h 26);
  extraLen ← lift (readUInt16LE h 28);
  let dataStart := localHeaderOffset + 30 + (nameLen + extraLen) in
  let max := MAX_SAFE_INTEGER in
  _ ← lift (throwIf ((compressedSize <? 0) || (max <? compressedSize)) Entry_too_large);
  let start := dataStart in
  let end_ := dataStart + compressedSize - 1 in
  rs ← lift (createReadStream zipFile start end_);
  if method =? 0 then processRawToCas rs limits
  else if method =? 8 then
    raw ← lift (inflated rs);
    processRawToCas raw limits
  else lift (Err (Unsupported_method_in_fallback method)).

(** ** The streaming phase *)

Record StreamState : Type := {
  zr : ZipStream.AsyncByteQueue;
  processed : gmap jsstring StreamResult;
  entryCount : Z;
  totalBytes : Z;
  warnings : list jsstring;
}.

Definition deferredWarning (localHeaderOffset : Z) : jsstring :=
  str "Deferred STORE+DD at offset " ++ decimal localHeaderOffset.

(** The cross-check of an entry read without a data descriptor. *)
Definition checkLocalHeader (hdr : ZipStream.ZipEntryHeader) (r : StreamResult)
  : result unit :=
  _ ← throwIf (negb (hdr.(ZipStream.uncompressedSize) =? 0)
               && negb (hdr.(ZipStream.uncompressedSize) =? r.(size)))
        Size_mismatch_local_header;
  throwIf (negb (hdr.(ZipStream.crc32) =? 0)
           && negb (hdr.(ZipStream.crc32) =? r.(crc32)))
    CRC_mismatch_local_header.

(** The cross-check of an entry against its data descriptor. *)
Definition checkDataDescriptor (dd : ZipStream.DataDescriptor) (r : StreamResult)
  : result unit :=
  _ ← throwIf (negb (dd.(ZipStream.dd_uncompressedSize) =? r.(size))) Size_mismatch_DD;
  throwIf (negb (dd.(ZipStream.dd_crc32) =? r.(crc32))) CRC_mismatch_DD.

(** [zr.streamCompressedUnknown().pipe(zlib.createInflateRaw())] run by the
    pipeline: the raw stream and the reader after it. *)
Definition streamUnknownInflated `{Runtime} (q : ZipStream.AsyncByteQueue)
  : result (list (list Z) * ZipStream.AsyncByteQueue) :=
  match inflateRawUnknown q.(ZipStream.pending) with
  | Some (raw, drawn) =>
      Ok (asChunks raw,
          {| ZipStream.pending := drop drawn q.(ZipStream.pending);
             ZipStream.consumedTotal :=
               q.(ZipStream.consumedTotal)
               + Z.of_nat (Nat.min drawn (length q.(ZipStream.pending)));
             ZipStream.discarding := q.(ZipStream.discarding) |})
  | None => Err Z_DATA_ERROR
  end.

(** [(hdr.flags & 0x08) !== 0] *)
Definition usesDD (hdr : ZipStream.ZipEntryHeader) : bool :=
  negb (band hdr.(ZipStream.flags) 0x08 =? 0).

(** [hdr.compressedSize > 0xFFFFFFFFn || hdr.uncompressedSize > 0xFFFFFFFFn] *)
Definition zip64Sizes (hdr : ZipStream.ZipEntryHeader) : bool :=
  (0xFFFFFFFF <? hdr.(ZipStream.compressedSize))
  || (0xFFFFFFFF <? hdr.(ZipStream.uncompressedSize)).

(** The raw stream of an entry, read to its end by the pipeline, and the
    reader after it. *)
Definition openRawStream `{Runtime} (hdr : ZipStream.ZipEntryHeader)
    (q : ZipStream.AsyncByteQueue)
  : result (list (list Z) * ZipStream.AsyncByteQueue) :=
  if negb (usesDD hdr) then
    '(src, q) ← ZipStream.streamCompressedKnown hdr.(ZipStream.compressedSize) q;
    if hdr.(ZipStream.method) =? 0 then Ok (src, q)
    else raw ← inflated src; Ok (raw, q)
  else streamUnknownInflated q.

(** The cross-check that follows the processor. *)
Definition crossCheck (hdr : ZipStream.ZipEntryHeader) (r : StreamResult)
    (q : ZipStream.AsyncByteQueue) : result ZipStream.AsyncByteQueue :=
  if negb (usesDD hdr) then
    _ ← checkLocalHeader hdr r; Ok q
  else
    '(dd, q) ← ZipStream.readDataDescriptor (zip64Sizes hdr) q;
    _ ← checkDataDescriptor dd r; Ok q.

(** One turn of the [for (;;)] loop after [if (!hdr) break]. *)
Definition streamEntry `{Runtime} (limits : UploadLimits)
    (hdr : ZipStream.ZipEntryHeader) (st : StreamState) : M StreamState :=
  let entryCount := st.(entryCount) + 1 in
  _ ← lift (throwIf (limits.(maxEntries) <? entryCount) Too_many_entries);
  if usesDD hdr && (hdr.(ZipStream.method) =? 0) then
    mret {| zr := st.(zr);
            processed := st.(processed);
            entryCount := entryCount;
            totalBytes := st.(totalBytes);
            warnings := st.(warnings)
                        ++ [deferredWarning hdr.(ZipStream.localHeaderOffset)] |}
  else
    '(rawStream, q) ← lift (openRawStream hdr st.(zr));
    r ← processRawToCas rawStream limits;
    let totalBytes := st.(totalBytes) + r.(size) in
    _ ← lift (throwIf (limits.(maxTotalBytes) <? totalBytes) Total_too_large);
    q ← lift (crossCheck hdr r q);
    mret {| zr := q;
            processed := <[ decimal hdr.(ZipStream.localHeaderOffset) := r ]>
                           st.(processed);
            entryCount := entryCount;
            totalBytes := totalBytes;
            warnings := st.(warnings) |}.

(** The [for (;;)] loop.  A turn that does not leave the loop raises
    [entryCount], and a turn with [entryCount] above [maxEntries] throws:
    [maxEntries + 1] turns cover every run, and the turn count is what the
    recursion descends on. *)
Fixpoint streamingPhase `{Runtime} (turns : nat) (limits : UploadLimits)
    (st : StreamState) : M StreamState :=
  match turns with
  | O => lift (Err Too_many_entries)
  | S turns' =>
      '(hdr, q) ← lift (ZipStream.nextHeader st.(zr));
      let st := {| zr := q;
                   processed := st.(processed);
                   entryCount := st.(entryCount);
                   totalBytes := st.(totalBytes);
                   warnings := st.(warnings) |} in
      match hdr with
      | None => mret st
      | Some hdr =>
          st ← streamEntry limits hdr st;
          streamingPhase turns' limits st
      end
  end.

Definition turnsFor (limits : UploadLimits) : nat :=
  S (Z.to_nat limits.(maxEntries)).

(** ** Reconciliation with the central directory *)

Record FinalState : Type := {
  finalEntries : list Fileset.FileEntry;
  seenPaths : gmap jsstring nat;
  finalWarnings : list jsstring;
}.

Definition duplicateWarning (norm : jsstring) : jsstring :=
  str "Duplicate path: " ++ norm ++ str " (last wins)".

Definition fileEntry (norm : jsstring) (r : StreamResult) : Fileset.FileEntry :=
  {| Fileset.path := norm; Fileset.sha256 := r.(sha256); Fileset.size := r.(size) |}.

(** "Duplicate paths: last wins".  [finalEntries[idx] = ...] writes inside
    the array: [seenPaths] only ever holds indices of [finalEntries]. *)
Definition recordFinal (norm : jsstring) (r : StreamResult) (fs : FinalState)
  : FinalState :=
  match fs.(seenPaths) !! norm with
  | Some idx =>
      {| finalEntries := <[ idx := fileEntry norm r ]> fs.(finalEntries);
         seenPaths := fs.(seenPaths);
         finalWarnings := fs.(finalWarnings) ++ [duplicateWarning norm] |}
  | None =>
      {| finalEntries := fs.(finalEntries) ++ [fileEntry norm r];
         seenPaths := <[ norm := length fs.(finalEntries) ]> fs.(seenPaths);
         finalWarnings := fs.(finalWarnings) |}
  end.

Record ReconState : Type := {
  reconProcessed : gmap jsstring StreamResult;
  final : FinalState;
}.

(** What one central-directory entry resolves to: skipped, or its
    normalised path and result, with [processed] as the turn leaves it. *)
Definition resolveEntry `{Runtime} (zipFile : list Z) (limits : UploadLimits)
    (e : CentralDirectory.CentralEntry) (processed : gmap jsstring StreamResult)
  : M (option (jsstring * StreamResult) * gmap jsstring StreamResult) :=
  if e.(CentralDirectory.isDirectory) then mret (None, processed) else
  _ ← lift (throwIf (negb (e.(CentralDirectory.method) =? 0)
                     && negb (e.(CentralDirectory.method) =? 8))
              (Unsupported_method_in_CD e.(CentralDirectory.method)));
  norm ← lift (ZipPath.normalizeZipPath e.(CentralDirectory.fileName));
  if streq norm [] then mret (None, processed) else
  let key := decimal e.(CentralDirectory.localHeaderOffset) in
  match processed !! key with
  | Some r =>
      _ ← lift (throwIf (negb (r.(size) =? e.(CentralDirectory.uncompressedSize)))
                  (Size_mismatch_vs_CD norm));
      _ ← lift (throwIf (negb (r.(crc32) =? e.(CentralDirectory.crc32)))
                  (CRC_mismatch_vs_CD norm));
      mret (Some (norm, r), processed)
  | None =>
      r ← processEntryFromSpool zipFile
            e.(CentralDirectory.localHeaderOffset)
            e.(CentralDirectory.method)
            e.(CentralDirectory.compressedSize) limits;
      _ ← lift (throwIf (negb (r.(size) =? e.(CentralDirectory.uncompressedSize)))
                  (Fallback_size_mismatch norm));
      _ ← lift (throwIf (negb (r.(crc32) =? e.(CentralDirectory.crc32)))
                  (Fallback_CRC_mismatch norm));
      mret (Some (norm, r), <[ key := r ]> processed)
  end.

(** One turn of [for (const e of cd.entries)]. *)
Definition reconcileEntry `{Runtime} (zipFile : list Z) (limits : UploadLimits)
    (e : CentralDirectory.CentralEntry) (rs : ReconState) : M ReconState :=
  '(resolved, processed) ← resolveEntry zipFile limits e rs.(reconProcessed);
  match resolved with
  | None => mret {| reconProcessed := processed; final := rs.(final) |}
  | Some (norm, r) =>
      mret {| reconProcessed := processed; final := recordFinal norm r rs.(final) |}
  end.

Fixpoint reconcile `{Runtime} (zipFile : list Z) (limits : UploadLimits)
    (entries : list CentralDirectory.CentralEntry) (rs : ReconState) : M ReconState :=
  match entries with
  | [] => mret rs
  | e :: rest =>
      rs ← reconcileEntry zipFile limits e rs;
      reconcile zipFile limits rest rs
  end.

(** ** Canonical form and commit *)

(** [Array.prototype.sort] with a comparator: a stable sort.  For a
    comparator that is a total preorder the language fixes the result, and
    this is it; for any other the order is left to the implementation. *)
Fixpoint insertSorted {A : Type} (cmp : A -> A -> Z) (x : A) (l : list A) : list A :=
  match l with
  | [] => [x]
  | y :: l' => if cmp x y <=? 0 then x :: l else y :: insertSorted cmp x l'
  end.

Definition sort {A : Type} (cmp : A -> A -> Z) (l : list A) : list A :=
  foldr (insertSorted cmp) [] l.

(** [(a, b) => a.path.localeCompare(b.path)] *)
Definition byPath `{Runtime} (a b : Fileset.FileEntry) : Z :=
  localeCompare a.(Fileset.path) b.(Fileset.path).

(** One line of the canonical string: the template literal
    [`${e.path}<NUL>sha256:${e.sha256}<NUL>${e.size}<LF>`], whose two
    separators are NUL characters (U+0000) in the source text. *)
Definition canonicalLine (e : Fileset.FileEntry) : jsstring :=
  e.(Fileset.path) ++ [NUL] ++ str "sha256:" ++ e.(Fileset.sha256) ++ [NUL]
  ++ decimal e.(Fileset.size) ++ [10%N].

Definition canonical (entries : list Fileset.FileEntry) : jsstring :=
  join [] (map canonicalLine entries).

(** [createHash('sha256').update('v1<NUL>').update(canonical, 'utf8').digest('hex')]:
    the prefix is "v1" and a NUL character. *)
Definition filesetIdOf `{Runtime} (canonical : jsstring) : jsstring :=
  sha256hex (utf8 (str "v1" ++ [NUL]) ++ utf8 canonical).

Definition makeManifest `{Runtime} (finalEntries : list Fileset.FileEntry)
    (warnings : list jsstring) : Fileset.Manifest :=
  {| Fileset.schema := str "fileset.v1";
     Fileset.fileset_id := filesetIdOf (canonical finalEntries);
     Fileset.file_count := Z.of_nat (length finalEntries);
     Fileset.total_bytes := fold_left (fun s e => s + e.(Fileset.size)) finalEntries 0;
     Fileset.files := finalEntries;
     Fileset.warnings := warnings |}.

Record UploadResult : Type := {
  filesetId : jsstring;
  manifest : Fileset.Manifest;
  updatedRef : option jsstring;
}.

(** [if (updateRef)]: neither [null] nor the empty string. *)
Definition truthy (updateRef : option jsstring) : option jsstring :=
  match updateRef with
  | Some [] | None => None
  | Some name => Some name
  end.

(** [await cas.storeFilesetManifest(filesetId, manifest)] *)
Definition storeManifest (m : Fileset.Manifest) : M unit :=
  fun cas => (storeFilesetManifest m.(Fileset.fileset_id) m cas, Ok tt).

(** [await cas.writeRef(updateRef, filesetId)] *)
Definition updateRefTo `{Runtime} (name filesetId : jsstring) : M unit :=
  fun cas =>
    match writeRef name filesetId cas with
    | (cas', None) => (cas', Ok tt)
    | (cas', Some e) => (cas', Err e)
    end.

(** The two writes that end a successful ingest. *)
Definition commitFileset `{Runtime} (m : Fileset.Manifest)
    (updateRef : option jsstring) : M unit :=
  _ ← storeManifest m;
  match truthy updateRef with
  | Some name => updateRefTo name m.(Fileset.fileset_id)
  | None => mret tt
  end.

Definition uploadZipAsFileset `{Runtime} (req : list Z)
    (updateRef : option jsstring) (limits : UploadLimits) : M UploadResult :=
  let tee := Spool.teeToSpool req limits.(maxZipBytes) in
  let zr := ZipStream.newQueue tee.(Spool.pass) in
  st ← streamingPhase (turnsFor limits) limits
         {| zr := zr; processed := ∅; entryCount := 0; totalBytes := 0;
            warnings := [] |};
  spool ← lift tee.(Spool.spoolDone);
  cd ← lift (CentralDirectory.readCentralDirectory spool);
  let warnings := st.(warnings) ++ cd.(CentralDirectory.warnings) in
  rs ← reconcile spool limits cd.(CentralDirectory.entries)
         {| reconProcessed := st.(processed);
            final := {| finalEntries := []; seenPaths := ∅;
                        finalWarnings := warnings |} |};
  let finalEntries := sort byPath rs.(final).(finalEntries) in
  let m := makeManifest finalEntries rs.(final).(finalWarnings) in
  _ ← commitFileset m updateRef;
  mret {| filesetId := m.(Fileset.fileset_id); manifest := m;
          updatedRef := updateRef |}.

End Upload.

(* ================================================================== *)
(** * The request handler (server.ts, docs/serve.ts) *)
(* ================================================================== *)

Module Server.
Import JS Cas CasFs.

(** [hay.includes(needle)] *)
Fixpoint includes (needle hay : jsstring) : bool :=
  startsWith needle hay
  || match hay with
     | [] => false
     | _ :: hay' => includes needle hay'
     end.

(** What the handler reads of a request: the method, [url.pathname], the
    query parameter [update_ref], four headers ([None] where the header is
    absent) and the body. *)
Record Request : Type := {
  method : jsstring;
  path : jsstring;
  update_ref : option jsstring;
  content_type : option jsstring;
  accept : option jsstring;
  if_none_match : option jsstring;
  accept_encoding : option jsstring;
  body : list Z;
}.

Inductive Payload : Type :=
  | NoBody
  | Text (s : jsstring)
  | JsonManifest (m : Fileset.Manifest)
  | JsonUpload (r : Upload.UploadResult)
  | ObjectStream (obj : ReadStream)
  | OpenApiYaml
  | OpenApiJson
  | ApiDocsHtml.

(** A header value: a literal, or [Buffer.byteLength(body).toString()]. *)
Inductive HeaderValue : Type :=
  | Lit (s : jsstring)
  | ByteLengthOfBody.

Record Response : Type := {
  status : Z;
  headers : list (jsstring * HeaderValue);
  payload : Payload;
}.

Definition sendText (status : Z) (body : jsstring)
    (headers : list (jsstring * HeaderValue)) : Response :=
  {| status := status;
     headers := [(str "content-type", Lit (str "text/plain; charset=utf-8"));
                 (str "content-length", ByteLengthOfBody)] ++ headers;
     payload := Text body |}.

Definition sendJson (status : Z) (obj : Payload)
    (headers : list (jsstring * HeaderValue)) : Response :=
  {| status := status;
     headers := [(str "content-type", Lit (str "application/json; charset=utf-8"));
                 (str "content-length", ByteLengthOfBody)] ++ headers;
     payload := obj |}.

Definition docsHeaders (contentType : string) : list (jsstring * HeaderValue) :=
  [(str "content-type", Lit (str contentType));
   (str "content-length", ByteLengthOfBody);
   (str "cache-control", Lit (str "no-store"))].

(** [serveOpenApi(req, res, path)]: the response it sent, [None] for
    [false]. *)
Definition serveOpenApi (req : Request) : option Response :=
  if negb (streq req.(method) (str "GET")) then None
  else if streq req.(path) (str "/openapi.yaml") then
    Some {| status := 200;
            headers := docsHeaders "application/yaml; charset=utf-8";
            payload := OpenApiYaml |}
  else if streq req.(path) (str "/openapi.json") then
    Some {| status := 200;
            headers := docsHeaders "application/json; charset=utf-8";
            payload := OpenApiJson |}
  else None.

Definition serveApiDocsHtml (req : Request) : option Response :=
  if streq req.(method) (str "GET") && streq req.(path) (str "/apidocs") then
    Some {| status := 200;
            headers := docsHeaders "text/html; charset=utf-8";
            payload := ApiDocsHtml |}
  else None.

(** [path.split('/')[2] ?? ''] *)
Definition segment2 (path : jsstring) : jsstring :=
  default [] (split SLASH path !! 2%nat).

(** ["sha256:<id>" in double quotes] *)
Definition etagOf (id : jsstring) : jsstring :=
  [34%N] ++ str "sha256:" ++ id ++ [34%N].

Definition serverLimits : Upload.UploadLimits :=
  {| Upload.maxEntries := 8000;
     Upload.maxFileBytes := 500 * 1024 * 1024;
     Upload.maxTotalBytes := 2 * 1024 * 1024 * 1024;
     Upload.maxZipBytes := 300 * 1024 * 1024 |}.

Definition internalServerError : Response :=
  sendText 500 (str "Internal Server Error") [].

(** The branch [POST /filesets]. *)
Definition postFilesets `{Runtime} (req : Request) (cas : CasStore)
  : CasStore * Response :=
  let ct := default [] req.(content_type) in
  if negb (includes (str "application/zip") ct) then
    (cas, sendText 415 (str "Expected Content-Type: application/zip") [])
  else
    let updateRef := default (str "latest") req.(update_ref) in
    match Upload.uploadZipAsFileset req.(body)
            (if streq updateRef [] then None else Some updateRef)
            serverLimits cas with
    | (cas', Err _) => (cas', internalServerError)
    | (cas', Ok result) =>
        let accept := default (str "application/json") req.(accept) in
        let location :=
          (str "location", Lit (str "/filesets/" ++ result.(Upload.filesetId))) in
        if includes (str "application/json") accept || includes (str "*/*") accept
        then (cas', sendJson 201 (JsonUpload result) [location])
        else (cas', sendText 201 result.(Upload.filesetId) [location])
    end.

(** The branch [GET /objects/...].  The head of the 200 is written before
    the stream is piped; when the stream does not open, its ['error'] has no
    listener: the process ends and the head is never flushed. *)
Definition getObject `{Runtime} (req : Request) (cas : CasStore) : Response :=
  let sha := segment2 req.(path) in
  if streq sha [] then sendText 400 (str "Missing object id") [] else
  let etag := etagOf sha in
  let inm := default [] req.(if_none_match) in
  if negb (streq inm [])
     && bool_decide (etag ∈ map trim (split COMMA inm))
  then {| status := 304; headers := [(str "etag", Lit etag)]; payload := NoBody |}
  else
    let ae := default [] req.(accept_encoding) in
    if negb (streq ae []) && negb (includes (str "br") ae)
       && negb (includes (str "*") ae)
    then sendText 406 (str "Not Acceptable (need br)") []
    else
      match openObjectStream sha cas with
      | None => sendText 404 (str "Not found") []
      | Some obj =>
          {| status := 200;
             headers := [(str "content-type", Lit (str "application/octet-stream"));
                         (str "content-encoding", Lit (str "br"));
                         (str "etag", Lit etag);
                         (str "cache-control",
                          Lit (str "public, max-age=31536000, immutable"))];
             payload := ObjectStream obj |}
      end.

(** The callback of [http.createServer]: the store after the request and
    the response sent. *)
Definition server `{Runtime} (req : Request) (cas : CasStore)
  : CasStore * Response :=
  match serveOpenApi req with
  | Some res => (cas, res)
  | None =>
  match serveApiDocsHtml req with
  | Some res => (cas, res)
  | None =>
  let method := req.(method) in
  let path := req.(path) in
  if streq method (str "GET") && streq path (str "/health") then
    (cas, sendText 200 (str "ok") [])
  else if streq method (str "POST") && streq path (str "/filesets") then
    postFilesets req cas
  else if streq method (str "GET") && startsWith (str "/filesets/") path then
    let id := segment2 path in
    if streq id [] then (cas, sendText 400 (str "Missing fileset id") []) else
    match loadFilesetManifest id cas with
    | None => (cas, sendText 404 (str "Not found") [])
    | Some manifest =>
        (cas, sendJson 200 (JsonManifest manifest) [(str "etag", Lit (etagOf id))])
    end
  else if streq method (str "GET") && startsWith (str "/objects/") path then
    (cas, getObject req cas)
  else if streq method (str "GET") && startsWith (str "/refs/") path then
    let name := segment2 path in
    if streq name [] then (cas, sendText 400 (str "Missing ref name") []) else
    match readRef name cas with
    | None | Some [] => (cas, sendText 404 (str "Not found") [])
    | Some v => (cas, sendText 200 v [])
    end
  else (cas, sendText 404 (str "Not found") [])
  end end.

End Server.

(* ================================================================== *)
(** * A runtime and archives to run the model on *)
(* ================================================================== *)

Module Reference.
Import JS.

(** ** Collation

    [localeCompare] as the host's collation orders 7-bit strings of
    letters: by letter first, and between strings with the same letters
    lower case before upper case.  Each string gets a sort key (the letters,
    a terminator, the cases) and keys compare unit by unit. *)

Definition isUpper (c : N) : bool := ((65 <=? c) && (c <=? 90))%N.

Definition letterOf (c : N) : N := (if isUpper c then c + 33 else c + 1)%N.

Definition caseOf (c : N) : N := (if isUpper c then 1 else 0)%N.

Definition sortKey (s : jsstring) : list N :=
  map letterOf s ++ [0%N] ++ map caseOf s.

Definition collate (a b : jsstring) : Z :=
  match compareUnits (sortKey a) (sortKey b) with
  | Lt => -1
  | Eq => 0
  | Gt => 1
  end.

(** ** The other fields

    The archives below are stored (method 0) with 7-bit names, and nothing
    proved on them reads the value of a digest: the digest is stood in for
    by the hexadecimal spelling of its input, and the DEFLATE decoder and
    the wide codecs reject or pass through. *)

Definition hexDigit (n : Z) : N := Z.to_N (if n <? 10 then 48 + n else 87 + n).

Definition hexOf (bs : list Z) : jsstring :=
  flat_map (fun b => [hexDigit (b / 16 mod 16); hexDigit (b mod 16)]) bs.

#[export] Instance runtime : Runtime := {|
  sha256hex := hexOf;
  inflateRaw := fun _ => None;
  inflateRawUnknown := fun _ => None;
  utf8DecodeWide := Buf.toString_latin1;
  shiftJisDecodeWide := fun _ => None;
  utf8EncodeWide := map Z.of_N;
  localeCompare := collate;
  createReadStreamThrows := fun _ => false;
  requestChunks := fun body => [length body];
  refNameRefused := fun _ => None;
  writeRefElsewhere := fun _ _ cas => (cas, Some ENOENT);
|}.

(** ** A DEFLATE decoder for one stored block

    The final block of type 00: the byte 1, the length and its complement
    as 16-bit little-endian values, and the data.  The decoded bytes and the
    length of the block. *)
Definition inflateStored (bs : list Z) : option (list Z * nat) :=
  match bs with
  | 1 :: l0 :: l1 :: n0 :: n1 :: data =>
      let len := l0 + 256 * l1 in
      if (n0 + 256 * n1 =? 65535 - len) && (len <=? Z.of_nat (length data))
      then Some (take (Z.to_nat len) data, (5 + Z.to_nat len)%nat)
      else None
  | _ => None
  end.

(** The runtime above with that decoder.  The stream of [streamUnknown]
    has drawn the block and [ahead] bytes more, or all there was. *)
Definition withInflate (ahead : Z) : Runtime := {|
  sha256hex := hexOf;
  inflateRaw := fun bs => fst <$> inflateStored bs;
  inflateRawUnknown := fun pending =>
    '(raw, used) ← inflateStored pending;
    Some (raw, Nat.min (length pending) (used + Z.to_nat ahead));
  utf8DecodeWide := Buf.toString_latin1;
  shiftJisDecodeWide := fun _ => None;
  utf8EncodeWide := map Z.of_N;
  localeCompare := collate;
  createReadStreamThrows := fun _ => false;
  requestChunks := fun body => [length body];
  refNameRefused := fun _ => None;
  writeRefElsewhere := fun _ _ cas => (cas, Some ENOENT);
|}.

(** ** Archives *)

Definition le16 (n : Z) : list Z := [n mod 256; n / 256 mod 256].

Definition le32 (n : Z) : list Z :=
  [n mod 256; n / 256 mod 256; n / 65536 mod 256; n / 16777216 mod 256].

Definition bytesOf (s : string) : list Z := map Z.of_N (str s).

(** A member: its name, its content, whether its sizes and checksum
    follow the data in a data descriptor (flag bit 3) instead of standing
    in the local header, and whether its data are deflated (method 8, as
    one stored block) or stored (method 0).  Names are flagged UTF-8
    (bit 11). *)
Record Member : Type := {
  name : string;
  content : string;
  hasDescriptor : bool;
  deflated : bool;
}.

Definition memberFlags (m : Member) : Z :=
  2048 + (if m.(hasDescriptor) then 8 else 0).

Definition memberMethod (m : Member) : Z := if m.(deflated) then 8 else 0.

(** The DEFLATE data of [data] as one stored block. *)
Definition deflateStored (data : list Z) : list Z :=
  let n := Z.of_nat (length data) in
  1 :: le16 n ++ le16 (65535 - n) ++ data.

(** The data of a member as they stand in the archive. *)
Definition memberData (m : Member) : list Z :=
  let data := bytesOf m.(content) in
  if m.(deflated) then deflateStored data else data.

Definition localRecord (m : Member) : list Z :=
  let data := bytesOf m.(content) in
  let crc := Crc32.crc32Update 0 data in
  let n := Z.of_nat (length data) in
  let c := Z.of_nat (length (memberData m)) in
  let dd := m.(hasDescriptor) in
  le32 0x04034b50 ++ le16 20 ++ le16 (memberFlags m) ++ le16 (memberMethod m)
  ++ le16 0 ++ le16 0
  ++ le32 (if dd then 0 else crc) ++ le32 (if dd then 0 else c)
  ++ le32 (if dd then 0 else n)
  ++ le16 (Z.of_nat (length (bytesOf m.(name)))) ++ le16 0 ++ bytesOf m.(name)
  ++ memberData m
  ++ (if dd then le32 0x08074b50 ++ le32 crc ++ le32 c ++ le32 n else []).

Definition centralRecord (m : Member) (offset : Z) : list Z :=
  let data := bytesOf m.(content) in
  let crc := Crc32.crc32Update 0 data in
  let n := Z.of_nat (length data) in
  let c := Z.of_nat (length (memberData m)) in
  le32 0x02014b50 ++ le16 20 ++ le16 20 ++ le16 (memberFlags m)
  ++ le16 (memberMethod m)
  ++ le16 0 ++ le16 0 ++ le32 crc ++ le32 c ++ le32 n
  ++ le16 (Z.of_nat (length (bytesOf m.(name)))) ++ le16 0 ++ le16 0 ++ le16 0
  ++ le16 0 ++ le32 0 ++ le32 offset ++ bytesOf m.(name).

Fixpoint layout (ms : list Member) (offset : Z) : list Z * list Z :=
  match ms with
  | [] => ([], [])
  | m :: ms' =>
      let l := localRecord m in
      let '(ls, cs) := layout ms' (offset + Z.of_nat (length l)) in
      (l ++ ls, centralRecord m offset ++ cs)
  end.

Definition endRecord (count cdSize cdOffset : Z) : list Z :=
  le32 0x06054b50 ++ le16 0 ++ le16 0 ++ le16 count ++ le16 count
  ++ le32 cdSize ++ le32 cdOffset ++ le16 0.

(** The archive of the members, in order: local records, central
    directory, end record. *)
Definition archive (ms : list Member) : list Z :=
  let '(ls, cs) := layout ms 0 in
  ls ++ cs
  ++ endRecord (Z.of_nat (length ms)) (Z.of_nat (length cs)) (Z.of_nat (length ls)).

Definition stored (name content : string) : Member :=
  {| name := name; content := content; hasDescriptor := false;
     deflated := false |}.

Definition storedWithDescriptor (name content : string) : Member :=
  {| name := name; content := content; hasDescriptor := true;
     deflated := false |}.

Definition deflatedWithDescriptor (name content : string) : Member :=
  {| name := name; content := content; hasDescriptor := true;
     deflated := true |}.

Definition limits : Upload.UploadLimits :=
  {| Upload.maxEntries := 100;
     Upload.maxFileBytes := 1000;
     Upload.maxTotalBytes := 2000;
     Upload.maxZipBytes := 5000 |}.

(** A body that is one local record and its data: the member "a" holds the
    byte "x", and the header advertises size 5 and checksum 1. *)
Definition mismatchedLocalHeader : list Z :=
  le32 0x04034b50 ++ le16 20 ++ le16 2048 ++ le16 0 ++ le16 0 ++ le16 0
  ++ le32 1 ++ le32 1 ++ le32 5 ++ le16 1 ++ le16 0 ++ bytesOf "a"
  ++ bytesOf "x".

(** [GET /objects/abc] with [If-None-Match: W/"x" , "sha256:abc"]. *)
Definition conditionalRequest : Server.Request :=
  {| Server.method := str "GET";
     Server.path := str "/objects/abc";
     Server.update_ref := None;
     Server.content_type := None;
     Server.accept := None;
     Server.if_none_match :=
       Some (str "W/" ++ [34%N; 120%N; 34%N] ++ str " , "
             ++ [34%N] ++ str "sha256:abc" ++ [34%N]);
     Server.accept_encoding := None;
     Server.body := [] |}.

(** ** The archive of one stored member, "hello.txt", and its turn of the
    streaming loop *)

Definition helloArchive : list Z := archive [stored "hello.txt" "hello"].

Definition helloHeader : ZipStream.ZipEntryHeader :=
  {| ZipStream.localHeaderOffset := 0;
     ZipStream.fileNameBytes := bytesOf "hello.txt";
     ZipStream.extra := [];
     ZipStream.method := 0;
     ZipStream.flags := 2048;
     ZipStream.compressedSize := 5;
     ZipStream.uncompressedSize := 5;
     ZipStream.crc32 := Crc32.crc32Update 0 (bytesOf "hello") |}.

(** The central directory of that archive: one record of 55 bytes. *)
Definition helloDirectory : list Z :=
  centralRecord (stored "hello.txt" "hello") 0.

(** The reader after the header (39 bytes) and after the data (44). *)
Definition helloQueue (consumed : nat) : ZipStream.AsyncByteQueue :=
  {| ZipStream.pending := drop consumed helloArchive;
     ZipStream.consumedTotal := Z.of_nat consumed;
     ZipStream.discarding := false |}.

Definition helloState : Upload.StreamState :=
  {| Upload.zr := helloQueue 39;
     Upload.processed := ∅;
     Upload.entryCount := 0;
     Upload.totalBytes := 0;
     Upload.warnings := [] |}.

Definition helloResult : Upload.StreamResult :=
  {| Upload.sha256 := hexOf (bytesOf "hello");
     Upload.size := 5;
     Upload.crc32 := Crc32.crc32Update 0 (bytesOf "hello") |}.

Definition helloStore : Cas.CasStore :=
  Cas.commitTempObject (hexOf (bytesOf "hello")) Cas.emptyStore.

(** ** Archives for the properties *)

(** No member: the end record alone. *)
Definition emptyArchive : list Z := archive [].

(** Two members whose names the collation and the code units order
    differently. *)
Definition mixedCaseArchive : list Z := archive [stored "B" "1"; stored "a" "2"].

(** Two members that normalise to the same path. *)
Definition duplicateArchive : list Z :=
  archive [stored "dup.txt" "1"; stored "./dup.txt" "2"].

(** Two members, the first stored with a data descriptor. *)
Definition descriptorFirstArchive : list Z :=
  archive [storedWithDescriptor "a" "x"; stored "b" "yy"].

Definition oneEntry : Upload.UploadLimits :=
  {| Upload.maxEntries := 1;
     Upload.maxFileBytes := 1000;
     Upload.maxTotalBytes := 2000;
     Upload.maxZipBytes := 5000 |}.

(** ** Requests and a descriptor for the properties *)

(** [GET /objects/<digest of "hello">] with no header. *)
Definition objectRequest : Server.Request :=
  {| Server.method := str "GET";
     Server.path := str "/objects/" ++ hexOf (bytesOf "hello");
     Server.update_ref := None;
     Server.content_type := None;
     Server.accept := None;
     Server.if_none_match := None;
     Server.accept_encoding := None;
     Server.body := [] |}.

(** [POST /filesets] with the archive of "hello.txt" for body and no
    [update_ref]: the ref "latest" is written. *)
Definition uploadRequest : Server.Request :=
  {| Server.method := str "POST";
     Server.path := str "/filesets";
     Server.update_ref := None;
     Server.content_type := Some (str "application/zip");
     Server.accept := None;
     Server.if_none_match := None;
     Server.accept_encoding := None;
     Server.body := helloArchive |}.

(** [GET /refs/latest] with no header. *)
Definition refRequest : Server.Request :=
  {| Server.method := str "GET";
     Server.path := str "/refs/latest";
     Server.update_ref := None;
     Server.content_type := None;
     Server.accept := None;
     Server.if_none_match := None;
     Server.accept_encoding := None;
     Server.body := [] |}.

(** ** A member that is deflated with a data descriptor

    The archive of the one member "d", content "x": the local header (31
    bytes), the DEFLATE data (6), the descriptor (16), the central record
    (47) and the end record (22). *)
Definition deflatedArchive : list Z := archive [deflatedWithDescriptor "d" "x"].

Definition deflatedHeader : ZipStream.ZipEntryHeader :=
  {| ZipStream.localHeaderOffset := 0;
     ZipStream.fileNameBytes := bytesOf "d";
     ZipStream.extra := [];
     ZipStream.method := 8;
     ZipStream.flags := 2056;
     ZipStream.compressedSize := 0;
     ZipStream.uncompressedSize := 0;
     ZipStream.crc32 := 0 |}.

(** The streaming loop after that header. *)
Definition deflatedState : Upload.StreamState :=
  {| Upload.zr := {| ZipStream.pending := drop 31 deflatedArchive;
                     ZipStream.consumedTotal := 31;
                     ZipStream.discarding := false |};
     Upload.processed := ∅;
     Upload.entryCount := 0;
     Upload.totalBytes := 0;
     Upload.warnings := [] |}.

(** What the processor returns for "x", and the store that holds its
    object. *)
Definition xResult : Upload.StreamResult :=
  {| Upload.sha256 := hexOf (bytesOf "x");
     Upload.size := 1;
     Upload.crc32 := Crc32.crc32Update 0 (bytesOf "x") |}.

Definition xStore : Cas.CasStore :=
  Cas.commitTempObject (hexOf (bytesOf "x")) Cas.emptyStore.

(** The reader [n] bytes into that archive. *)
Definition deflatedQueue (n : nat) : ZipStream.AsyncByteQueue :=
  {| ZipStream.pending := drop n deflatedArchive;
     ZipStream.consumedTotal := Z.of_nat n;
     ZipStream.discarding := false |}.

(** A body that goes on: the local record of that member, descriptor
    included (53 bytes), and 20000 bytes "A" after it. *)
Definition deflatedLongBody : list Z :=
  localRecord (deflatedWithDescriptor "d" "x") ++ replicate (Z.to_nat 20000) 65.

(** The reader [n] bytes into that body, and the streaming loop after the
    header. *)
Definition deflatedLongQueue (n : Z) : ZipStream.AsyncByteQueue :=
  {| ZipStream.pending := drop (Z.to_nat n) deflatedLongBody;
     ZipStream.consumedTotal := n;
     ZipStream.discarding := false |}.

Definition deflatedLongState : Upload.StreamState :=
  {| Upload.zr := deflatedLongQueue 31;
     Upload.processed := ∅;
     Upload.entryCount := 0;
     Upload.totalBytes := 0;
     Upload.warnings := [] |}.

(** A reader that stands before a data descriptor with its signature:
    checksum 1, sizes 2 and 3. *)
Definition descriptorQueue : ZipStream.AsyncByteQueue :=
  ZipStream.newQueue (le32 0x08074b50 ++ le32 1 ++ le32 2 ++ le32 3).

End Reference.

(* ================================================================== *)
(** * Vocabulary of the properties *)
(* ================================================================== *)

Module Props.
Import JS.

(** A computation that cannot raise [bad]. *)
Definition cannotRaise {A : Type} (bad : error) (r : result A) : Prop :=
  r <> Err bad.

(** The parts [normalizeZipPath] keeps: neither empty nor ".". *)
Definition keepPart (part : jsstring) : bool :=
  negb (streq part [] || streq part (str ".")).

(** The 32-bit little-endian value at [i] is the end-record signature. *)
Definition signatureAt (buf : list Z) (i : nat) : Prop :=
  Buf.le (take 4 (drop i buf)) = CentralDirectory.EOCD_SIG.

(** A file that is the signature and nothing else. *)
Definition signatureOnly : list Z := [0x50; 0x4b; 0x05; 0x06].

(** A file of 65558 bytes: the signature, then zeros. *)
Definition signatureThenZeros : list Z :=
  [0x50; 0x4b; 0x05; 0x06] ++ replicate (Z.to_nat 65554) 0.

(** ** The final entries *)

(** [recordFinal] over resolved entries, in order. *)
Definition recordAll (resolved : list (jsstring * Upload.StreamResult))
    (fs : Upload.FinalState) : Upload.FinalState :=
  fold_left (fun fs nr => Upload.recordFinal nr.1 nr.2 fs) resolved fs.

(** [seenPaths] is the index of [finalEntries] by path. *)
Definition indexed (fs : Upload.FinalState) : Prop :=
  forall p i,
    fs.(Upload.seenPaths) !! p = Some i
    <-> exists e, fs.(Upload.finalEntries) !! i = Some e /\ e.(Fileset.path) = p.

Definition pathsOf (fs : Upload.FinalState) : list jsstring :=
  map Fileset.path fs.(Upload.finalEntries).

(** The state the reconciliation starts from. *)
Definition emptyFinal (warnings : list jsstring) : Upload.FinalState :=
  {| Upload.finalEntries := []; Upload.seenPaths := ∅;
     Upload.finalWarnings := warnings |}.

(** How many times [x] stands in [l]. *)
Definition occurrences {A : Type} `{EqDecision A} (x : A) (l : list A) : nat :=
  length (filter (fun y => y = x) l).

(** ** The ingest *)

Section Ingest.
Import Cas Upload.

(** An effect that writes neither a manifest nor a ref. *)
Definition writesObjectsOnly {A : Type} (m : Upload.M A) : Prop :=
  forall cas cas' r, m cas = (cas', r) ->
                     cas'.(filesets) = cas.(filesets) /\ cas'.(refs) = cas.(refs).

(** The entries of the central directory that reach the duplicate check,
    in order, each with its normalised path and result, and [processed] as
    the loop leaves it. *)
Fixpoint resolveAll `{Runtime} (zipFile : list Z) (limits : UploadLimits)
    (entries : list CentralDirectory.CentralEntry)
    (processed : gmap jsstring StreamResult)
  : M (list (jsstring * StreamResult) * gmap jsstring StreamResult) :=
  match entries with
  | [] => mret ([], processed)
  | e :: rest =>
      '(resolved, processed) ← resolveEntry zipFile limits e processed;
      '(more, processed) ← resolveAll zipFile limits rest processed;
      mret (match resolved with Some nr => nr :: more | None => more end, processed)
  end.

(** The state the streaming loop starts from. *)
Definition initialStream (pass : list Z) : StreamState :=
  {| zr := ZipStream.newQueue pass; processed := ∅; entryCount := 0;
     totalBytes := 0; warnings := [] |}.

End Ingest.

(** A warning of the streaming loop. *)
Definition isDeferred (w : jsstring) : Prop :=
  exists off, w = Upload.deferredWarning off.

(** The paths of the manifest of an ingest, in order; none when it
    failed. *)
Definition manifestPaths (outcome : Cas.CasStore * result Upload.UploadResult)
  : list jsstring :=
  match outcome.2 with
  | Ok res => map Fileset.path res.(Upload.manifest).(Fileset.files)
  | Err _ => []
  end.

(** Every ref points at a manifest that is stored. *)
Definition refsResolve (cas : Cas.CasStore) : Prop :=
  forall name id,
    cas.(Cas.refs) !! name = Some id -> is_Some (cas.(Cas.filesets) !! id).

Section Prepare.
Import Cas Upload.

(** The ingest up to its commit: the manifest it is about to store, or the
    error that ended it; the store has changed in its objects only. *)
Definition prepare `{Runtime} (req : list Z) (limits : UploadLimits) : Upload.M Fileset.Manifest :=
  let tee := Spool.teeToSpool req limits.(maxZipBytes) in
  st ← streamingPhase (turnsFor limits) limits (initialStream tee.(Spool.pass));
  spool ← lift tee.(Spool.spoolDone);
  cd ← lift (CentralDirectory.readCentralDirectory spool);
  rs ← reconcile spool limits cd.(CentralDirectory.entries)
         {| reconProcessed := st.(processed);
            final := emptyFinal (st.(warnings) ++ cd.(CentralDirectory.warnings)) |};
  mret (makeManifest (sort byPath rs.(final).(finalEntries))
          rs.(final).(finalWarnings)).

End Prepare.

(** The limits with another cap on the number of entries. *)
Definition withMaxEntries (n : Z) (limits : Upload.UploadLimits) : Upload.UploadLimits :=
  {| Upload.maxEntries := n;
     Upload.maxFileBytes := limits.(Upload.maxFileBytes);
     Upload.maxTotalBytes := limits.(Upload.maxTotalBytes);
     Upload.maxZipBytes := limits.(Upload.maxZipBytes) |}.

(** Two effects that run alike on every store. *)
Definition sameRun {A : Type} (m m' : Upload.M A) : Prop := forall cas, m cas = m' cas.

(** A buffer holds bytes. *)
Definition bytes (buf : list Z) : Prop := Forall (fun b => 0 <= b < 256) buf.

(** The turns that cover a loop advancing by [step] at least from [off]. *)
Definition covers (step : Z) (buf : list Z) (off : Z) (fuel : nat) : Prop :=
  Z.of_nat (length buf) - off < step * (Z.of_nat fuel + 1).

(** ** The store and the central directory *)

(** An effect that removes no object. *)
Definition keepsObjects {A : Type} (m : Upload.M A) : Prop :=
  forall cas cas' r, m cas = (cas', r) -> cas.(Cas.objects) ⊆ cas'.(Cas.objects).

(** Every result of the map names an object of the store. *)
Definition allStored (processed : gmap jsstring Upload.StreamResult)
    (cas : Cas.CasStore) : Prop :=
  map_Forall (fun _ r => r.(Upload.sha256) ∈ cas.(Cas.objects)) processed.

(** A central-directory entry that the reconciliation records under [p]. *)
Definition recordedAs (e : CentralDirectory.CentralEntry) (p : jsstring) : Prop :=
  e.(CentralDirectory.isDirectory) = false
  /\ ZipPath.normalizeZipPath e.(CentralDirectory.fileName) = Ok p
  /\ p <> [].

(** Whether the reconciliation records a central-directory entry: it is
    no directory and its name normalises to a path that is not empty. *)
Definition recorded (e : CentralDirectory.CentralEntry) : bool :=
  negb e.(CentralDirectory.isDirectory)
  && match ZipPath.normalizeZipPath e.(CentralDirectory.fileName) with
     | Ok p => negb (streq p [])
     | Err _ => false
     end.

(** A recorded entry of the central directory and what it resolved to: the
    path is the normalised name, the result has the size and the checksum
    of the entry. *)
Definition resolvedFrom (e : CentralDirectory.CentralEntry)
    (nr : jsstring * Upload.StreamResult) : Prop :=
  ZipPath.normalizeZipPath e.(CentralDirectory.fileName) = Ok nr.1
  /\ nr.2.(Upload.size) = e.(CentralDirectory.uncompressedSize)
  /\ nr.2.(Upload.crc32) = e.(CentralDirectory.crc32).

(** Characters that a URL shows as they are in a segment of its path:
    digits, letters, "-", "." and "_". *)
Definition unreserved (c : N) : bool :=
  ((48 <=? c) && (c <=? 57) || (65 <=? c) && (c <=? 90)
   || (97 <=? c) && (c <=? 122) || (c =? 45) || (c =? 46) || (c =? 95))%N.

(** A string that [url.pathname] shows unchanged as one segment: plain,
    and of such characters. *)
Definition pathSegment (s : jsstring) : Prop :=
  Cas.plainName s = true /\ Forall (fun c => unreserved c = true) s.

(** A component a normalised path is made of. *)
Definition safePart (part : jsstring) : Prop :=
  (part <> []) /\ (part <> str ".") /\ (part <> str "..")
  /\ (SLASH ∉ part) /\ (BACKSLASH ∉ part) /\ (NUL ∉ part).

(** The limits with the cap on one file kept and the others at zero. *)
Definition fileCapOnly (limits : Upload.UploadLimits) : Upload.UploadLimits :=
  {| Upload.maxEntries := 0;
     Upload.maxFileBytes := limits.(Upload.maxFileBytes);
     Upload.maxTotalBytes := 0;
     Upload.maxZipBytes := 0 |}.

(** The limits with another cap on the total of the files. *)
Definition withMaxTotalBytes (n : Z) (limits : Upload.UploadLimits)
  : Upload.UploadLimits :=
  {| Upload.maxEntries := limits.(Upload.maxEntries);
     Upload.maxFileBytes := limits.(Upload.maxFileBytes);
     Upload.maxTotalBytes := n;
     Upload.maxZipBytes := limits.(Upload.maxZipBytes) |}.

(** The limits with another cap on the body. *)
Definition withMaxZipBytes (n : Z) (limits : Upload.UploadLimits)
  : Upload.UploadLimits :=
  {| Upload.maxEntries := limits.(Upload.maxEntries);
     Upload.maxFileBytes := limits.(Upload.maxFileBytes);
     Upload.maxTotalBytes := limits.(Upload.maxTotalBytes);
     Upload.maxZipBytes := n |}.

(** The errors of the central directory reader. *)
Definition centralError (e : error) : Prop :=
  e = EOCD_not_found \/ e = Zip64_EOCD_not_found
  \/ e = Zip64_usize_missing_in_central \/ e = Zip64_csize_missing_in_central
  \/ e = Zip64_offset_missing_in_central \/ e = ERR_OUT_OF_RANGE.

End Props.

(* ================================================================== *)
(** * Strings *)
(* ================================================================== *)

Module JSFacts.
Import JS.

Lemma streq_true s t : streq s t = true <-> s = t.
Proof. unfold streq. apply bool_decide_eq_true. Qed.

Lemma streq_false s t : streq s t = false <-> s <> t.
Proof. unfold streq. apply bool_decide_eq_false. Qed.

End JSFacts.

(* ================================================================== *)
(** * CRC-32: the signed 32-bit loop computes the standard checksum *)
(* ================================================================== *)

Module Crc32Facts.
Import JS Crc32.

(** The check value of CRC-32/ISO-HDLC. *)
Example crc_check : crc32Update 0 (map Z.of_N (str "123456789")) = 0xCBF43926.
Proof. vm_compute. reflexivity. Qed.
Example crc_check_spec : crc32_spec (map Z.of_N (str "123456789")) = 0xCBF43926.
Proof. vm_compute. reflexivity. Qed.

Lemma ToUint32_ToInt32 x : ToUint32 (ToInt32 x) = ToUint32 x.
Proof.
  unfold ToUint32, ToInt32. 
  destruct (2 ^ 31 <=? x mod 2 ^ 32).
  - rewrite <- (Z.mod_mod x (2^32)) at 2 by lia.
    rewrite <- (Z_mod_plus_full (x mod 2^32 - 2^32) 1 (2^32)). f_equal. lia.
  - apply Z.mod_mod. lia.
Qed.

Lemma ToUint32_lxor a b : ToUint32 (Z.lxor a b) = Z.lxor (ToUint32 a) (ToUint32 b).
Proof.
  unfold ToUint32. apply Z.bits_inj'. intros n Hn.
  rewrite Z.lxor_spec, !Z.testbit_mod_pow2, Z.lxor_spec by lia.
  destruct (n <? 32); reflexivity.
Qed.

Lemma ToUint32_bxor a b : ToUint32 (bxor a b) = Z.lxor (ToUint32 a) (ToUint32 b).
Proof.
  unfold bxor. rewrite ToUint32_ToInt32, ToUint32_lxor, !ToUint32_ToInt32. reflexivity.
Qed.

Lemma ToUint32_idem x : ToUint32 (ToUint32 x) = ToUint32 x.
Proof. unfold ToUint32. apply Z.mod_mod. lia. Qed.

Lemma ToUint32_range x : 0 <= ToUint32 x < 2 ^ 32.
Proof. unfold ToUint32. apply Z.mod_pos_bound. lia. Qed.

Lemma ToUint32_small x : 0 <= x < 2 ^ 32 -> ToUint32 x = x.
Proof. intros. unfold ToUint32. apply Z.mod_small. lia. Qed.

Lemma ToInt32_small x : 0 <= x < 2 ^ 31 -> ToInt32 x = x.
Proof.
  intros H. unfold ToInt32. rewrite Z.mod_small by lia.
  destruct (Z.leb_spec (2 ^ 31) x); lia.
Qed.

Lemma low8_ToUint32 x : ToUint32 x mod 2 ^ 8 = x mod 2 ^ 8.
Proof.
  unfold ToUint32. apply Z.bits_inj'. intros n Hn.
  rewrite !Z.testbit_mod_pow2 by lia.
  destruct (Z.ltb_spec n 8); [|reflexivity].
  destruct (Z.ltb_spec n 32); [reflexivity|lia].
Qed.

Lemma low8_ToInt32 x : ToInt32 x mod 2 ^ 8 = x mod 2 ^ 8.
Proof. rewrite <- low8_ToUint32, ToUint32_ToInt32. apply low8_ToUint32. Qed.

Lemma band_0xFF x : band x 0xFF = x mod 2 ^ 8.
Proof.
  unfold band. replace (ToInt32 255) with (Z.ones 8) by reflexivity.
  rewrite Z.land_ones, low8_ToInt32 by lia.
  apply ToInt32_small.
  pose proof (Z.mod_pos_bound x (2 ^ 8)). lia.
Qed.

Lemma low8_lxor a b : Z.lxor a b mod 2 ^ 8 = Z.lxor (a mod 2 ^ 8) (b mod 2 ^ 8).
Proof.
  apply Z.bits_inj'. intros n Hn.
  rewrite Z.lxor_spec, !Z.testbit_mod_pow2, Z.lxor_spec by lia.
  destruct (n <? 8); reflexivity.
Qed.

Lemma ushr_shiftr c n : 0 <= n < 32 -> ushr c n = Z.shiftr (ToUint32 c) n.
Proof. intros. unfold ushr. rewrite Z.mod_small by lia. reflexivity. Qed.

Lemma shiftr_u32 x n : 0 <= n -> 0 <= x < 2 ^ 32 -> 0 <= Z.shiftr x n < 2 ^ 32.
Proof.
  intros Hn Hx. rewrite Z.shiftr_div_pow2 by lia. split.
  - apply Z.div_pos; lia.
  - apply Z.le_lt_trans with x; [|lia]. apply Z.div_le_upper_bound; [lia|].
    assert (1 <= 2 ^ n) by (apply Z.pow_pos_nonneg with (a:=2) in Hn; lia). nia.
Qed.

Lemma lxor_u32 a b : 0 <= a < 2 ^ 32 -> 0 <= b < 2 ^ 32 -> 0 <= Z.lxor a b < 2 ^ 32.
Proof.
  intros Ha Hb. rewrite <- (ToUint32_small a), <- (ToUint32_small b) by lia.
  rewrite <- ToUint32_lxor. apply ToUint32_range.
Qed.

Lemma table_agrees :
  forallb (fun i => (tableAt (Z.of_nat i) =? table_spec (Z.of_nat i))
                    && (0 <=? tableAt (Z.of_nat i)) && (tableAt (Z.of_nat i) <? 2 ^ 32))
          (seq 0 256) = true.
Proof. vm_compute. reflexivity. Qed.

Lemma tableAt_spec i : 0 <= i < 256 -> tableAt i = table_spec i /\ 0 <= tableAt i < 2 ^ 32.
Proof.
  intros Hi. pose proof table_agrees as H. rewrite forallb_forall in H.
  specialize (H (Z.to_nat i)). rewrite Z2Nat.id in H by lia.
  assert (Hin : In (Z.to_nat i) (seq 0 256)) by (apply in_seq; lia).
  apply H in Hin. rewrite !andb_true_iff in Hin. destruct Hin as [[H1 H2] H3].
  apply Z.eqb_eq in H1. apply Z.leb_le in H2. apply Z.ltb_lt in H3. lia.
Qed.

Lemma crcByte_refines c b :
  ToUint32 (crcByte c b) = crcByte_spec (ToUint32 c) b
  /\ 0 <= crcByte_spec (ToUint32 c) b < 2 ^ 32.
Proof.
  unfold crcByte, crcByte_spec.
  assert (Hidx : band (bxor c b) 255 = Z.land (Z.lxor (ToUint32 c) b) 255).
  { rewrite band_0xFF. replace 255 with (Z.ones 8) by reflexivity.
    rewrite Z.land_ones by lia.
    rewrite <- low8_ToUint32, ToUint32_bxor, !low8_lxor, !low8_ToUint32.
    reflexivity. }
  assert (Hr : 0 <= Z.land (Z.lxor (ToUint32 c) b) 255 < 256).
  { replace 255 with (Z.ones 8) by reflexivity. rewrite Z.land_ones by lia.
    apply Z.mod_pos_bound. lia. }
  destruct (tableAt_spec _ Hr) as [Ht Htr].
  pose proof (shiftr_u32 (ToUint32 c) 8 ltac:(lia) (ToUint32_range c)) as Hs.
  rewrite ToUint32_bxor, Hidx, ushr_shiftr by lia.
  rewrite (ToUint32_small (tableAt _)) by lia.
  rewrite (ToUint32_small (Z.shiftr _ _)) by lia.
  rewrite <- Ht. split; [reflexivity|]. apply lxor_u32; lia.
Qed.

Lemma fold_crcByte_refines buf c :
  ToUint32 (fold_left crcByte buf c) = fold_left crcByte_spec buf (ToUint32 c).
Proof.
  revert c. induction buf as [|b buf IH]; intros c; simpl; [reflexivity|].
  rewrite IH. f_equal. apply crcByte_refines.
Qed.

Lemma fold_crcByte_spec_u32 buf c :
  0 <= c < 2 ^ 32 -> 0 <= fold_left crcByte_spec buf c < 2 ^ 32.
Proof.
  revert c. induction buf as [|b buf IH]; intros c Hc; simpl; [lia|].
  apply IH. rewrite <- (ToUint32_small c) by lia. apply crcByte_refines.
Qed.

Lemma crc32Update_unsigned crc buf :
  crc32Update crc buf =
  Z.lxor (fold_left crcByte_spec buf (Z.lxor (ToUint32 crc) 0xFFFFFFFF)) 0xFFFFFFFF.
Proof.
  unfold crc32Update. rewrite ushr_shiftr by lia. rewrite Z.shiftr_0_r.
  rewrite ToUint32_bxor, fold_crcByte_refines, ToUint32_bxor. reflexivity.
Qed.

Lemma crc32Update_u32 crc buf : 0 <= crc32Update crc buf < 2 ^ 32.
Proof.
  rewrite crc32Update_unsigned. apply lxor_u32; [|lia].
  apply fold_crcByte_spec_u32. apply lxor_u32; [apply ToUint32_range|lia].
Qed.

Lemma lxor_twice x m : Z.lxor (Z.lxor x m) m = x.
Proof. rewrite Z.lxor_assoc, Z.lxor_nilpotent, Z.lxor_0_r. reflexivity. Qed.

Lemma crc32Update_app crc a b :
  crc32Update (crc32Update crc a) b = crc32Update crc (a ++ b).
Proof.
  rewrite (crc32Update_unsigned _ b), (crc32Update_unsigned crc (a ++ b)).
  rewrite ToUint32_small by apply crc32Update_u32.
  rewrite crc32Update_unsigned, lxor_twice, fold_left_app. reflexivity.
Qed.

Lemma fold_crc32Update_concat chunks crc :
  0 <= crc < 2 ^ 32 ->
  fold_left crc32Update chunks crc = crc32Update crc (concat chunks).
Proof.
  revert crc. induction chunks as [|ch chunks IH]; intros crc Hc; simpl.
  - rewrite crc32Update_unsigned. simpl. rewrite ToUint32_small, lxor_twice by lia.
    reflexivity.
  - rewrite IH by apply crc32Update_u32. apply crc32Update_app.
Qed.

Lemma land_mask32 x : Z.land x 0xFFFFFFFF = ToUint32 x.
Proof. change 4294967295 with (Z.ones 32). apply Z.land_ones. lia. Qed.

(** C8: folding [crc32Update] over the chunks of any partition of a byte
    sequence, from 0, gives the ZIP/IEEE CRC-32 of the whole sequence as the
    specification defines it. *)
Theorem crc32Update_chunks_standard (chunks : list (list Z)) :
  fold_left crc32Update chunks 0 = crc32_spec (concat chunks).
Proof.
  rewrite fold_crc32Update_concat by lia.
  rewrite crc32Update_unsigned. unfold crc32_spec.
  rewrite land_mask32. symmetry. apply ToUint32_small.
  apply lxor_u32; [|lia]. apply fold_crcByte_spec_u32.
  rewrite ToUint32_small by lia. vm_compute. split; [discriminate|reflexivity].
Qed.

End Crc32Facts.

(* ================================================================== *)
(** * Path normalisation *)
(* ================================================================== *)

Module ZipPathFacts.
Import JS JSFacts ZipPath Props.

Lemma collectParts_spec parts out :
  collectParts parts out =
  if bool_decide (str ".." ∈ parts) then Err Parent_path_not_allowed
  else Ok (out ++ List.filter keepPart parts).
Proof.
  revert out. induction parts as [|part parts IH]; intros out.
  - cbn [collectParts List.filter]. case_bool_decide as Hd; [by inversion Hd|].
    by rewrite app_nil_r.
  - cbn [collectParts List.filter]. unfold keepPart at 1.
    destruct (streq part [] || streq part (str ".")) eqn:Hskip; cbn [negb].
    + assert (part <> str "..").
      { apply orb_true_iff in Hskip as [H|H]; apply streq_true in H; subst; discriminate. }
      rewrite IH. case_bool_decide as H1; case_bool_decide as H2; try done; set_solver.
    + destruct (streq part (str "..")) eqn:Hpp.
      * apply streq_true in Hpp. subst. case_bool_decide; [done|set_solver].
      * apply streq_false in Hpp. rewrite IH.
        case_bool_decide as H1; case_bool_decide as H2; try done; try set_solver.
        by rewrite <- app_assoc.
Qed.

Lemma includesUnit_spec c s : includesUnit c s = true <-> c ∈ s.
Proof.
  unfold includesUnit. rewrite existsb_exists. split.
  - intros (x & Hin & Heq). apply N.eqb_eq in Heq. subst. by apply list_elem_of_In.
  - intros Hin. exists c. split; [by apply list_elem_of_In|apply N.eqb_refl].
Qed.

Lemma stripDotSlash_spec s :
  exists n, s = concat (replicate n (str "./")) ++ stripDotSlash s
            /\ startsWith (str "./") (stripDotSlash s) = false.
Proof.
  induction s as [s IH] using (induction_ltof1 _ (@length N)). unfold ltof in IH.
  destruct s as [|a [|b rest]]; [by exists 0%nat | exists 0%nat; split; [done|] |].
  - cbn. apply andb_false_r.
  - cbn [stripDotSlash]. destruct (N.eqb a DOT && N.eqb b SLASH) eqn:Hab.
    + apply andb_true_iff in Hab as [Ha Hb]. apply N.eqb_eq in Ha, Hb. subst.
      destruct (IH rest) as (n & Heq & Hns); [simpl; lia|].
      exists (S n). split; [|done]. cbn [replicate concat].
      rewrite <- app_assoc. rewrite <- Heq. done.
    + exists 0%nat. split; [done|]. change (str "./") with [DOT; SLASH].
      cbn [startsWith]. rewrite (N.eqb_sym DOT a), (N.eqb_sym SLASH b).
      by rewrite andb_true_r.
Qed.

Lemma split_join c s : join [c] (split c s) = s.
Proof.
  induction s as [|x s IH]; [done|]. cbn [split].
  destruct (N.eqb_spec x c) as [->|Hne].
  - cbn [join]. destruct (split c s) eqn:Hs.
    + destruct s; simpl in Hs; [done|]. destruct (N.eqb n c); [done|].
      by destruct (split c s).
    + cbn. by rewrite <- IH.
  - destruct (split c s) as [|piece pieces] eqn:Hs.
    + destruct s; simpl in Hs; [done|]. destruct (N.eqb n c); [done|].
      by destruct (split c s).
    + rewrite <- IH. destruct pieces; done.
Qed.

Lemma split_no_separator c s part : part ∈ split c s -> c ∉ part.
Proof.
  revert part. induction s as [|x s IH]; intros part Hin; cbn [split] in Hin.
  - apply list_elem_of_singleton in Hin. subst. set_solver.
  - destruct (N.eqb_spec x c) as [->|Hne].
    + apply elem_of_cons in Hin as [->|Hin]; [set_solver|by apply IH].
    + destruct (split c s) as [|piece pieces] eqn:Hs.
      * apply list_elem_of_singleton in Hin. subst. set_solver.
      * apply elem_of_cons in Hin as [->|Hin].
        -- assert (c ∉ piece) by (apply IH; by left). set_solver.
        -- apply IH. by right.
Qed.

(** C6, as amended: [normalizeZipPath] rejects a NUL, then replaces every
    backslash, strips the leading "./" runs, rejects a leading "/", splits
    on "/", rejects a ".." part, drops the empty and "." parts and rejoins
    with "/".  A name that opens with a backslash is therefore rejected as
    absolute; without it the Windows path normalises as the claim has
    it. *)
Theorem normalizeZipPath_steps (p : jsstring) :
  let q := stripDotSlash (replaceAllUnit BACKSLASH SLASH p) in
  let parts := split SLASH q in
  normalizeZipPath p =
    (if bool_decide (NUL ∈ p) then Err Invalid_filename_NUL
     else if startsWith (str "/") q then Err Absolute_paths_not_allowed
     else if bool_decide (str ".." ∈ parts) then Err Parent_path_not_allowed
     else Ok (join (str "/") (List.filter keepPart parts)))
  /\ (exists n, replaceAllUnit BACKSLASH SLASH p = concat (replicate n (str "./")) ++ q
                /\ startsWith (str "./") q = false)
  /\ join (str "/") parts = q
  /\ (forall part, part ∈ parts -> SLASH ∉ part)
  /\ normalizeZipPath (str "\windows\path\z.txt") = Err Absolute_paths_not_allowed
  /\ normalizeZipPath (str "windows\path\z.txt") = Ok (str "windows/path/z.txt")
  /\ normalizeZipPath (str "/abs.txt") = Err Absolute_paths_not_allowed.
Proof.
  intros q parts. split; [|split; [|split; [|split]]].
  - subst parts q. unfold normalizeZipPath.
    destruct (includesUnit NUL p) eqn:Hnul.
    + apply includesUnit_spec in Hnul. by rewrite bool_decide_eq_true_2.
    + rewrite bool_decide_eq_false_2; cycle 1.
      { intros Hin. apply includesUnit_spec in Hin. congruence. }
      cbn [throwIf mbind result_bind].
      destruct (startsWith (str "/") _); [done|].
      rewrite collectParts_spec. by case_bool_decide.
  - apply stripDotSlash_spec.
  - apply split_join.
  - intros part. apply split_no_separator.
  - done.
Qed.

(** C6, the claim as stated fails: the leading backslash becomes a slash,
    and the name is rejected. *)
Lemma normalizeZipPath_leading_backslash :
  normalizeZipPath (str "\windows\path\z.txt") = Err Absolute_paths_not_allowed.
Proof. reflexivity. Qed.

End ZipPathFacts.

(* ================================================================== *)
(** * The central directory reader *)
(* ================================================================== *)

Module CentralDirectoryFacts.
Import JS Buf CentralDirectory Props.

Lemma cannotRaise_Ok {A} bad (a : A) : cannotRaise bad (Ok a).
Proof. done. Qed.

Lemma cannotRaise_Err {A} bad e : e <> bad -> cannotRaise bad (@Err A e).
Proof. intros H Heq. congruence. Qed.

Lemma cannotRaise_bind {A B} bad (m : result A) (f : A -> result B) :
  cannotRaise bad m -> (forall a, m = Ok a -> cannotRaise bad (f a)) ->
  cannotRaise bad (m ≫= f).
Proof.
  unfold cannotRaise. intros Hm Hf. destruct m as [a|e].
  - apply Hf. reflexivity.
  - intros Heq. apply Hm. cbn in Heq. congruence.
Qed.

Lemma cannotRaise_throwIf bad c e : e <> bad -> cannotRaise bad (throwIf c e).
Proof. intros H. unfold throwIf. destruct c; [by apply cannotRaise_Err|done]. Qed.

Lemma readUIntLE_raises w buf off e :
  readUIntLE w buf off = Err e -> e = ERR_OUT_OF_RANGE.
Proof. unfold readUIntLE. case_match; congruence. Qed.

Lemma cannotRaise_readUIntLE bad w buf off :
  bad <> ERR_OUT_OF_RANGE -> cannotRaise bad (readUIntLE w buf off).
Proof. intros H Heq. apply readUIntLE_raises in Heq. congruence. Qed.

Lemma cannotRaise_allocRead bad file len pos :
  bad <> ERR_OUT_OF_RANGE -> cannotRaise bad (allocRead file len pos).
Proof. intros H. unfold allocRead. repeat case_match; try done; by apply cannotRaise_Err. Qed.

Ltac cannot_raise_using leaf :=
  repeat first
    [ leaf
    | apply cannotRaise_Ok
    | apply cannotRaise_Err; congruence
    | apply cannotRaise_throwIf; congruence
    | apply cannotRaise_readUIntLE; congruence
    | apply cannotRaise_allocRead; congruence
    | apply cannotRaise_bind; [|intros ? ?]
    | match goal with
      | |- cannotRaise _ (match ?x with _ => _ end) => destruct x
      | |- cannotRaise _ (let '(_, _) := ?x in _) => destruct x
      end
    | progress unfold u16, u32, u64, readUInt8, readUInt16LE, readUInt32LE, readBigUInt64LE
    | assumption ].

Ltac cannot_raise := cannot_raise_using fail.

Lemma cannotRaise_wantField bad want extra p :
  bad <> ERR_OUT_OF_RANGE -> cannotRaise bad (wantField want extra p).
Proof. intros. unfold wantField. cannot_raise. Qed.

Lemma cannotRaise_parseExtraZip64 bad extra wantU wantC wantOff :
  bad <> ERR_OUT_OF_RANGE -> cannotRaise bad (parseExtraZip64 extra wantU wantC wantOff).
Proof.
  intros Hbad. unfold parseExtraZip64. generalize (length extra) at 1. intros fuel.
  generalize 0. induction fuel as [|fuel IH]; intros off; cbn [parseExtraZip64Loop].
  - cannot_raise.
  - cannot_raise_using
      ltac:(first [apply cannotRaise_wantField; congruence | apply IH]).
Qed.

Lemma cannotRaise_parseUnicodePath bad extra :
  bad <> ERR_OUT_OF_RANGE -> cannotRaise bad (parseUnicodePath extra).
Proof.
  intros Hbad. unfold parseUnicodePath. generalize (length extra) at 1. intros fuel.
  generalize 0. induction fuel as [|fuel IH]; intros off; cbn [parseUnicodePathLoop].
  - cannot_raise.
  - cannot_raise_using ltac:(apply IH).
Qed.

Section Reader.
Context `{Runtime}.

Lemma cannotRaise_decodeName bad nameBytes flags extra :
  bad <> ERR_OUT_OF_RANGE -> cannotRaise bad (decodeName nameBytes flags extra).
Proof.
  intros Hbad. unfold decodeName.
  cannot_raise_using ltac:(apply cannotRaise_parseUnicodePath; congruence).
Qed.

Lemma cannotRaise_readEntry cdBuf p :
  cannotRaise EOCD_not_found (readEntry cdBuf p).
Proof.
  unfold readEntry.
  cannot_raise_using
    ltac:(first [ apply cannotRaise_parseExtraZip64; congruence
                | apply cannotRaise_decodeName; congruence ]).
Qed.

Lemma cannotRaise_readEntries fuel cdBuf p entries :
  cannotRaise EOCD_not_found (readEntries fuel cdBuf p entries).
Proof.
  revert p entries. induction fuel as [|fuel IH]; intros p entries; cbn [readEntries].
  - cannot_raise.
  - cannot_raise_using ltac:(first [apply cannotRaise_readEntry | apply IH]).
Qed.

End Reader.

(** ** The scan *)

Lemma readUInt32LE_inside buf (i : nat) :
  (i + 4 <= length buf)%nat ->
  readUInt32LE buf (Z.of_nat i) = Ok (le (take 4 (drop i buf))).
Proof.
  intros Hi. unfold readUInt32LE, readUIntLE.
  rewrite Nat2Z.id.
  destruct (Z.leb_spec 0 (Z.of_nat i)); [|lia].
  destruct (Z.leb_spec (Z.of_nat i + Z.of_nat 4) (Z.of_nat (length buf))); [done|lia].
Qed.

Lemma scanEOCD_spec tail (n : nat) :
  ((0 < n)%nat -> (n + 21 <= length tail)%nat) ->
  (scanEOCD tail n = Ok (-1) /\ forall i, (i < n)%nat -> ~ signatureAt tail i)
  \/ (exists i, (i < n)%nat /\ scanEOCD tail n = Ok (Z.of_nat i)
                /\ signatureAt tail i
                /\ forall j, (i < j < n)%nat -> ~ signatureAt tail j).
Proof.
  induction n as [|n IH]; intros Hn.
  - left. split; [done|]. intros i Hi. lia.
  - cbn [scanEOCD]. rewrite readUInt32LE_inside by lia. cbn [mbind result_bind].
    destruct (Z.eqb_spec (le (take 4 (drop n tail))) EOCD_SIG) as [Hsig|Hsig].
    + right. exists n. split; [lia|]. split; [done|]. split; [done|]. intros j Hj. lia.
    + destruct IH as [[Hscan Hnone]|(i & Hi & Hscan & Hsig' & Hlater)]; [lia| |].
      * left. split; [done|]. intros i Hi.
        destruct (decide (i = n)) as [->|]; [done|]. apply Hnone. lia.
      * right. exists i. split; [lia|]. split; [done|]. split; [done|].
        intros j Hj. destruct (decide (j = n)) as [->|]; [done|]. apply Hlater. lia.
Qed.

Lemma findEOCD_spec tail :
  (findEOCD tail = Ok (-1)
   /\ forall i, (i + 22 <= length tail)%nat -> ~ signatureAt tail i)
  \/ (exists i, (i + 22 <= length tail)%nat /\ findEOCD tail = Ok (Z.of_nat i)
                /\ signatureAt tail i
                /\ forall j, (i < j)%nat -> (j + 22 <= length tail)%nat ->
                             ~ signatureAt tail j).
Proof.
  unfold findEOCD.
  set (n := Z.to_nat (Z.of_nat (length tail) - 22 + 1)).
  destruct (scanEOCD_spec tail n) as [[Hscan Hnone]|(i & Hi & Hscan & Hsig & Hlater)].
  - subst n. lia.
  - left. split; [done|]. intros i Hi. apply Hnone. subst n. lia.
  - right. exists i. split; [subst n; lia|]. split; [done|]. split; [done|].
    intros j Hj Hj'. apply Hlater. subst n. lia.
Qed.

Lemma readTail_last file :
  let size := Z.of_nat (length file) in
  readTail file = drop (Z.to_nat (size - Z.min size 65558)) file.
Proof.
  intros size. unfold readTail, tailStart, fhRead, maxSearch. fold size.
  assert (Hstart : (if 65536 + 22 <? size then size - (65536 + 22) else 0)
                   = size - Z.min size 65558).
  { destruct (Z.ltb_spec (65536 + 22) size); lia. }
  rewrite Hstart.
  set (start := Z.to_nat (size - Z.min size 65558)).
  assert (Hlen : Z.to_nat (size - (size - Z.min size 65558))
                 = length (drop start file)).
  { rewrite length_drop. subst size start. lia. }
  rewrite Hlen, firstn_all, Nat.sub_diag. cbn. by rewrite app_nil_r.
Qed.

(** C2, as amended: the reader searches the last min(filesize, 65558) bytes
    (0x10000 + 22), backwards from 22 bytes before the end.  The record is
    found at the last offset that holds the signature and leaves 22 bytes
    to the end of the file; with no such offset the reader fails with
    'EOCD not found', and with one it does not. *)
Theorem readCentralDirectory_scan `{Runtime} (file : list Z) :
  let size := Z.of_nat (length file) in
  let tail := readTail file in
  tail = drop (Z.to_nat (size - Z.min size 65558)) file
  /\ ((exists i : nat,
         (i + 22 <= length tail)%nat
         /\ signatureAt tail i
         /\ (forall j : nat, (i < j)%nat -> (j + 22 <= length tail)%nat ->
                             ~ signatureAt tail j)
         /\ findEOCD tail = Ok (Z.of_nat i)
         /\ readCentralDirectory file <> Err EOCD_not_found)
      \/ ((forall i : nat, (i + 22 <= length tail)%nat -> ~ signatureAt tail i)
          /\ findEOCD tail = Ok (-1)
          /\ readCentralDirectory file = Err EOCD_not_found)).
Proof.
  intros size tail. split; [apply readTail_last|].
  destruct (findEOCD_spec tail) as [[Hfind Hnone]|(i & Hi & Hfind & Hsig & Hlater)].
  - right. split; [done|]. split; [done|].
    unfold readCentralDirectory. fold tail. rewrite Hfind. reflexivity.
  - left. exists i. split; [done|]. split; [done|]. split; [done|]. split; [done|].
    unfold readCentralDirectory. fold tail. rewrite Hfind.
    cbn [mbind result_bind].
    destruct (Z.ltb_spec (Z.of_nat i) 0) as [|_]; [lia|].
    cbn [throwIf]. fold (@cannotRaise CentralDirectoryResult EOCD_not_found).
    cannot_raise_using ltac:(apply cannotRaise_readEntries).
Qed.

Lemma le_zeros n : le (replicate n 0) = 0.
Proof. induction n as [|n IH]; [done|]. cbn [replicate le]. lia. Qed.

Lemma take_replicate_zeros k n : exists m, take k (replicate n 0) = replicate m 0.
Proof. exists (Nat.min k n). apply take_replicate. Qed.

Lemma signatureThenZeros_later (i : nat) :
  (1 <= i)%nat -> ~ signatureAt signatureThenZeros i.
Proof.
  intros Hi. unfold signatureAt, signatureThenZeros.
  destruct i as [|[|[|[|i]]]]; [lia| | | |].
  - cbn [drop app]. destruct (Z.to_nat 65554) as [|n] eqn:Hn; [lia|]. 
    cbn. unfold EOCD_SIG. lia.
  - cbn [drop app]. destruct (Z.to_nat 65554) as [|[|n]] eqn:Hn; [lia|lia|].
    cbn. unfold EOCD_SIG. lia.
  - cbn [drop app]. destruct (Z.to_nat 65554) as [|[|[|n]]] eqn:Hn; [lia|lia|lia|].
    cbn. unfold EOCD_SIG. lia.
  - cbn [drop app]. rewrite drop_replicate, take_replicate, le_zeros. done.
Qed.

(** C2, the claim as stated fails twice: a signature inside the window but
    in the last 21 bytes is not found; and a signature 65558 bytes before the
    end, outside the last 65557 bytes, is found. *)
Lemma eocd_window_counterexample :
  (signatureAt signatureOnly 0
   /\ @readCentralDirectory Reference.runtime signatureOnly = Err EOCD_not_found)
  /\ (Z.of_nat (length signatureThenZeros) = 65558
      /\ (forall i : nat, (1 <= i)%nat -> ~ signatureAt signatureThenZeros i)
      /\ findEOCD (readTail signatureThenZeros) = Ok 0).
Proof.
  split; [split; reflexivity|].
  assert (Hlen : Z.of_nat (length signatureThenZeros) = 65558).
  { unfold signatureThenZeros. rewrite length_app, length_replicate. cbn [length]. lia. }
  split; [done|]. split; [apply signatureThenZeros_later|].
  pose proof (readTail_last signatureThenZeros) as Htail. cbn zeta in Htail.
  rewrite Hlen in Htail. change (Z.to_nat (65558 - Z.min 65558 65558)) with 0%nat in Htail.
  rewrite drop_0 in Htail. rewrite Htail.
  destruct (findEOCD_spec signatureThenZeros)
    as [[Hfind Hnone]|(i & Hi & Hfind & Hsig & Hlater)].
  - exfalso. apply (Hnone 0%nat); [lia|reflexivity].
  - destruct i as [|i]; [done|].
    exfalso. apply (signatureThenZeros_later (S i)); [lia|done].
Qed.

End CentralDirectoryFacts.

(* ================================================================== *)
(** * The cross-check of a streamed entry *)
(* ================================================================== *)

Module UploadMonad.
Import JS Cas Upload.

Lemma lift_run {A} (r : result A) cas : lift r cas = (cas, r).
Proof. reflexivity. Qed.

Lemma bind_run {A B} (m : M A) (f : A -> M B) cas :
  (m ≫= f) cas =
  match m cas with
  | (cas', Ok a) => f a cas'
  | (cas', Err e) => (cas', Err e)
  end.
Proof. reflexivity. Qed.

Lemma bind_Ok {A B} (m : M A) (f : A -> M B) cas cas' b :
  (m ≫= f) cas = (cas', Ok b) <->
  exists a cas1, m cas = (cas1, Ok a) /\ f a cas1 = (cas', Ok b).
Proof.
  rewrite bind_run. destruct (m cas) as [cas1 [a|e]]; split.
  - intros Hf. by exists a, cas1.
  - intros (a' & cas1' & Heq & Hf). by simplify_eq.
  - intros ?. by simplify_eq.
  - intros (a' & cas1' & Heq & Hf). by simplify_eq.
Qed.

Lemma bind_Err {A B} (m : M A) (f : A -> M B) cas cas' e :
  (m ≫= f) cas = (cas', Err e) <->
  m cas = (cas', Err e)
  \/ exists a cas1, m cas = (cas1, Ok a) /\ f a cas1 = (cas', Err e).
Proof.
  rewrite bind_run. destruct (m cas) as [cas1 [a|e1]]; split.
  - intros Hf. right. by exists a, cas1.
  - intros [?|(a' & cas1' & Heq & Hf)]; by simplify_eq.
  - intros ?. left. by simplify_eq.
  - intros [?|(a' & cas1' & Heq & Hf)]; by simplify_eq.
Qed.

Lemma mret_run {A} (a : A) cas : (mret a : M A) cas = (cas, Ok a).
Proof. reflexivity. Qed.

End UploadMonad.

Module CrossCheckFacts.
Import JS Buf Props Cas Upload UploadMonad.

Lemma checkLocalHeader_cases hdr r :
  let usize := hdr.(ZipStream.uncompressedSize) in
  let crc := hdr.(ZipStream.crc32) in
  checkLocalHeader hdr r =
    if bool_decide (usize <> 0 /\ usize <> r.(size)) then Err Size_mismatch_local_header
    else if bool_decide (crc <> 0 /\ crc <> r.(crc32)) then Err CRC_mismatch_local_header
    else Ok tt.
Proof.
  intros usize crc. unfold checkLocalHeader. fold usize crc.
  destruct (Z.eqb_spec usize 0), (Z.eqb_spec usize r.(size)),
    (Z.eqb_spec crc 0), (Z.eqb_spec crc r.(crc32)); cbn;
    repeat case_bool_decide; try done; naive_solver.
Qed.

Lemma checkDataDescriptor_cases dd r :
  checkDataDescriptor dd r =
    if bool_decide (dd.(ZipStream.dd_uncompressedSize) <> r.(size)) then Err Size_mismatch_DD
    else if bool_decide (dd.(ZipStream.dd_crc32) <> r.(crc32)) then Err CRC_mismatch_DD
    else Ok tt.
Proof.
  unfold checkDataDescriptor.
  destruct (Z.eqb_spec dd.(ZipStream.dd_uncompressedSize) r.(size)),
    (Z.eqb_spec dd.(ZipStream.dd_crc32) r.(crc32)); cbn;
    repeat case_bool_decide; try done; naive_solver.
Qed.

Section Streamed.
Context `{Runtime}.

(** What a turn of the streaming loop comes to once the processor has
    returned [r] within the caps: the outcome of the cross-check. *)
Lemma streamEntry_processed limits hdr st cas rawStream q cas1 r :
  st.(entryCount) + 1 <= limits.(maxEntries) ->
  usesDD hdr && (hdr.(ZipStream.method) =? 0) = false ->
  openRawStream hdr st.(zr) = Ok (rawStream, q) ->
  processRawToCas rawStream limits cas = (cas1, Ok r) ->
  st.(totalBytes) + r.(size) <= limits.(maxTotalBytes) ->
  streamEntry limits hdr st cas =
    match crossCheck hdr r q with
    | Err e => (cas1, Err e)
    | Ok q' =>
        (cas1,
         Ok {| zr := q';
               processed := <[ decimal hdr.(ZipStream.localHeaderOffset) := r ]>
                              st.(processed);
               entryCount := st.(entryCount) + 1;
               totalBytes := st.(totalBytes) + r.(size);
               warnings := st.(warnings) |})
    end.
Proof.
  intros Hcount Hdefer Hraw Hproc Htotal. unfold streamEntry.
  rewrite bind_run, lift_run.
  destruct (Z.ltb_spec limits.(maxEntries) (st.(entryCount) + 1)) as [|_]; [lia|].
  cbn [throwIf]. rewrite Hdefer, Hraw.
  rewrite bind_run, lift_run, bind_run, Hproc, bind_run, lift_run.
  destruct (Z.ltb_spec limits.(maxTotalBytes) (st.(totalBytes) + r.(size))) as [|_]; [lia|].
  cbn [throwIf]. rewrite bind_run, lift_run. by destruct (crossCheck hdr r q).
Qed.

End Streamed.

Section CrossCheck.
Context `{Runtime}.

(** Where the reader stands after the raw stream of an entry with a data
    descriptor: past as many bytes as the inflate stream drew. *)
Lemma openRawStream_unknown hdr q0 rawStream q :
  usesDD hdr = true ->
  openRawStream hdr q0 = Ok (rawStream, q) ->
  exists raw drawn,
    inflateRawUnknown q0.(ZipStream.pending) = Some (raw, drawn)
    /\ rawStream = asChunks raw
    /\ q.(ZipStream.pending) = drop drawn q0.(ZipStream.pending).
Proof.
  intros Hdd. unfold openRawStream, streamUnknownInflated. rewrite Hdd. cbn [negb].
  destruct (inflateRawUnknown _) as [[raw drawn]|]; [|done].
  intros [= <- <-]. by exists raw, drawn.
Qed.


End CrossCheck.



End CrossCheckFacts.

(* ================================================================== *)
(** * The request handler *)
(* ================================================================== *)

Module ServerFacts.
Import JS JSFacts Props Cas Server.

Lemma startsWith_app p s : startsWith p s = true <-> exists rest, s = p ++ rest.
Proof.
  revert s. induction p as [|a p IH]; intros s.
  - destruct s; (split; [intros _; by eexists|done]).
  - destruct s as [|b s]; cbn [startsWith].
    + split; [done|]. intros (rest & Heq). discriminate Heq.
    + rewrite andb_true_iff, IH, N.eqb_eq. split.
      * intros (-> & rest & ->). by exists rest.
      * intros (rest & Heq). cbn in Heq. injection Heq as -> ->.
        split; [done|by exists rest].
Qed.

Section Objects.
Context `{Runtime}.

(** A request of the objects route reaches [getObject]. *)
Lemma server_objects_route req cas :
  req.(method) = str "GET" ->
  startsWith (str "/objects/") req.(path) = true ->
  server req cas = (cas, getObject req cas).
Proof.
  intros Hm Hp. apply startsWith_app in Hp as (rest & Hp).
  unfold server, serveOpenApi, serveApiDocsHtml. rewrite Hm, Hp.
  assert (Hget : streq (str "GET") (str "GET") = true) by reflexivity.
  assert (Hpost : streq (str "GET") (str "POST") = false) by reflexivity.
  rewrite Hget, Hpost. cbn [negb andb].
  assert (Hne : forall s, (forall r, s <> str "/ob" ++ r) ->
                          streq (str "/objects/" ++ rest) s = false).
  { intros s Hs. apply streq_false. intros Heq. by apply (Hs (str "jects/" ++ rest)). }
  rewrite !Hne by (intros r; discriminate).
  assert (Hfs : startsWith (str "/filesets/") (str "/objects/" ++ rest) = false)
    by reflexivity.
  rewrite Hfs.
  assert (Hob : startsWith (str "/objects/") (str "/objects/" ++ rest) = true).
  { apply startsWith_app. by exists rest. }
  by rewrite Hob.
Qed.

(** C9: a [GET /objects/{sha}] whose [If-None-Match], split on commas and
    trimmed, holds the entity tag of [sha] is answered 304 with the [etag]
    header alone, whatever the store holds; the 404 of this route is sent
    only when the tag is not among them. *)
Theorem objects_conditional_before_existence req cas :
  req.(method) = str "GET" ->
  startsWith (str "/objects/") req.(path) = true ->
  segment2 req.(path) <> [] ->
  let sha := segment2 req.(path) in
  let etag := etagOf sha in
  let conditional := etag ∈ map trim (split COMMA (default [] req.(if_none_match))) in
  (conditional ->
     server req cas =
       (cas, {| status := 304; headers := [(str "etag", Lit etag)]; payload := NoBody |}))
  /\ (server req cas = (cas, sendText 404 (str "Not found") []) -> ~ conditional).
Proof.
  intros Hm Hp Hsha sha etag conditional.
  rewrite (server_objects_route req cas Hm Hp). unfold getObject. fold sha etag.
  apply streq_false in Hsha. fold sha in Hsha. rewrite Hsha.
  destruct (decide conditional) as [Hc|Hc].
  - assert (Hinm : default [] req.(if_none_match) <> []).
    { intros Hnil. unfold conditional in Hc. rewrite Hnil in Hc.
      cbn in Hc. apply list_elem_of_singleton in Hc. done. }
    apply streq_false in Hinm. rewrite Hinm. cbn [negb andb].
    unfold conditional in Hc. rewrite (bool_decide_eq_true_2 _ Hc).
    split; [done|]. intros Heq. simplify_eq.
  - split; [done|]. intros _. done.
Qed.

End Objects.

(** The conditional request is answered 304 by an empty store. *)
Lemma objects_conditional_witness :
  @server Reference.runtime Reference.conditionalRequest emptyStore
  = (emptyStore,
     {| status := 304;
        headers := [(str "etag", Lit (etagOf (str "abc")))];
        payload := NoBody |}).
Proof.
  apply (proj1 (@objects_conditional_before_existence Reference.runtime
                  Reference.conditionalRequest emptyStore
                  eq_refl eq_refl ltac:(discriminate))).
  vm_compute. right. left.
Defined.

End ServerFacts.

(* ================================================================== *)
(** * Duplicate paths and the sort *)
(* ================================================================== *)

Module DuplicateFacts.
Import JS Props Upload.

Lemma indexed_empty w : indexed (emptyFinal w).
Proof.
  intros p i. cbn. rewrite lookup_empty. split; [done|]. intros (e & He & _).
  by rewrite lookup_nil in He.
Qed.

Lemma indexed_seen fs p :
  indexed fs -> (is_Some (fs.(seenPaths) !! p) <-> p ∈ pathsOf fs).
Proof.
  intros Hinv. unfold pathsOf. rewrite list_elem_of_fmap. split.
  - intros [i Hi]. apply Hinv in Hi as (e & He & Hp). exists e. split; [done|].
    by eapply list_elem_of_lookup_2.
  - intros (e & Hp & Hin). apply list_elem_of_lookup in Hin as [i Hi].
    exists i. apply Hinv. by exists e.
Qed.

Lemma recordFinal_fresh fs p r :
  fs.(seenPaths) !! p = None ->
  recordFinal p r fs =
    {| finalEntries := fs.(finalEntries) ++ [fileEntry p r];
       seenPaths := <[ p := length fs.(finalEntries) ]> fs.(seenPaths);
       finalWarnings := fs.(finalWarnings) |}.
Proof. intros Hp. unfold recordFinal. by rewrite Hp. Qed.

Lemma recordFinal_seen fs p r idx :
  fs.(seenPaths) !! p = Some idx ->
  recordFinal p r fs =
    {| finalEntries := <[ idx := fileEntry p r ]> fs.(finalEntries);
       seenPaths := fs.(seenPaths);
       finalWarnings := fs.(finalWarnings) ++ [duplicateWarning p] |}.
Proof. intros Hp. unfold recordFinal. by rewrite Hp. Qed.

Lemma recordFinal_indexed fs p r : indexed fs -> indexed (recordFinal p r fs).
Proof.
  intros Hinv. destruct (fs.(seenPaths) !! p) as [idx|] eqn:Hp.
  - rewrite (recordFinal_seen _ _ _ _ Hp). intros q i. cbn.
    pose proof (proj1 (Hinv p idx) Hp) as (e0 & He0 & Hp0).
    assert (Hlt : (idx < length fs.(finalEntries))%nat) by by eapply lookup_lt_Some.
    destruct (decide (i = idx)) as [->|Hne].
    + rewrite list_lookup_insert_eq by done. split.
      * intros Hq. assert (q = p); [|subst; by eexists].
        apply Hinv in Hq as (e & He & Hq). congruence.
      * intros (e & He & Hq). simplify_eq. done.
    + rewrite list_lookup_insert_ne by done. apply Hinv.
  - rewrite (recordFinal_fresh _ _ _ Hp). intros q i. cbn.
    destruct (decide (p = q)) as [->|Hne].
    + rewrite lookup_insert_eq. split.
      * intros Hi. simplify_eq. exists (fileEntry q r).
        split; [|done]. rewrite lookup_app_r by lia. by rewrite Nat.sub_diag.
      * intros (e & He & Hq). f_equal.
        destruct (decide (i < length fs.(finalEntries))%nat) as [Hlt|Hge].
        -- rewrite lookup_app_l in He by done.
           assert (fs.(seenPaths) !! q = Some i) by (apply Hinv; by exists e). congruence.
        -- rewrite lookup_app_r in He by lia.
           apply list_lookup_singleton_Some in He as [? _]. lia.
    + rewrite lookup_insert_ne by done. rewrite (Hinv q i). split.
      * intros (e & He & Hq). exists e. split; [|done].
        apply lookup_app_l_Some. done.
      * intros (e & He & Hq). exists e. split; [|done].
        apply lookup_app_Some in He as [He|[Hlen He]]; [done|].
        apply list_lookup_singleton_Some in He as [_ <-]. cbn in Hq. congruence.
Qed.

Lemma recordAll_indexed resolved fs : indexed fs -> indexed (recordAll resolved fs).
Proof.
  revert fs. induction resolved as [|[p r] resolved IH]; intros fs Hinv; [done|].
  cbn. apply IH. by apply recordFinal_indexed.
Qed.

Lemma recordAll_app l1 l2 fs : recordAll (l1 ++ l2) fs = recordAll l2 (recordAll l1 fs).
Proof. unfold recordAll. apply fold_left_app. Qed.

(** Paths are unique under the index. *)
Lemma indexed_NoDup fs : indexed fs -> NoDup (pathsOf fs).
Proof.
  intros Hinv. apply NoDup_alt. intros i j p Hi Hj. unfold pathsOf in *.
  rewrite list_lookup_fmap in Hi, Hj.
  destruct (fs.(finalEntries) !! i) as [ei|] eqn:Hei; [|done].
  destruct (fs.(finalEntries) !! j) as [ej|] eqn:Hej; [|done].
  cbn in Hi, Hj. simplify_eq.
  assert (fs.(seenPaths) !! (Fileset.path ei) = Some i) by (apply Hinv; by exists ei).
  assert (fs.(seenPaths) !! (Fileset.path ei) = Some j) by (apply Hinv; by exists ej).
  congruence.
Qed.

Lemma recordFinal_paths fs q r :
  indexed fs ->
  pathsOf (recordFinal q r fs) =
    if decide (q ∈ pathsOf fs) then pathsOf fs else pathsOf fs ++ [q].
Proof.
  intros Hinv. pose proof (indexed_seen fs q Hinv) as Hseen.
  destruct (fs.(seenPaths) !! q) as [idx|] eqn:Hq.
  - rewrite decide_True by (apply Hseen; by eexists).
    rewrite (recordFinal_seen _ _ _ _ Hq). unfold pathsOf. cbn.
    apply Hinv in Hq as (e & He & Hp).
    rewrite list_fmap_insert. apply list_insert_id.
    rewrite list_lookup_fmap, He. cbn. by rewrite Hp.
  - rewrite decide_False by (intros Hin; apply Hseen in Hin as [? ?]; congruence).
    rewrite (recordFinal_fresh _ _ _ Hq). unfold pathsOf. cbn.
    by rewrite map_app.
Qed.

Lemma recordFinal_warnings fs q r :
  indexed fs ->
  (recordFinal q r fs).(finalWarnings) =
    fs.(finalWarnings) ++ if decide (q ∈ pathsOf fs) then [duplicateWarning q] else [].
Proof.
  intros Hinv. pose proof (indexed_seen fs q Hinv) as Hseen.
  destruct (fs.(seenPaths) !! q) as [idx|] eqn:Hq.
  - rewrite decide_True by (apply Hseen; by eexists).
    by rewrite (recordFinal_seen _ _ _ _ Hq).
  - rewrite decide_False by (intros Hin; apply Hseen in Hin as [? ?]; congruence).
    rewrite (recordFinal_fresh _ _ _ Hq). cbn. by rewrite app_nil_r.
Qed.

(** The entry of the path just recorded. *)
Lemma recordFinal_entry fs p r :
  indexed fs -> fileEntry p r ∈ (recordFinal p r fs).(finalEntries).
Proof.
  intros Hinv. destruct (fs.(seenPaths) !! p) as [idx|] eqn:Hp.
  - rewrite (recordFinal_seen _ _ _ _ Hp). cbn.
    apply Hinv in Hp as (e & He & _).
    apply list_elem_of_lookup. exists idx. apply list_lookup_insert_eq.
    by eapply lookup_lt_Some.
  - rewrite (recordFinal_fresh _ _ _ Hp). cbn. set_solver.
Qed.

(** Recording another path leaves an entry where and as it is. *)
Lemma recordFinal_other fs q r i e :
  indexed fs -> e.(Fileset.path) <> q ->
  fs.(finalEntries) !! i = Some e ->
  (recordFinal q r fs).(finalEntries) !! i = Some e.
Proof.
  intros Hinv Hne He. destruct (fs.(seenPaths) !! q) as [idx|] eqn:Hq.
  - rewrite (recordFinal_seen _ _ _ _ Hq). cbn.
    rewrite list_lookup_insert_ne; [done|]. intros <-.
    apply Hinv in Hq as (e' & He' & Hp). congruence.
  - rewrite (recordFinal_fresh _ _ _ Hq). cbn. by apply lookup_app_l_Some.
Qed.

(** Recording keeps every path at its index. *)
Lemma recordFinal_position fs q r i e :
  indexed fs -> fs.(finalEntries) !! i = Some e ->
  exists e', (recordFinal q r fs).(finalEntries) !! i = Some e'
             /\ e'.(Fileset.path) = e.(Fileset.path).
Proof.
  intros Hinv He. destruct (decide (e.(Fileset.path) = q)) as [Heq|Hne].
  - assert (Hq : fs.(seenPaths) !! q = Some i) by (apply Hinv; by exists e).
    rewrite (recordFinal_seen _ _ _ _ Hq). cbn. exists (fileEntry q r).
    split; [|done]. apply list_lookup_insert_eq. by eapply lookup_lt_Some.
  - exists e. split; [|done]. by apply recordFinal_other.
Qed.

Lemma recordAll_position resolved fs i e :
  indexed fs -> fs.(finalEntries) !! i = Some e ->
  exists e', (recordAll resolved fs).(finalEntries) !! i = Some e'
             /\ e'.(Fileset.path) = e.(Fileset.path).
Proof.
  revert fs e. induction resolved as [|[q r] resolved IH]; intros fs e Hinv He.
  - by exists e.
  - cbn. destruct (recordFinal_position fs q r i e Hinv He) as (e1 & He1 & Hp1).
    destruct (IH _ e1 (recordFinal_indexed _ q r Hinv) He1) as (e2 & He2 & Hp2).
    exists e2. split; [done|congruence].
Qed.

Lemma recordAll_other resolved fs i e :
  indexed fs -> e.(Fileset.path) ∉ map fst resolved ->
  fs.(finalEntries) !! i = Some e ->
  (recordAll resolved fs).(finalEntries) !! i = Some e.
Proof.
  revert fs. induction resolved as [|[q r] resolved IH]; intros fs Hinv Hnot He; [done|].
  cbn in *. apply IH.
  - by apply recordFinal_indexed.
  - set_solver.
  - apply recordFinal_other; [done| |done]. set_solver.
Qed.

(** Last wins: the entry of a path is that of its last occurrence. *)
Lemma recordAll_last pre p r post fs :
  indexed fs -> p ∉ map fst post ->
  fileEntry p r ∈ (recordAll (pre ++ (p, r) :: post) fs).(finalEntries).
Proof.
  intros Hinv Hnot. rewrite recordAll_app. cbn [recordAll fold_left].
  fold (recordAll post (recordFinal p r (recordAll pre fs))).
  assert (Hinv' : indexed (recordAll pre fs)) by by apply recordAll_indexed.
  pose proof (recordFinal_entry _ p r Hinv') as Hin.
  apply list_elem_of_lookup in Hin as [i Hi].
  apply list_elem_of_lookup. exists i. apply recordAll_other; [|done|done].
  by apply recordFinal_indexed.
Qed.

(** In place: a path first met after [pre] is pushed at the end of the
    list as it then stands, and stays at that index. *)
Lemma recordAll_first pre p r post fs :
  indexed fs -> p ∉ pathsOf fs -> p ∉ map fst pre ->
  let i := length (recordAll pre fs).(finalEntries) in
  (recordAll (pre ++ [(p, r)]) fs).(finalEntries) !! i = Some (fileEntry p r)
  /\ exists e, (recordAll (pre ++ (p, r) :: post) fs).(finalEntries) !! i = Some e
               /\ e.(Fileset.path) = p.
Proof.
  intros Hinv Hfresh Hpre i.
  assert (Hinv' : indexed (recordAll pre fs)) by by apply recordAll_indexed.
  assert (Hnot : p ∉ pathsOf (recordAll pre fs)).
  { clear i Hinv'. revert fs Hinv Hfresh. induction pre as [|[q r'] pre IH]; intros fs Hinv Hfresh; [done|].
    cbn. apply IH; [set_solver|by apply recordFinal_indexed|].
    rewrite recordFinal_paths by done. case_decide; set_solver. }
  assert (Hnone : (recordAll pre fs).(seenPaths) !! p = None).
  { apply eq_None_not_Some. by rewrite indexed_seen. }
  assert (Hone : (recordAll (pre ++ [(p, r)]) fs).(finalEntries) !! i = Some (fileEntry p r)).
  { rewrite recordAll_app. cbn. rewrite (recordFinal_fresh _ _ _ Hnone). cbn.
    rewrite lookup_app_r by (subst i; lia). subst i. by rewrite Nat.sub_diag. }
  split; [done|].
  replace (pre ++ (p, r) :: post) with ((pre ++ [(p, r)]) ++ post)
    by (by rewrite <- app_assoc).
  rewrite recordAll_app.
  destruct (recordAll_position post _ i _ (recordAll_indexed _ _ Hinv) Hone)
    as (e & He & Hp).
  by exists e.
Qed.

(** ** Counting *)

Lemma occurrences_cons {A} `{EqDecision A} (x y : A) l :
  occurrences x (y :: l) = ((if decide (y = x) then 1 else 0) + occurrences x l)%nat.
Proof. unfold occurrences. rewrite filter_cons. by case_decide. Qed.

Lemma occurrences_app {A} `{EqDecision A} (x : A) l1 l2 :
  occurrences x (l1 ++ l2) = (occurrences x l1 + occurrences x l2)%nat.
Proof. unfold occurrences. by rewrite filter_app, length_app. Qed.

Lemma occurrences_Permutation {A} `{EqDecision A} (x : A) l1 l2 :
  l1 ≡ₚ l2 -> occurrences x l1 = occurrences x l2.
Proof. intros Hp. unfold occurrences. by rewrite Hp. Qed.

#[local] Arguments duplicateWarning : simpl never.

Lemma duplicateWarning_inj p q : duplicateWarning p = duplicateWarning q -> p = q.
Proof.
  unfold duplicateWarning. intros Heq.
  apply app_inv_head in Heq. by apply app_inv_tail in Heq.
Qed.

Lemma recordAll_duplicate_warnings resolved fs p :
  indexed fs ->
  (occurrences (duplicateWarning p) (recordAll resolved fs).(finalWarnings)
   + (if decide (p ∈ pathsOf fs) then 0
      else if decide (p ∈ map fst resolved) then 1 else 0)
   = occurrences (duplicateWarning p) fs.(finalWarnings)
     + occurrences p (map fst resolved))%nat.
Proof.
  revert fs. induction resolved as [|[q r] resolved IH]; intros fs Hinv.
  - cbn [recordAll fold_left map].
    destruct (decide (p ∈ pathsOf fs)); [done|].
    destruct (decide (p ∈ [])) as [Hin|]; [by apply elem_of_nil in Hin|done].
  - change (recordAll ((q, r) :: resolved) fs)
      with (recordAll resolved (recordFinal q r fs)).
    change (map fst ((q, r) :: resolved)) with (q :: map fst resolved).
    specialize (IH _ (recordFinal_indexed fs q r Hinv)).
    rewrite recordFinal_paths, recordFinal_warnings in IH by done.
    rewrite occurrences_cons, occurrences_app in *.
    destruct (decide (q ∈ pathsOf fs)) as [Hq|Hq];
      destruct (decide (q = p)) as [->|Hne].
    + rewrite decide_True in * by done.
      rewrite occurrences_cons, decide_True in IH by done. cbn in IH. lia.
    + assert (Hw : duplicateWarning q <> duplicateWarning p)
        by (intros Heq; by apply duplicateWarning_inj in Heq).
      rewrite occurrences_cons in IH.
      rewrite (decide_False (P := duplicateWarning q = duplicateWarning p)) in IH by done.
      cbn in IH.
      destruct (decide (p ∈ pathsOf fs)); [lia|].
      destruct (decide (p ∈ map fst resolved)).
      * rewrite decide_True by set_solver. lia.
      * rewrite decide_False by set_solver. lia.
    + rewrite decide_True in IH by set_solver.
      rewrite decide_False by done. rewrite decide_True by set_solver.
      cbn in IH. lia.
    + cbn in IH.
      destruct (decide (p ∈ pathsOf fs)).
      * rewrite decide_True in IH by set_solver. lia.
      * rewrite decide_False in IH by set_solver.
        destruct (decide (p ∈ map fst resolved)).
        -- rewrite decide_True by set_solver. lia.
        -- rewrite decide_False by set_solver. lia.
Qed.

(** ** Sorting *)

Lemma insertSorted_Permutation {A} (cmp : A -> A -> Z) x l :
  insertSorted cmp x l ≡ₚ x :: l.
Proof.
  induction l as [|y l IH]; [done|]. cbn. case_match; [done|].
  rewrite IH. apply Permutation_swap.
Qed.

Lemma sort_Permutation {A} (cmp : A -> A -> Z) l : sort cmp l ≡ₚ l.
Proof.
  induction l as [|x l IH]; [done|]. cbn.
  rewrite insertSorted_Permutation. by rewrite IH.
Qed.

Lemma insertSorted_Sorted {A} (cmp : A -> A -> Z) x l :
  (forall a b, cmp a b <= 0 \/ cmp b a <= 0) ->
  Sorted (fun a b => cmp a b <= 0) l ->
  Sorted (fun a b => cmp a b <= 0) (insertSorted cmp x l).
Proof.
  intros Htotal. induction l as [|y l IH]; intros Hs; cbn.
  - by repeat constructor.
  - destruct (Z.leb_spec (cmp x y) 0) as [Hle|Hgt].
    + constructor; [done|]. by constructor.
    + apply Sorted_inv in Hs as [Hs Hhd]. constructor; [by apply IH|].
      destruct l as [|z l]; cbn.
      * constructor. destruct (Htotal x y); lia.
      * destruct (Z.leb_spec (cmp x z) 0).
        -- constructor. destruct (Htotal x y); lia.
        -- constructor. by apply HdRel_inv in Hhd.
Qed.

Lemma sort_Sorted {A} (cmp : A -> A -> Z) l :
  (forall a b, cmp a b <= 0 \/ cmp b a <= 0) ->
  Sorted (fun a b => cmp a b <= 0) (sort cmp l).
Proof.
  intros Htotal. induction l as [|x l IH]; cbn; [constructor|].
  by apply insertSorted_Sorted.
Qed.

Lemma Sorted_adjacent {A} (R : A -> A -> Prop) l i a b :
  Sorted R l -> l !! i = Some a -> l !! S i = Some b -> R a b.
Proof.
  intros Hs. revert i. induction Hs as [|x l Hs IH Hhd]; intros i Ha Hb; [done|].
  destruct i as [|i]; cbn in *.
  - simplify_eq. destruct l; [done|]. cbn in Hb. simplify_eq. by apply HdRel_inv in Hhd.
  - by eapply IH.
Qed.

Lemma sort_StronglySorted {A} (cmp : A -> A -> Z) l :
  (forall a b, cmp a b <= 0 \/ cmp b a <= 0) ->
  (forall a b c, cmp a b <= 0 -> cmp b c <= 0 -> cmp a c <= 0) ->
  StronglySorted (fun a b => cmp a b <= 0) (sort cmp l).
Proof.
  intros Htotal Htrans. apply Sorted_StronglySorted; [|by apply sort_Sorted].
  intros a b c. apply Htrans.
Qed.

Lemma StronglySorted_lookup {A} (R : A -> A -> Prop) l i j a b :
  StronglySorted R l -> (i < j)%nat -> l !! i = Some a -> l !! j = Some b -> R a b.
Proof.
  intros Hs. revert i j. induction Hs as [|x l Hs IH Hall]; intros i j Hij Ha Hb; [done|].
  destruct j as [|j]; [lia|]. cbn in Hb. destruct i as [|i]; cbn in Ha.
  - simplify_eq. rewrite List.Forall_forall in Hall. apply Hall.
    apply list_elem_of_In. by eapply list_elem_of_lookup_2.
  - apply (IH i j); [lia|done|done].
Qed.

End DuplicateFacts.

(* ================================================================== *)
(** * The ingest, step by step *)
(* ================================================================== *)

Module UploadFacts.
Import JS Props Cas Upload UploadMonad.

Lemma writesObjectsOnly_lift {A} (r : result A) : writesObjectsOnly (lift r).
Proof. intros cas cas' r' Heq. unfold lift in Heq. by simplify_eq. Qed.

Lemma writesObjectsOnly_mret {A} (a : A) : writesObjectsOnly (mret a : M A).
Proof. intros cas cas' r' Heq. cbv in Heq. by simplify_eq. Qed.

Lemma writesObjectsOnly_commit sha : writesObjectsOnly (commit sha).
Proof. intros cas cas' r' Heq. unfold commit in Heq. by simplify_eq. Qed.

Lemma writesObjectsOnly_bind {A B} (m : M A) (f : A -> M B) :
  writesObjectsOnly m -> (forall a, writesObjectsOnly (f a)) ->
  writesObjectsOnly (m ≫= f).
Proof.
  intros Hm Hf cas cas' r Heq. rewrite bind_run in Heq.
  destruct (m cas) as [cas1 [a|e]] eqn:Hrun.
  - apply Hm in Hrun as [? ?]. apply Hf in Heq as [? ?]. split; congruence.
  - apply Hm in Hrun as [? ?]. by simplify_eq.
Qed.

Ltac objects_only_using leaf :=
  repeat first
    [ leaf
    | apply writesObjectsOnly_lift
    | apply writesObjectsOnly_mret
    | apply writesObjectsOnly_commit
    | apply writesObjectsOnly_bind; [|intros ?]
    | match goal with
      | |- writesObjectsOnly (match ?x with _ => _ end) => destruct x
      | |- writesObjectsOnly (let '(_, _) := ?x in _) => destruct x
      end ].

Section Frames.
Context `{Runtime}.

Lemma writesObjectsOnly_processRawToCas rawStream limits :
  writesObjectsOnly (processRawToCas rawStream limits).
Proof. unfold processRawToCas. objects_only_using fail. Qed.

Lemma writesObjectsOnly_processEntryFromSpool zipFile off method csize limits :
  writesObjectsOnly (processEntryFromSpool zipFile off method csize limits).
Proof.
  unfold processEntryFromSpool.
  objects_only_using ltac:(apply writesObjectsOnly_processRawToCas).
Qed.

Lemma writesObjectsOnly_streamEntry limits hdr st :
  writesObjectsOnly (streamEntry limits hdr st).
Proof.
  unfold streamEntry.
  objects_only_using ltac:(apply writesObjectsOnly_processRawToCas).
Qed.

Lemma writesObjectsOnly_streamingPhase turns limits st :
  writesObjectsOnly (streamingPhase turns limits st).
Proof.
  revert st. induction turns as [|turns IH]; intros st; cbn [streamingPhase].
  - apply writesObjectsOnly_lift.
  - objects_only_using
      ltac:(first [apply writesObjectsOnly_streamEntry | apply IH]).
Qed.

Lemma writesObjectsOnly_resolveEntry zipFile limits e processed :
  writesObjectsOnly (resolveEntry zipFile limits e processed).
Proof.
  unfold resolveEntry.
  objects_only_using ltac:(apply writesObjectsOnly_processEntryFromSpool).
Qed.

Lemma writesObjectsOnly_reconcile zipFile limits entries rs :
  writesObjectsOnly (reconcile zipFile limits entries rs).
Proof.
  revert rs. induction entries as [|e entries IH]; intros rs; cbn [reconcile].
  - apply writesObjectsOnly_mret.
  - unfold reconcileEntry.
    objects_only_using
      ltac:(first [apply writesObjectsOnly_resolveEntry | apply IH]).
Qed.

End Frames.

Section Ingest.
Context `{Runtime}.

(** The reconciliation resolves the entries and records them: recording
    does not bear on resolving. *)
Lemma reconcile_resolveAll zipFile limits entries rs cas :
  reconcile zipFile limits entries rs cas =
  match resolveAll zipFile limits entries rs.(reconProcessed) cas with
  | (cas', Ok (resolved, processed)) =>
      (cas', Ok {| reconProcessed := processed;
                   final := recordAll resolved rs.(final) |})
  | (cas', Err e) => (cas', Err e)
  end.
Proof.
  revert rs cas. induction entries as [|e entries IH]; intros rs cas.
  - by destruct rs.
  - cbn [reconcile resolveAll]. unfold reconcileEntry.
    rewrite !bind_run.
    destruct (resolveEntry zipFile limits e rs.(reconProcessed) cas)
      as [cas1 [[resolved processed]|err]]; [|done].
    destruct resolved as [[norm r]|]; rewrite mret_run, IH;
      cbn [reconProcessed final]; rewrite bind_run;
      destruct (resolveAll zipFile limits entries processed cas1)
        as [cas2 [[more processed']|err]]; done.
Qed.

(** A successful ingest, step by step. *)
Lemma uploadZipAsFileset_Ok req updateRef limits cas cas' res :
  uploadZipAsFileset req updateRef limits cas = (cas', Ok res) ->
  exists st cas1 cd resolved processedAfter cas2,
    Z.of_nat (length req) <= limits.(maxZipBytes)
    /\ streamingPhase (turnsFor limits) limits (initialStream req) cas = (cas1, Ok st)
    /\ CentralDirectory.readCentralDirectory req = Ok cd
    /\ resolveAll req limits cd.(CentralDirectory.entries) st.(processed) cas1
       = (cas2, Ok (resolved, processedAfter))
    /\ let unsorted :=
         recordAll resolved
           (emptyFinal (st.(warnings) ++ cd.(CentralDirectory.warnings))) in
       let m := makeManifest (sort byPath unsorted.(finalEntries))
                  unsorted.(finalWarnings) in
       commitFileset m updateRef cas2 = (cas', Ok tt)
       /\ res = {| filesetId := m.(Fileset.fileset_id); manifest := m;
                   updatedRef := updateRef |}.
Proof.
  unfold uploadZipAsFileset. intros Hrun. cbv zeta in Hrun.
  apply bind_Ok in Hrun as (st & cas1 & Hstream & Hrun).
  apply bind_Ok in Hrun as (spool & cas0 & Hspool & Hrun).
  unfold Spool.teeToSpool, lift in Hstream, Hspool.
  destruct (Z.ltb_spec limits.(maxZipBytes) (Z.of_nat (length req))) as [|Hcap];
    [by simplify_eq|].
  cbn [Spool.pass Spool.spoolDone] in Hstream, Hspool. simplify_eq.
  apply bind_Ok in Hrun as (cd & cas1' & Hcd & Hrun).
  unfold lift in Hcd. simplify_eq.
  apply bind_Ok in Hrun as (rs & cas2 & Hrec & Hrun).
  apply bind_Ok in Hrun as ([] & cas3 & Hcommit & Hrun).
  rewrite mret_run in Hrun. simplify_eq.
  rewrite reconcile_resolveAll in Hrec. cbn [reconProcessed final] in Hrec.
  destruct (resolveAll _ _ _ _ _) as [cas2' [[resolved processed]|err]] eqn:Hres;
    [|done].
  simplify_eq. cbn [final] in *.
  do 6 eexists. split; [done|]. split; [done|]. split; [done|].
  split; [done|]. split; [done|]. done.
Qed.

End Ingest.
End UploadFacts.

(* ================================================================== *)
(** * The manifest of a successful ingest *)
(* ================================================================== *)

Module ManifestFacts.
Import JS JSFacts Props Cas Upload UploadMonad UploadFacts DuplicateFacts.

#[local] Arguments duplicateWarning : simpl never.

Lemma deferred_not_duplicate off p : deferredWarning off <> duplicateWarning p.
Proof.
  unfold deferredWarning, duplicateWarning. intros Heq.
  apply (f_equal (take 2)) in Heq. vm_compute in Heq. discriminate Heq.
Qed.

Lemma zip64_not_duplicate p : CentralDirectory.zip64Warning <> duplicateWarning p.
Proof.
  unfold CentralDirectory.zip64Warning, duplicateWarning. intros Heq.
  apply (f_equal (take 1)) in Heq. vm_compute in Heq. discriminate Heq.
Qed.

Lemma result_bind_Ok {A B} (m : result A) (f : A -> result B) b :
  m ≫= f = Ok b -> exists a, m = Ok a /\ f a = Ok b.
Proof. destruct m as [a|e]; [by exists a|done]. Qed.

Section Warnings.
Context `{Runtime}.

Lemma streamEntry_warnings limits hdr st cas cas' st' :
  streamEntry limits hdr st cas = (cas', Ok st') ->
  Forall isDeferred st.(warnings) -> Forall isDeferred st'.(warnings).
Proof.
  unfold streamEntry. intros Hrun Hw.
  apply bind_Ok in Hrun as ([] & cas0 & _ & Hrun).
  destruct (usesDD hdr && (hdr.(ZipStream.method) =? 0)).
  - rewrite mret_run in Hrun. simplify_eq. cbn.
    apply Forall_app. split; [done|]. apply Forall_singleton. by eexists.
  - apply bind_Ok in Hrun as ([rawStream q] & cas1 & _ & Hrun).
    apply bind_Ok in Hrun as (r & cas2 & _ & Hrun).
    apply bind_Ok in Hrun as ([] & cas3 & _ & Hrun).
    apply bind_Ok in Hrun as (q' & cas4 & _ & Hrun).
    rewrite mret_run in Hrun. by simplify_eq.
Qed.

Lemma streamingPhase_warnings turns limits st cas cas' st' :
  streamingPhase turns limits st cas = (cas', Ok st') ->
  Forall isDeferred st.(warnings) -> Forall isDeferred st'.(warnings).
Proof.
  revert st cas. induction turns as [|turns IH]; intros st cas Hrun Hw;
    cbn [streamingPhase] in Hrun; [done|].
  apply bind_Ok in Hrun as ([hdr q] & cas0 & _ & Hrun).
  destruct hdr as [hdr|].
  - apply bind_Ok in Hrun as (st1 & cas1 & Hentry & Hrun).
    apply (IH _ _ Hrun). by apply (streamEntry_warnings _ _ _ _ _ _ Hentry).
  - rewrite mret_run in Hrun. by simplify_eq.
Qed.

Lemma readCentralDirectory_warnings file cd :
  CentralDirectory.readCentralDirectory file = Ok cd ->
  Forall (fun w => w = CentralDirectory.zip64Warning) cd.(CentralDirectory.warnings).
Proof.
  unfold CentralDirectory.readCentralDirectory. intros Hrun.
  apply result_bind_Ok in Hrun as (eocdOff & _ & Hrun).
  apply result_bind_Ok in Hrun as ([] & _ & Hrun).
  apply result_bind_Ok in Hrun as (cdSize32 & _ & Hrun).
  apply result_bind_Ok in Hrun as (cdOff32 & _ & Hrun).
  apply result_bind_Ok in Hrun as (totalEntries16 & _ & Hrun).
  apply result_bind_Ok in Hrun as ([[cdSize cdOff] ws] & Hz64 & Hrun).
  apply result_bind_Ok in Hrun as (cdBuf & _ & Hrun).
  apply result_bind_Ok in Hrun as (entries & _ & Hrun).
  simplify_eq. cbn [CentralDirectory.warnings].
  destruct (_ || _ || _) in Hz64; [|simplify_eq; constructor].
  apply result_bind_Ok in Hz64 as (located & _ & Hz64).
  destruct located; [|simplify_eq; by repeat constructor].
  apply result_bind_Ok in Hz64 as (z64eocdOff & _ & Hz64).
  apply result_bind_Ok in Hz64 as (zbuf & _ & Hz64).
  apply result_bind_Ok in Hz64 as (zsig & _ & Hz64).
  apply result_bind_Ok in Hz64 as ([] & _ & Hz64).
  apply result_bind_Ok in Hz64 as (cdSize' & _ & Hz64).
  apply result_bind_Ok in Hz64 as (cdOff' & _ & Hz64).
  simplify_eq. constructor.
Qed.

End Warnings.

Section Manifest.
Context `{Runtime}.

Lemma occurrences_none {A} `{EqDecision A} (x : A) l (P : A -> Prop) :
  Forall P l -> ~ P x -> occurrences x l = 0%nat.
Proof.
  intros Hl Hx. unfold occurrences. induction Hl as [|y l Hy Hl IH]; [done|].
  rewrite filter_cons, decide_False; [done|]. by intros ->.
Qed.

Lemma filter_path_none (l : list Fileset.FileEntry) p :
  p ∉ map Fileset.path l -> filter (fun e => e.(Fileset.path) = p) l = [].
Proof.
  induction l as [|e l IH]; intros Hnot; [done|].
  rewrite filter_cons, decide_False by set_solver. apply IH. set_solver.
Qed.

Lemma filter_path_one (l : list Fileset.FileEntry) p :
  NoDup (map Fileset.path l) -> p ∈ map Fileset.path l ->
  length (filter (fun e => e.(Fileset.path) = p) l) = 1%nat.
Proof.
  induction l as [|e l IH]; intros Hnd Hin; [by apply elem_of_nil in Hin|].
  cbn in Hnd, Hin. apply NoDup_cons in Hnd as [Hnot Hnd].
  rewrite filter_cons. destruct (decide (e.(Fileset.path) = p)) as [<-|Hne].
  - by rewrite filter_path_none.
  - apply IH; [done|]. set_solver.
Qed.

Lemma last_occurrence {A} (l : list (jsstring * A)) p :
  p ∈ map fst l ->
  exists pre r post, l = pre ++ (p, r) :: post /\ p ∉ map fst post.
Proof.
  induction l as [|[q r] l IH]; intros Hin; [by apply elem_of_nil in Hin|].
  destruct (decide (p ∈ map fst l)) as [Hl|Hl].
  - destruct (IH Hl) as (pre & r' & post & -> & Hnot).
    by exists ((q, r) :: pre), r', post.
  - assert (q = p) by set_solver. subst. by exists [], r, l.
Qed.

Lemma recordAll_paths_in resolved fs p :
  indexed fs -> p ∈ map fst resolved -> p ∈ pathsOf (recordAll resolved fs).
Proof.
  intros Hinv Hin. apply last_occurrence in Hin as (pre & r & post & -> & Hnot).
  pose proof (recordAll_last pre p r post fs Hinv Hnot) as Hlast.
  unfold pathsOf. apply list_elem_of_fmap. by exists (fileEntry p r).
Qed.

(** What a turn of the reconciliation resolves an entry to, against the
    entry itself. *)
Lemma resolveEntry_from zipFile limits e processed cas cas' resolved processed' :
  resolveEntry zipFile limits e processed cas = (cas', Ok (resolved, processed')) ->
  match resolved with
  | Some nr => recorded e = true /\ resolvedFrom e nr
  | None => recorded e = false
  end.
Proof.
  intros Hrun. unfold resolveEntry in Hrun. unfold recorded, resolvedFrom.
  destruct e.(CentralDirectory.isDirectory) eqn:Hdir.
  { rewrite mret_run in Hrun. by simplify_eq. }
  apply bind_Ok in Hrun as ([] & cas1 & Hmethod & Hrun).
  apply bind_Ok in Hrun as (norm & cas2 & Hnorm & Hrun).
  unfold lift in Hmethod, Hnorm.
  injection Hmethod as <- _. injection Hnorm as <- Hnorm.
  rewrite Hnorm. cbn [negb andb].
  destruct (streq norm []) eqn:Hempty.
  { rewrite mret_run in Hrun. by simplify_eq. }
  destruct (processed !! _) as [r|] eqn:Hkey.
  - apply bind_Ok in Hrun as ([] & cas3 & Hsize & Hrun).
    apply bind_Ok in Hrun as ([] & cas4 & Hcrc & Hrun).
    rewrite mret_run in Hrun. unfold lift in Hsize, Hcrc. simplify_eq.
    destruct (Z.eqb_spec r.(size) e.(CentralDirectory.uncompressedSize)); [|done].
    destruct (Z.eqb_spec r.(crc32) e.(CentralDirectory.crc32)); [|done].
    done.
  - apply bind_Ok in Hrun as (r & cas3 & Hspool & Hrun).
    apply bind_Ok in Hrun as ([] & cas4 & Hsize & Hrun).
    apply bind_Ok in Hrun as ([] & cas5 & Hcrc & Hrun).
    rewrite mret_run in Hrun. unfold lift in Hsize, Hcrc. simplify_eq.
    destruct (Z.eqb_spec r.(size) e.(CentralDirectory.uncompressedSize)); [|done].
    destruct (Z.eqb_spec r.(crc32) e.(CentralDirectory.crc32)); [|done].
    done.
Qed.

(** The resolved entries are the recorded entries of the central directory,
    one for one and in order. *)
Lemma resolveAll_from zipFile limits entries processed cas cas' resolved processed' :
  resolveAll zipFile limits entries processed cas = (cas', Ok (resolved, processed')) ->
  Forall2 resolvedFrom (List.filter recorded entries) resolved.
Proof.
  revert processed cas resolved. induction entries as [|e entries IH];
    intros processed cas resolved Hrun; cbn [resolveAll] in Hrun.
  { rewrite mret_run in Hrun. simplify_eq. constructor. }
  apply bind_Ok in Hrun as ([first processed1] & cas1 & Hfirst & Hrun).
  apply bind_Ok in Hrun as ([more processed2] & cas2 & Hmore & Hrun).
  rewrite mret_run in Hrun. simplify_eq.
  apply resolveEntry_from in Hfirst. apply IH in Hmore. cbn [List.filter].
  destruct first as [nr|].
  - destruct Hfirst as [-> Hfrom]. by constructor.
  - by rewrite Hfirst.
Qed.

(** C7: in a successful ingest the resolved entries [resolved] are the
    entries of the central directory that are no directories and normalise
    to a path that is not empty, in order, each with the result that has its
    size and checksum.  For every path [p] among them: the manifest holds
    exactly one entry of path [p]; that entry carries the digest and the size
    of the result of the last entry that normalises to [p]; the warning
    "Duplicate path: p (last wins)" stands in the manifest once for every
    occurrence after the first; and before the sort the entry of [p] stands
    at the index where its first occurrence was pushed. *)
Theorem duplicate_paths_last_wins req updateRef limits cas cas' res
    st cas1 cd resolved processedAfter cas2 :
  uploadZipAsFileset req updateRef limits cas = (cas', Ok res) ->
  streamingPhase (turnsFor limits) limits (initialStream req) cas = (cas1, Ok st) ->
  CentralDirectory.readCentralDirectory req = Ok cd ->
  resolveAll req limits cd.(CentralDirectory.entries) st.(processed) cas1
    = (cas2, Ok (resolved, processedAfter)) ->
  let start := emptyFinal (st.(warnings) ++ cd.(CentralDirectory.warnings)) in
  let unsorted := (recordAll resolved start).(finalEntries) in
  let files := res.(manifest).(Fileset.files) in
  Forall2 resolvedFrom (List.filter recorded cd.(CentralDirectory.entries)) resolved
  /\ files ≡ₚ unsorted
  /\ forall p, p ∈ map fst resolved ->
       length (filter (fun e => e.(Fileset.path) = p) files) = 1%nat
       /\ (forall pre r post,
             resolved = pre ++ (p, r) :: post -> p ∉ map fst post ->
             {| Fileset.path := p;
                Fileset.sha256 := r.(sha256);
                Fileset.size := r.(size) |} ∈ files)
       /\ (occurrences (duplicateWarning p) res.(manifest).(Fileset.warnings) + 1
           = occurrences p (map fst resolved))%nat
       /\ (forall pre r post,
             resolved = pre ++ (p, r) :: post -> p ∉ map fst pre ->
             let i := length (recordAll pre start).(finalEntries) in
             (recordAll (pre ++ [(p, r)]) start).(finalEntries) !! i
               = Some {| Fileset.path := p;
                         Fileset.sha256 := r.(sha256);
                         Fileset.size := r.(size) |}
             /\ exists e, unsorted !! i = Some e /\ e.(Fileset.path) = p).
Proof.
  intros Hrun Hstream Hcd Hres.
  apply uploadZipAsFileset_Ok in Hrun
    as (st' & cas1' & cd' & resolved' & processed' & cas2' & _ & Hstream' & Hcd'
        & Hres' & _ & ->).
  rewrite Hstream in Hstream'. rewrite Hcd in Hcd'. simplify_eq.
  rewrite Hres in Hres'. simplify_eq.
  intros start unsorted files.
  subst files. cbn [manifest makeManifest Fileset.files Fileset.warnings].
  fold start. fold unsorted.
  assert (Hinv : indexed start) by apply indexed_empty.
  assert (Hinv' : indexed (recordAll resolved' start)) by by apply recordAll_indexed.
  pose proof (sort_Permutation byPath unsorted) as Hperm.
  split; [by apply (resolveAll_from _ _ _ _ _ _ _ _ Hres)|].
  split; [done|]. intros p Hp.
  assert (Hpaths : p ∈ map Fileset.path unsorted)
    by by apply (recordAll_paths_in resolved' start p Hinv).
  split; [|split; [|split]].
  - rewrite Hperm. apply filter_path_one; [|done]. by apply indexed_NoDup.
  - intros pre r post -> Hnot. rewrite Hperm.
    by apply (recordAll_last pre p r post start).
  - pose proof (recordAll_duplicate_warnings resolved' start p Hinv) as Hcount.
    rewrite decide_False in Hcount by (cbn; set_solver).
    rewrite decide_True in Hcount by done.
    replace (occurrences (duplicateWarning p) (finalWarnings start)) with 0%nat
      in Hcount; [lia|].
    symmetry. cbn [start emptyFinal finalWarnings]. rewrite occurrences_app.
    rewrite (occurrences_none _ _ isDeferred);
      [|by apply (streamingPhase_warnings _ _ _ _ _ _ Hstream)
       |intros [off Hoff]; symmetry in Hoff; by apply deferred_not_duplicate in Hoff].
    rewrite (occurrences_none _ _ (fun w => w = CentralDirectory.zip64Warning));
      [done|by apply (readCentralDirectory_warnings req)|].
    intros Heq. symmetry in Heq. by apply zip64_not_duplicate in Heq.
  - intros pre r post -> Hnot.
    apply (recordAll_first pre p r post start Hinv); [cbn; set_solver|done].
Qed.


(** C1, as amended: the files of a stored manifest have pairwise distinct
    paths and are in the order of [localeCompare], not of the code units:
    for a collation that is a total preorder, each path compares at most
    equal to the next, and to every later one. *)
Theorem manifest_files_sorted_by_collation req updateRef limits cas cas' res :
  (forall a b, localeCompare a b <= 0 \/ localeCompare b a <= 0) ->
  (forall a b c, localeCompare a b <= 0 -> localeCompare b c <= 0 ->
                 localeCompare a c <= 0) ->
  uploadZipAsFileset req updateRef limits cas = (cas', Ok res) ->
  let files := res.(manifest).(Fileset.files) in
  NoDup (map Fileset.path files)
  /\ (forall i a b,
        files !! i = Some a -> files !! S i = Some b ->
        localeCompare a.(Fileset.path) b.(Fileset.path) <= 0)
  /\ (forall i j a b,
        (i < j)%nat -> files !! i = Some a -> files !! j = Some b ->
        localeCompare a.(Fileset.path) b.(Fileset.path) <= 0).
Proof.
  intros Htotal Htrans Hrun.
  apply uploadZipAsFileset_Ok in Hrun
    as (st & cas1 & cd & resolved & processed & cas2 & _ & _ & _ & _ & _ & ->).
  cbn [manifest makeManifest Fileset.files].
  set (start := emptyFinal _).
  assert (Hpairs : forall i j a b, (i < j)%nat ->
            sort byPath (recordAll resolved start).(finalEntries) !! i = Some a ->
            sort byPath (recordAll resolved start).(finalEntries) !! j = Some b ->
            byPath a b <= 0).
  { intros i j a b. apply (StronglySorted_lookup (fun a b => byPath a b <= 0)).
    apply sort_StronglySorted.
    - intros x y. apply Htotal.
    - intros x y z. apply Htrans. }
  split; [|split].
  - rewrite sort_Permutation. apply indexed_NoDup.
    apply recordAll_indexed, indexed_empty.
  - intros i a b. apply Hpairs. lia.
  - exact Hpairs.
Qed.

Lemma join_nil parts : join [] parts = concat parts.
Proof.
  induction parts as [|p parts IH]; [done|]. cbn [join concat].
  destruct parts as [|q parts]; [by rewrite app_nil_r|]. by rewrite <- IH.
Qed.

Lemma emptyArchive_ingest updateRef limits cas :
  22 <= limits.(maxZipBytes) ->
  (forall name, truthy updateRef = Some name ->
     includesUnit NUL name = false /\ plainName name = true
     /\ refNameRefused name = None) ->
  exists cas',
    uploadZipAsFileset Reference.emptyArchive updateRef limits cas
    = (cas', Ok {| filesetId := sha256hex [118; 49; 0];
                   manifest := {| Fileset.schema := str "fileset.v1";
                                  Fileset.fileset_id := sha256hex [118; 49; 0];
                                  Fileset.file_count := 0;
                                  Fileset.total_bytes := 0;
                                  Fileset.files := [];
                                  Fileset.warnings := [] |};
                   updatedRef := updateRef |}).
Proof.
  intros Hcap Hname. unfold uploadZipAsFileset, Spool.teeToSpool.
  change (Z.of_nat (length Reference.emptyArchive)) with 22.
  destruct (Z.ltb_spec limits.(maxZipBytes) 22) as [|_]; [lia|].
  cbv zeta. cbn [Spool.pass Spool.spoolDone]. rewrite bind_run.
  unfold turnsFor. cbn [streamingPhase]. rewrite bind_run, lift_run.
  change (ZipStream.nextHeader (zr _))
    with (ZipStream.nextHeader (ZipStream.newQueue Reference.emptyArchive)).
  replace (ZipStream.nextHeader (ZipStream.newQueue Reference.emptyArchive))
    with (Ok (@None ZipStream.ZipEntryHeader,
              ZipStream.discardFuture (ZipStream.newQueue Reference.emptyArchive)))
    by (vm_compute; reflexivity).
  rewrite mret_run, bind_run, lift_run, bind_run, lift_run.
  replace (CentralDirectory.readCentralDirectory Reference.emptyArchive)
    with (Ok {| CentralDirectory.entries := []; CentralDirectory.warnings := [] |})
    by (vm_compute; reflexivity).
  cbn [CentralDirectory.entries CentralDirectory.warnings reconcile processed
       warnings app].
  rewrite bind_run, mret_run. cbn [final finalEntries finalWarnings sort foldr].
  rewrite bind_run. unfold commitFileset. rewrite bind_run.
  unfold storeManifest. unfold makeManifest, filesetIdOf, canonical.
  cbn [map join length fold_left Fileset.fileset_id].
  change (Buf.utf8 (str "v1" ++ [NUL]) ++ Buf.utf8 []) with [118; 49; 0].
  destruct (truthy updateRef) as [name|] eqn:Hname'.
  - destruct (Hname name eq_refl) as (Hnul & Hplain & Hrefused).
    unfold updateRefTo, CasFs.writeRef. rewrite Hnul, Hplain, Hrefused.
    rewrite mret_run. by eexists.
  - rewrite !mret_run. by eexists.
Qed.

(** C3, as amended: the id of a fileset is the digest of "v1" and a NUL
    byte followed by the UTF-8 bytes of the canonical string, the lines
    [path NUL sha256:hash NUL size LF] of the manifest's files in their
    order; the files are the recorded entries, in the order of
    [localeCompare]; the counts are those of the files.  The archive with no
    member is ingested to the manifest with no file, whose id is the digest
    of the three bytes 'v', '1', NUL. *)
Theorem fileset_id_canonical :
  (forall req updateRef limits cas cas' res st cas1 cd resolved processedAfter cas2,
     uploadZipAsFileset req updateRef limits cas = (cas', Ok res) ->
     streamingPhase (turnsFor limits) limits (initialStream req) cas = (cas1, Ok st) ->
     CentralDirectory.readCentralDirectory req = Ok cd ->
     resolveAll req limits cd.(CentralDirectory.entries) st.(processed) cas1
       = (cas2, Ok (resolved, processedAfter)) ->
     let m := res.(manifest) in
     let files := m.(Fileset.files) in
     let start := emptyFinal (st.(warnings) ++ cd.(CentralDirectory.warnings)) in
     let line := fun e =>
       e.(Fileset.path) ++ [0%N] ++ str "sha256:" ++ e.(Fileset.sha256)
       ++ [0%N] ++ decimal e.(Fileset.size) ++ [10%N] in
     res.(filesetId) = m.(Fileset.fileset_id)
     /\ m.(Fileset.schema) = str "fileset.v1"
     /\ m.(Fileset.fileset_id)
        = sha256hex ([118; 49; 0] ++ Buf.utf8 (concat (map line files)))
     /\ files ≡ₚ (recordAll resolved start).(finalEntries)
     /\ ((forall a b, localeCompare a b <= 0 \/ localeCompare b a <= 0) ->
         (forall a b c, localeCompare a b <= 0 -> localeCompare b c <= 0 ->
                        localeCompare a c <= 0) ->
         forall i j a b,
           (i < j)%nat -> files !! i = Some a -> files !! j = Some b ->
           localeCompare a.(Fileset.path) b.(Fileset.path) <= 0)
     /\ m.(Fileset.file_count) = Z.of_nat (length files)
     /\ m.(Fileset.total_bytes)
        = fold_left (fun s e => s + e.(Fileset.size)) files 0)
  /\ (forall updateRef limits cas,
        22 <= limits.(maxZipBytes) ->
        (forall name, truthy updateRef = Some name ->
           includesUnit NUL name = false /\ plainName name = true
           /\ refNameRefused name = None) ->
        exists cas' res,
          uploadZipAsFileset Reference.emptyArchive updateRef limits cas
          = (cas', Ok res)
          /\ res.(filesetId) = sha256hex [118; 49; 0]
          /\ res.(manifest).(Fileset.fileset_id) = sha256hex [118; 49; 0]
          /\ res.(manifest).(Fileset.files) = []
          /\ res.(manifest).(Fileset.file_count) = 0
          /\ res.(manifest).(Fileset.total_bytes) = 0).
Proof.
  split.
  - intros req updateRef limits cas cas' res st cas1 cd resolved processedAfter cas2
      Hrun Hstream Hcd Hres.
    apply uploadZipAsFileset_Ok in Hrun
      as (st' & cas1' & cd' & resolved' & processed' & cas2' & _ & Hstream' & Hcd'
          & Hres' & _ & ->).
    rewrite Hstream in Hstream'. rewrite Hcd in Hcd'. simplify_eq.
    rewrite Hres in Hres'. simplify_eq.
    cbn [manifest filesetId makeManifest Fileset.files Fileset.fileset_id
         Fileset.file_count Fileset.total_bytes Fileset.schema].
    set (start := emptyFinal _).
    set (files := sort byPath _).
    split; [done|]. split; [done|]. split.
    { unfold filesetIdOf, canonical. rewrite join_nil. done. }
    split; [apply sort_Permutation|]. split; [|done].
    intros Htotal Htrans i j a b.
    apply (StronglySorted_lookup (fun a b => byPath a b <= 0)).
    apply sort_StronglySorted.
    + intros x y. apply Htotal.
    + intros x y z. apply Htrans.
  - intros updateRef limits cas Hcap Hname.
    destruct (emptyArchive_ingest updateRef limits cas Hcap Hname) as [cas' Hrun].
    eexists _, _. split; [exact Hrun|]. done.
Qed.

End Manifest.
End ManifestFacts.

(* ================================================================== *)
(** * Manifests, refs and failure *)
(* ================================================================== *)

Module AtomicityFacts.
Import JS Props Cas CasFs Upload UploadMonad UploadFacts.

Section Atomicity.
Context `{Runtime}.

Lemma uploadZipAsFileset_prepare req updateRef limits cas :
  uploadZipAsFileset req updateRef limits cas =
  match prepare req limits cas with
  | (cas2, Ok m) =>
      match commitFileset m updateRef cas2 with
      | (cas', Ok _) =>
          (cas', Ok {| filesetId := m.(Fileset.fileset_id); manifest := m;
                       updatedRef := updateRef |})
      | (cas', Err e) => (cas', Err e)
      end
  | (cas2, Err e) => (cas2, Err e)
  end.
Proof.
  unfold uploadZipAsFileset, prepare. cbv zeta. rewrite !bind_run.
  fold (initialStream (Spool.pass (Spool.teeToSpool req limits.(maxZipBytes)))).
  destruct (streamingPhase _ _ _ cas) as [cas1 [st|e]]; [|done].
  rewrite !bind_run.
  destruct (lift (Spool.spoolDone _) cas1) as [cas0 [spool|e]]; [|done].
  rewrite !bind_run.
  destruct (lift (CentralDirectory.readCentralDirectory spool) cas0)
    as [cas1' [cd|e]]; [|done].
  rewrite !bind_run. unfold emptyFinal.
  destruct (reconcile _ _ _ _ cas1') as [cas2 [rs|e]]; [|done].
  rewrite mret_run, bind_run.
  destruct (commitFileset _ _ cas2) as [cas3 [[]|e]]; done.
Qed.

Lemma writesObjectsOnly_prepare req limits : writesObjectsOnly (prepare req limits).
Proof.
  unfold prepare. cbv zeta.
  objects_only_using
    ltac:(first [apply writesObjectsOnly_streamingPhase
                | apply writesObjectsOnly_reconcile]).
Qed.

Lemma commitFileset_run m updateRef cas :
  let stored := storeFilesetManifest m.(Fileset.fileset_id) m cas in
  commitFileset m updateRef cas =
  match truthy updateRef with
  | None => (stored, Ok tt)
  | Some name =>
      match writeRef name m.(Fileset.fileset_id) stored with
      | (cas', None) => (cas', Ok tt)
      | (cas', Some e) => (cas', Err e)
      end
  end.
Proof.
  intros stored. unfold commitFileset. rewrite bind_run. unfold storeManifest.
  fold stored. destruct (truthy updateRef); [|done]. unfold updateRefTo.
  by destruct (writeRef _ _ stored) as [cas' [e|]].
Qed.

(** The write of a ref under a plain name: it succeeds or leaves the store
    as it was; when it succeeds, the ref holds the id, the file [name.tmp]
    is gone, and nothing else has changed. *)
Lemma writeRef_plain name id cas cas' r :
  plainName name = true ->
  writeRef name id cas = (cas', r) ->
  match r with
  | None =>
      cas'.(objects) = cas.(objects)
      /\ cas'.(filesets) = cas.(filesets)
      /\ cas'.(refs) = <[ name := id ]> (delete (name ++ str ".tmp") cas.(refs))
  | Some _ => cas' = cas
  end.
Proof.
  intros Hplain. unfold writeRef. rewrite Hplain.
  destruct (includesUnit NUL name); [by intros [= <- <-]|].
  destruct (refNameRefused name); by intros [= <- <-].
Qed.

Lemma storeFilesetManifest_refsResolve id m cas :
  refsResolve cas -> refsResolve (storeFilesetManifest id m cas).
Proof.
  intros Hinv name id' Hname. cbn in *.
  destruct (decide (id' = id)) as [->|Hne].
  - rewrite lookup_insert_eq. by eexists.
  - rewrite lookup_insert_ne by done. by eapply Hinv.
Qed.

Lemma writeRef_refsResolve name id cas cas' r :
  plainName name = true ->
  writeRef name id cas = (cas', r) ->
  is_Some (cas.(filesets) !! id) -> refsResolve cas -> refsResolve cas'.
Proof.
  intros Hplain Hwrite Hid Hinv.
  apply (writeRef_plain _ _ _ _ _ Hplain) in Hwrite.
  destruct r as [e|]; [by subst|].
  destruct Hwrite as (_ & Hf & Hr). intros name' id'. rewrite Hf, Hr.
  destruct (decide (name' = name)) as [->|Hne].
  - rewrite lookup_insert_eq. intros Heq. by simplify_eq.
  - rewrite lookup_insert_ne by done. intros Hlook.
    apply lookup_delete_Some in Hlook as [_ Hlook]. by eapply Hinv.
Qed.

(** An ingest under a plain ref name, or under none, keeps every ref
    pointing at a stored manifest. *)
Lemma uploadZipAsFileset_refsResolve req updateRef limits cas :
  (forall name, truthy updateRef = Some name -> plainName name = true) ->
  refsResolve cas -> refsResolve (uploadZipAsFileset req updateRef limits cas).1.
Proof.
  intros Hplain Hinv. rewrite uploadZipAsFileset_prepare.
  destruct (prepare req limits cas) as [cas2 [m|e]] eqn:Hprep;
    apply writesObjectsOnly_prepare in Hprep as [Hf Hr].
  2:{ intros name id. cbn. rewrite Hf, Hr. apply Hinv. }
  assert (Hinv2 : refsResolve cas2).
  { intros name id. rewrite Hf, Hr. apply Hinv. }
  rewrite commitFileset_run. cbn zeta.
  pose proof (storeFilesetManifest_refsResolve m.(Fileset.fileset_id) m cas2 Hinv2)
    as Hstored.
  destruct (truthy updateRef) as [name|]; [|done].
  destruct (writeRef name _ _) as [cas3 r] eqn:Hwrite.
  assert (Hinv3 : refsResolve cas3).
  { eapply writeRef_refsResolve; [by apply Hplain|exact Hwrite| |exact Hstored].
    cbn. rewrite lookup_insert_eq. by eexists. }
  by destruct r.
Qed.

(** C4, as amended.  [prepare] is the ingest up to its commit; it writes
    objects only.
    - An ingest that fails has either failed before its commit, and then
      manifests and refs are as they were, or in the write of its ref, made
      on the store that already holds its manifest.
    - There is no rollback: when the write of the ref throws, the ingest
      throws the same error and leaves the store as that write left it, the
      manifest stored; for a plain ref name that is the store with the
      manifest added and the refs as they were.
    - An ingest that succeeds has stored its manifest and then written its
      ref, if any, on the store that holds the manifest; for a plain name
      the manifests are those before and the new one, and the refs those
      before with the new one, less the file [name.tmp].
    - Under a plain ref name, or none, a store in which every ref points at
      a stored manifest stays so, whatever the outcome. *)
Theorem ingest_atomicity req updateRef limits cas :
  let run := uploadZipAsFileset req updateRef limits cas in
  let stored := fun (m : Fileset.Manifest) cas2 =>
    storeFilesetManifest m.(Fileset.fileset_id) m cas2 in
  (forall cas' e, run = (cas', Err e) ->
     (cas'.(filesets) = cas.(filesets) /\ cas'.(refs) = cas.(refs))
     \/ exists m cas2 name,
          prepare req limits cas = (cas2, Ok m)
          /\ truthy updateRef = Some name
          /\ writeRef name m.(Fileset.fileset_id) (stored m cas2) = (cas', Some e))
  /\ (forall m cas2 name cas3 e,
        prepare req limits cas = (cas2, Ok m) ->
        truthy updateRef = Some name ->
        writeRef name m.(Fileset.fileset_id) (stored m cas2) = (cas3, Some e) ->
        run = (cas3, Err e)
        /\ (plainName name = true ->
            cas3.(filesets) = <[ m.(Fileset.fileset_id) := m ]> cas.(filesets)
            /\ cas3.(refs) = cas.(refs)))
  /\ (forall cas' res, run = (cas', Ok res) ->
      exists cas2,
        prepare req limits cas = (cas2, Ok res.(manifest))
        /\ res.(filesetId) = res.(manifest).(Fileset.fileset_id)
        /\ match truthy updateRef with
           | None => cas' = stored res.(manifest) cas2
           | Some name =>
               writeRef name res.(filesetId) (stored res.(manifest) cas2)
               = (cas', None)
               /\ (plainName name = true ->
                   cas'.(filesets)
                   = <[ res.(filesetId) := res.(manifest) ]> cas.(filesets)
                   /\ cas'.(refs)
                      = <[ name := res.(filesetId) ]>
                          (delete (name ++ str ".tmp") cas.(refs)))
           end)
  /\ ((forall name, truthy updateRef = Some name -> plainName name = true) ->
      refsResolve cas -> refsResolve run.1).
Proof.
  intros run stored. subst run.
  split; [|split; [|split]]; cycle 3.
  { apply uploadZipAsFileset_refsResolve. }
  all: rewrite uploadZipAsFileset_prepare;
    destruct (prepare req limits cas) as [cas2 [m|e]] eqn:Hprep;
    pose proof (writesObjectsOnly_prepare _ _ _ _ _ Hprep) as [Hf Hr];
    try rewrite commitFileset_run; cbn zeta; try fold (stored m cas2).
  - (* failure, after the manifest was computed *)
    intros cas' e' Hrun. destruct (truthy updateRef) as [name|] eqn:Htruthy; [|done].
    destruct (writeRef name _ _) as [cas3 [e|]] eqn:Hwrite; [|done].
    injection Hrun as <- <-. right. by exists m, cas2, name.
  - (* failure, before it *)
    intros cas' e' [= <- <-]. by left.
  - (* no rollback *)
    intros m' cas2' name cas3 e [= <- <-] -> Hwrite. rewrite Hwrite.
    split; [done|]. intros Hplain.
    apply (writeRef_plain _ _ _ _ _ Hplain) in Hwrite as ->. cbn.
    by rewrite Hf, Hr.
  - intros m' cas2' name cas3 e' [=].
  - (* success *)
    intros cas' res Hrun. exists cas2.
    destruct (truthy updateRef) as [name|] eqn:Htruthy.
    + destruct (writeRef name _ _) as [cas3 [e|]] eqn:Hwrite; [done|].
      injection Hrun as <- <-. cbn [filesetId manifest].
      split; [done|]. split; [done|]. split; [done|]. intros Hplain.
      apply (writeRef_plain _ _ _ _ _ Hplain) in Hwrite as (_ & -> & ->). cbn.
      by rewrite Hf, Hr.
    + injection Hrun as <- <-. done.
  - intros cas' res [=].
Qed.

(** Under a plain [update_ref], or none, the handler keeps the invariant
    that every ref points at a stored manifest: only the ingest writes the
    store, and it stores the manifest before the ref. *)
Lemma server_refsResolve req cas :
  (forall name, req.(Server.update_ref) = Some name ->
     name = [] \/ plainName name = true) ->
  refsResolve cas -> refsResolve (Server.server req cas).1.
Proof.
  intros Hplain Hinv. unfold Server.server.
  repeat (case_match; try done).
  unfold Server.postFilesets in *.
  assert (Hname : forall name,
            truthy (if streq (default (str "latest") req.(Server.update_ref)) []
                    then None
                    else Some (default (str "latest") req.(Server.update_ref)))
            = Some name -> plainName name = true).
  { intros name. destruct req.(Server.update_ref) as [given|] eqn:Hgiven; cbn.
    - destruct (Hplain given eq_refl) as [->|Hgiven']; [done|].
      destruct (streq given []); [done|]. destruct given; [done|].
      by intros [= <-].
    - by intros [= <-]. }
  repeat (case_match; simplify_eq; try done);
    match goal with
    | Hrun : uploadZipAsFileset ?req ?ref ?limits ?cas = _ |- _ =>
        pose proof (uploadZipAsFileset_refsResolve req ref limits cas Hname Hinv)
          as Hkeep;
        by rewrite Hrun in Hkeep
    end.
Qed.

End Atomicity.

(** C4, the claim as stated fails: the write of the ref throws and the
    ingest fails, after the manifest has been stored.  The empty archive,
    whose fileset id is the digest of 'v', '1', NUL; a ref name that holds a
    NUL, which [writeFile] rejects; and the ref name "a/b" on a store whose
    [refs/] has no directory "a". *)
Lemma failed_ingest_leaves_manifest :
  let id := Reference.hexOf [118; 49; 0] in
  let nul := @uploadZipAsFileset Reference.runtime Reference.emptyArchive
               (Some [NUL]) Reference.limits emptyStore in
  let nested := @uploadZipAsFileset Reference.runtime Reference.emptyArchive
                  (Some (str "a/b")) Reference.limits emptyStore in
  (nul.2 = Err ERR_INVALID_ARG_VALUE
   /\ is_Some (nul.1.(filesets) !! id)
   /\ nul.1.(refs) = ∅)
  /\ (nested.2 = Err ENOENT
      /\ is_Some (nested.1.(filesets) !! id)
      /\ nested.1.(refs) = ∅).
Proof.
  split; (split; [vm_compute; reflexivity|]; split; [|vm_compute; reflexivity]);
    vm_compute; by eexists.
Qed.

(** The archive of "hello.txt" ingested under the ref "latest" into the
    empty store: the store holds the manifest under its id and the ref
    "latest" with that id, and nothing else. *)
Lemma ingest_atomicity_witness :
  exists cas' res,
    @uploadZipAsFileset Reference.runtime Reference.helloArchive
      (Some (str "latest")) Reference.limits emptyStore = (cas', Ok res)
    /\ cas'.(filesets) = {[ res.(filesetId) := res.(manifest) ]}
    /\ cas'.(refs) = {[ str "latest" := res.(filesetId) ]}.
Proof.
  destruct (@uploadZipAsFileset Reference.runtime Reference.helloArchive
              (Some (str "latest")) Reference.limits emptyStore)
    as [cas' [res|e]] eqn:Hrun; [|vm_compute in Hrun; discriminate Hrun].
  exists cas', res. split; [done|].
  destruct (@ingest_atomicity Reference.runtime Reference.helloArchive
              (Some (str "latest")) Reference.limits emptyStore)
    as (_ & _ & Hok & _).
  destruct (Hok cas' res Hrun) as (cas2 & _ & _ & _ & Hplain).
  destruct (Hplain eq_refl) as [-> ->]. split; [done|].
  cbn [emptyStore refs]. by rewrite delete_empty.
Defined.

(** The upload request writes the ref "latest" into the empty store, and
    the ref resolves. *)
Lemma server_refsResolve_witness :
  let cas' := (@Server.server Reference.runtime Reference.uploadRequest emptyStore).1 in
  is_Some (cas'.(refs) !! str "latest") /\ refsResolve cas'.
Proof.
  split; [vm_compute; by eexists|].
  apply (@server_refsResolve Reference.runtime Reference.uploadRequest emptyStore).
  - intros name Hname. discriminate Hname.
  - intros name id Hname. vm_compute in Hname. discriminate Hname.
Defined.

End AtomicityFacts.

(* ================================================================== *)
(** * The properties on the archives *)
(* ================================================================== *)

Module ReferenceFacts.
Import JS Props Cas Upload UploadMonad UploadFacts DuplicateFacts ManifestFacts.

Lemma compareUnits_antisym a b : compareUnits b a = CompOpp (compareUnits a b).
Proof.
  revert b. induction a as [|x a IH]; intros [|y b]; cbn; try done.
  rewrite (N.compare_antisym x y). destruct (N.compare x y); cbn; [apply IH|done|done].
Qed.

Lemma collate_total a b : Reference.collate a b <= 0 \/ Reference.collate b a <= 0.
Proof.
  unfold Reference.collate.
  rewrite (compareUnits_antisym (Reference.sortKey a) (Reference.sortKey b)).
  destruct (compareUnits _ _); cbn; lia.
Qed.

Lemma compareUnits_trans a b c :
  compareUnits a b <> Gt -> compareUnits b c <> Gt -> compareUnits a c <> Gt.
Proof.
  revert b c. induction a as [|x a IH]; intros [|y b] [|z c]; cbn; try done.
  destruct (N.compare_spec x y) as [->|Hxy|Hxy]; [| |done].
  - destruct (N.compare_spec y z) as [->|Hyz|Hyz]; [apply IH|done|done].
  - intros _. destruct (N.compare_spec y z) as [->|Hyz|Hyz]; [| |done]; intros _.
    + by rewrite (proj2 (N.compare_lt_iff x z)).
    + by rewrite (proj2 (N.compare_lt_iff x z)) by lia.
Qed.

Lemma collate_trans a b c :
  Reference.collate a b <= 0 -> Reference.collate b c <= 0 -> Reference.collate a c <= 0.
Proof.
  unfold Reference.collate. intros Hab Hbc.
  pose proof (compareUnits_trans (Reference.sortKey a) (Reference.sortKey b)
                (Reference.sortKey c)) as Htrans.
  destruct (compareUnits (Reference.sortKey a) (Reference.sortKey b)); [| |lia];
    (destruct (compareUnits (Reference.sortKey b) (Reference.sortKey c)); [| |lia]);
    (destruct (compareUnits (Reference.sortKey a) (Reference.sortKey c));
      [lia|lia|by exfalso; apply Htrans]).
Qed.

(** C1, the claim as stated fails: the collation puts "a" before "B", the
    code units put "B" before "a". *)
Lemma manifest_files_not_in_code_unit_order :
  manifestPaths (@uploadZipAsFileset Reference.runtime Reference.mixedCaseArchive
                   None Reference.limits emptyStore)
  = [str "a"; str "B"]
  /\ compareUnits (str "a") (str "B") = Gt.
Proof. split; vm_compute; reflexivity. Qed.

(** The manifest of the archive of "B" and "a" is in the order of the
    collation. *)
Lemma manifest_files_sorted_witness :
  match (@uploadZipAsFileset Reference.runtime Reference.mixedCaseArchive
           None Reference.limits emptyStore).2 with
  | Ok res =>
      let files := res.(manifest).(Fileset.files) in
      NoDup (map Fileset.path files)
      /\ (forall i a b,
            files !! i = Some a -> files !! S i = Some b ->
            Reference.collate a.(Fileset.path) b.(Fileset.path) <= 0)
      /\ (forall i j a b,
            (i < j)%nat -> files !! i = Some a -> files !! j = Some b ->
            Reference.collate a.(Fileset.path) b.(Fileset.path) <= 0)
  | Err _ => False
  end.
Proof.
  destruct (@uploadZipAsFileset Reference.runtime Reference.mixedCaseArchive
              None Reference.limits emptyStore) as [cas' [res|e]] eqn:Hrun.
  - exact (@manifest_files_sorted_by_collation Reference.runtime _ _ _ _ _ _
             collate_total collate_trans Hrun).
  - vm_compute in Hrun. discriminate Hrun.
Defined.

(** The archive of "dup.txt" (content "1") and "./dup.txt" (content "2"):
    the manifest holds one entry of path "dup.txt", with the digest and the
    size of the second member, and one warning. *)
Lemma duplicate_paths_witness :
  match (@uploadZipAsFileset Reference.runtime Reference.duplicateArchive
           None Reference.limits emptyStore).2 with
  | Ok res =>
      {| Fileset.path := str "dup.txt";
         Fileset.sha256 := Reference.hexOf (Reference.bytesOf "2");
         Fileset.size := 1 |} ∈ res.(manifest).(Fileset.files)
      /\ length (filter (fun e => e.(Fileset.path) = str "dup.txt")
                   res.(manifest).(Fileset.files)) = 1%nat
      /\ (occurrences (duplicateWarning (str "dup.txt"))
            res.(manifest).(Fileset.warnings) + 1 = 2)%nat
  | Err _ => False
  end.
Proof.
  destruct (@uploadZipAsFileset Reference.runtime Reference.duplicateArchive
              None Reference.limits emptyStore) as [cas' [res|e]] eqn:Hrun;
    [|vm_compute in Hrun; discriminate Hrun].
  cbn [snd].
  destruct (uploadZipAsFileset_Ok _ _ _ _ _ _ Hrun)
    as (st & cas1 & cd & resolved & processed & cas2 & _ & Hstream & Hcd & Hres & _).
  pose proof (@duplicate_paths_last_wins Reference.runtime _ _ _ _ _ _ _ _ _ _ _ _
                Hrun Hstream Hcd Hres) as (_ & _ & Hdup).
  vm_compute in Hstream. injection Hstream as <- <-.
  vm_compute in Hcd. injection Hcd as <-.
  vm_compute in Hres. injection Hres as <- <- <-.
  destruct (Hdup (str "dup.txt")) as (Hone & Hlast & Hwarn & _).
  { vm_compute. left. }
  split; [|split; [exact Hone|exact Hwarn]].
  apply (Hlast [_] _ [] eq_refl). apply not_elem_of_nil.
Defined.

(** The archive of "B" (content "1") and "a" (content "2"): the id is the
    digest of "v1", a NUL, and the lines of "a" and of "B", in this order,
    each with a NUL after the path and after the digest. *)
Lemma fileset_id_canonical_witness :
  match (@uploadZipAsFileset Reference.runtime Reference.mixedCaseArchive
           None Reference.limits emptyStore).2 with
  | Ok res =>
      res.(filesetId)
      = Reference.hexOf
          (Reference.bytesOf "v1" ++ [0]
           ++ Reference.bytesOf "a" ++ [0] ++ Reference.bytesOf "sha256:32"
           ++ [0] ++ Reference.bytesOf "1" ++ [10]
           ++ Reference.bytesOf "B" ++ [0] ++ Reference.bytesOf "sha256:31"
           ++ [0] ++ Reference.bytesOf "1" ++ [10])
  | Err _ => False
  end.
Proof.
  destruct (@uploadZipAsFileset Reference.runtime Reference.mixedCaseArchive
              None Reference.limits emptyStore) as [cas' [res|e]] eqn:Hrun;
    [|vm_compute in Hrun; discriminate Hrun].
  cbn [snd].
  destruct (uploadZipAsFileset_Ok _ _ _ _ _ _ Hrun)
    as (st & cas1 & cd & resolved & processed & cas2 & _ & Hstream & Hcd & Hres & _).
  destruct (proj1 (@fileset_id_canonical Reference.runtime)
              _ _ _ _ _ _ _ _ _ _ _ _ Hrun Hstream Hcd Hres)
    as (Hid & _ & Hdigest & _).
  rewrite Hid, Hdigest.
  vm_compute in Hrun. injection Hrun as _ <-. vm_compute. reflexivity.
Defined.

(** C3, the claim as stated fails: what is hashed is "v1" and a NUL, not
    "v1" and a space, and the fields of a line are parted by NULs.  The
    digest here is the hexadecimal spelling of its input: the empty archive
    has the id of the bytes 'v', '1', NUL, which is not that of "v1 "; and
    the id of the archive of "hello.txt" is not that of "v1 " and the line
    with spaces. *)
Lemma fileset_id_not_of_spaces :
  (exists cas' res,
     @uploadZipAsFileset Reference.runtime Reference.emptyArchive
       None Reference.limits emptyStore = (cas', Ok res)
     /\ res.(filesetId) = Reference.hexOf [118; 49; 0]
     /\ res.(filesetId) <> Reference.hexOf (Reference.bytesOf "v1 "))
  /\ (exists cas' res,
        @uploadZipAsFileset Reference.runtime Reference.helloArchive
          None Reference.limits emptyStore = (cas', Ok res)
        /\ res.(filesetId)
           <> Reference.hexOf
                (Reference.bytesOf "v1 hello.txt sha256:68656c6c6f 5" ++ [10])
        /\ res.(filesetId)
           = Reference.hexOf
               (Reference.bytesOf "v1" ++ [0] ++ Reference.bytesOf "hello.txt"
                ++ [0] ++ Reference.bytesOf "sha256:68656c6c6f" ++ [0]
                ++ Reference.bytesOf "5" ++ [10])).
Proof.
  split; eexists _, _; (split; [vm_compute; reflexivity|]);
    split; vm_compute; (reflexivity || discriminate).
Qed.

End ReferenceFacts.

(* ================================================================== *)
(** * The cap on the number of entries *)
(* ================================================================== *)

Module StreamingFacts.
Import JS Props Cas Upload UploadMonad UploadFacts.

Section Streaming.
Context `{Runtime}.

Lemma streamEntry_entryCount limits hdr st cas cas' st' :
  streamEntry limits hdr st cas = (cas', Ok st') ->
  st'.(entryCount) = st.(entryCount) + 1 /\ st.(entryCount) + 1 <= limits.(maxEntries).
Proof.
  unfold streamEntry. rewrite bind_run, lift_run.
  destruct (limits.(maxEntries) <? st.(entryCount) + 1) eqn:Hcap; [done|].
  apply Z.ltb_ge in Hcap. cbn [throwIf].
  destruct (usesDD hdr && _).
  { rewrite mret_run. intros [= <- <-]. by cbn. }
  rewrite bind_run, lift_run.
  destruct (openRawStream hdr st.(zr)) as [[rawStream q]|e]; [|done].
  rewrite bind_run.
  destruct (processRawToCas rawStream limits cas) as [cas1 [r|e]]; [|done].
  rewrite bind_run, lift_run. destruct (throwIf _ _) as [[]|e]; [|done].
  rewrite bind_run, lift_run. destruct (crossCheck hdr r q) as [q'|e]; [|done].
  rewrite mret_run. intros [= <- <-]. by cbn.
Qed.

Lemma streamEntry_at_cap limits hdr st cas :
  streamEntry (withMaxEntries st.(entryCount) limits) hdr st cas
  = (cas, Err Too_many_entries).
Proof.
  unfold streamEntry. rewrite bind_run, lift_run. cbn [withMaxEntries maxEntries].
  by replace (st.(entryCount) <? st.(entryCount) + 1) with true by lia.
Qed.

(** The loop's own counter ends it: every turn count above the entries still
    allowed runs the same. *)
Lemma streamingPhase_turns turns turns' limits st cas :
  (Z.to_nat (limits.(maxEntries) - st.(entryCount)) < turns)%nat ->
  (Z.to_nat (limits.(maxEntries) - st.(entryCount)) < turns')%nat ->
  streamingPhase turns limits st cas = streamingPhase turns' limits st cas.
Proof.
  revert turns' st cas. induction turns as [|turns IH]; intros turns' st cas Hn Hm; [lia|].
  destruct turns' as [|turns']; [lia|]. cbn [streamingPhase].
  rewrite !bind_run, !lift_run.
  destruct (ZipStream.nextHeader st.(zr)) as [[[hdr|] q]|e]; [|done|done].
  rewrite !bind_run.
  destruct (streamEntry limits hdr _ cas) as [cas1 [st1|e]] eqn:Hentry; [|done].
  apply streamEntry_entryCount in Hentry as [Hcount Hcap]. cbn in Hcount, Hcap.
  apply IH; lia.
Qed.

End Streaming.

(** The archive of "hello.txt", capped at one entry: two turns and five run
    the same. *)
Lemma streamingPhase_turns_witness :
  @streamingPhase Reference.runtime 2 Reference.oneEntry
    (initialStream Reference.helloArchive) emptyStore
  = @streamingPhase Reference.runtime 5 Reference.oneEntry
      (initialStream Reference.helloArchive) emptyStore.
Proof.
  apply (@streamingPhase_turns Reference.runtime 2 5 Reference.oneEntry
           (initialStream Reference.helloArchive) emptyStore).
  - vm_compute. lia.
  - vm_compute. lia.
Defined.

End StreamingFacts.

Module EntryLimitFacts.
Import JS Props Cas Upload UploadMonad UploadFacts.

Lemma sameRun_refl {A} (m : M A) : sameRun m m.
Proof. done. Qed.

Lemma sameRun_bind {A B} (m m' : M A) (f f' : A -> M B) :
  sameRun m m' -> (forall a, sameRun (f a) (f' a)) -> sameRun (m ≫= f) (m' ≫= f').
Proof.
  intros Hm Hf cas. rewrite !bind_run, Hm. destruct (m' cas) as [cas1 [a|e]]; [|done].
  apply Hf.
Qed.

Ltac same_run_using leaf :=
  repeat first
    [ leaf
    | apply sameRun_refl
    | apply sameRun_bind; [|intros ?]
    | match goal with
      | |- sameRun (match ?x with _ => _ end) _ => destruct x
      | |- sameRun (let '(_, _) := ?x in _) _ => destruct x
      end ].

Section EntryLimit.
Context `{Runtime}.

Lemma tap_maxEntries n limits chunks rawSize crc sha :
  tap (withMaxEntries n limits) chunks rawSize crc sha = tap limits chunks rawSize crc sha.
Proof.
  revert rawSize crc sha. induction chunks as [|chunk chunks IH]; intros; [done|].
  cbn [tap]. cbn [withMaxEntries maxFileBytes]. destruct (throwIf _ _); [|done].
  cbn. apply IH.
Qed.

Lemma processRawToCas_maxEntries n limits rawStream :
  processRawToCas rawStream (withMaxEntries n limits) = processRawToCas rawStream limits.
Proof. unfold processRawToCas. by rewrite tap_maxEntries. Qed.

Lemma processEntryFromSpool_maxEntries n limits zipFile off method csize :
  sameRun (processEntryFromSpool zipFile off method csize (withMaxEntries n limits))
          (processEntryFromSpool zipFile off method csize limits).
Proof.
  unfold processEntryFromSpool.
  same_run_using ltac:(rewrite processRawToCas_maxEntries).
Qed.

Lemma resolveEntry_maxEntries n limits zipFile e processed :
  sameRun (resolveEntry zipFile (withMaxEntries n limits) e processed)
          (resolveEntry zipFile limits e processed).
Proof.
  unfold resolveEntry.
  same_run_using ltac:(apply processEntryFromSpool_maxEntries).
Qed.

Lemma reconcile_maxEntries n limits zipFile entries rs :
  sameRun (reconcile zipFile (withMaxEntries n limits) entries rs)
          (reconcile zipFile limits entries rs).
Proof.
  revert rs. induction entries as [|e entries IH]; intros rs; [done|].
  cbn [reconcile]. unfold reconcileEntry.
  same_run_using ltac:(first [apply resolveEntry_maxEntries | apply IH]).
Qed.

(** C10: the cap on entries is checked in the streaming loop only.  A header
    read when the count stands at the cap is refused with 'Too many entries';
    the reconciliation loop runs the same under every cap; and the archive
    whose first member is stored with a data descriptor, ingested under a cap
    of one entry, gives a manifest of two files. *)
Theorem entry_limit_streaming_only :
  (forall limits hdr st cas,
     streamEntry (withMaxEntries st.(entryCount) limits) hdr st cas
     = (cas, Err Too_many_entries))
  /\ (forall n limits zipFile entries rs cas,
        reconcile zipFile (withMaxEntries n limits) entries rs cas
        = reconcile zipFile limits entries rs cas)
  /\ exists cas' res,
       uploadZipAsFileset Reference.descriptorFirstArchive None Reference.oneEntry
         emptyStore
       = (cas', Ok res)
       /\ Reference.oneEntry.(maxEntries) = 1
       /\ res.(manifest).(Fileset.file_count) = 2
       /\ length res.(manifest).(Fileset.files) = 2%nat
       /\ res.(manifest).(Fileset.warnings) = [deferredWarning 0].
Proof.
  split; [intros; apply StreamingFacts.streamEntry_at_cap|].
  split; [intros; apply reconcile_maxEntries|].
  eexists _, _. split.
  { vm_compute. reflexivity. }
  cbn [manifest Fileset.file_count Fileset.files Fileset.warnings].
  match goal with |- context [if ?c then _ else _] => destruct c end;
    repeat split; vm_compute; reflexivity.
Qed.

End EntryLimit.
End EntryLimitFacts.

(* ================================================================== *)
(** * The loops end by their own tests *)
(* ================================================================== *)

Module LoopFacts.
Import JS Buf Props ManifestFacts.

Lemma le_nonneg bs : bytes bs -> 0 <= le bs.
Proof.
  induction 1 as [|b bs Hb _ IH]; cbn [le]; lia.
Qed.

Lemma readUIntLE_nonneg w buf off v :
  bytes buf -> readUIntLE w buf off = Ok v -> 0 <= v.
Proof.
  intros Hbuf. unfold readUIntLE. case_match; [|done]. intros [= <-].
  apply le_nonneg. unfold bytes. by apply Forall_take, Forall_drop.
Qed.

Lemma covers_initial step buf : 1 <= step -> covers step buf 0 (length buf).
Proof. unfold covers. nia. Qed.

Lemma parseExtraZip64Loop_fuel fuel fuel' extra off wantU wantC wantOff :
  bytes extra -> covers 4 extra off fuel -> covers 4 extra off fuel' ->
  CentralDirectory.parseExtraZip64Loop fuel extra off wantU wantC wantOff
  = CentralDirectory.parseExtraZip64Loop fuel' extra off wantU wantC wantOff.
Proof.
  intros Hbytes. unfold covers. revert fuel' off.
  induction fuel as [|fuel IH]; intros [|fuel'] off Hc Hc';
    cbn [CentralDirectory.parseExtraZip64Loop]; [done| | |].
  - destruct (Z.leb_spec (off + 4) (Z.of_nat (length extra))); [lia|done].
  - destruct (Z.leb_spec (off + 4) (Z.of_nat (length extra))); [lia|done].
  - destruct (negb _); [done|].
    destruct (readUInt16LE extra off) as [id|e]; [|done]. cbn [mbind result_bind].
    destruct (readUInt16LE extra (off + 2)) as [sz|e] eqn:Hsz; [|done].
    cbn [mbind result_bind]. apply readUIntLE_nonneg in Hsz; [|done].
    repeat (case_match; try done). apply IH; lia.
Qed.

Lemma parseUnicodePathLoop_fuel fuel fuel' extra off :
  bytes extra -> covers 4 extra off fuel -> covers 4 extra off fuel' ->
  CentralDirectory.parseUnicodePathLoop fuel extra off
  = CentralDirectory.parseUnicodePathLoop fuel' extra off.
Proof.
  intros Hbytes. unfold covers. revert fuel' off.
  induction fuel as [|fuel IH]; intros [|fuel'] off Hc Hc';
    cbn [CentralDirectory.parseUnicodePathLoop]; [done| | |].
  - destruct (Z.leb_spec (off + 4) (Z.of_nat (length extra))); [lia|done].
  - destruct (Z.leb_spec (off + 4) (Z.of_nat (length extra))); [lia|done].
  - destruct (negb _); [done|].
    destruct (readUInt16LE extra off) as [id|e]; [|done]. cbn [mbind result_bind].
    destruct (readUInt16LE extra (off + 2)) as [sz|e] eqn:Hsz; [|done].
    cbn [mbind result_bind]. apply readUIntLE_nonneg in Hsz; [|done].
    repeat (case_match; try done). apply IH; lia.
Qed.

Lemma parseZip64ExtraLoop_fuel fuel fuel' extra off wantC wantU :
  bytes extra -> covers 4 extra off fuel -> covers 4 extra off fuel' ->
  ZipStream.parseZip64ExtraLoop fuel extra off wantC wantU
  = ZipStream.parseZip64ExtraLoop fuel' extra off wantC wantU.
Proof.
  intros Hbytes. unfold covers. revert fuel' off.
  induction fuel as [|fuel IH]; intros [|fuel'] off Hc Hc';
    cbn [ZipStream.parseZip64ExtraLoop]; [done| | |].
  - destruct (Z.leb_spec (off + 4) (Z.of_nat (length extra))); [lia|done].
  - destruct (Z.leb_spec (off + 4) (Z.of_nat (length extra))); [lia|done].
  - destruct (negb _); [done|].
    destruct (readUInt16LE extra off) as [id|e]; [|done]. cbn [mbind result_bind].
    destruct (readUInt16LE extra (off + 2)) as [sz|e] eqn:Hsz; [|done].
    cbn [mbind result_bind]. apply readUIntLE_nonneg in Hsz; [|done].
    repeat (case_match; try done). apply IH; lia.
Qed.

Section Entries.
Context `{Runtime}.

Lemma readEntry_advance cdBuf p e p' :
  bytes cdBuf -> CentralDirectory.readEntry cdBuf p = Ok (e, p') -> p + 46 <= p'.
Proof.
  intros Hbytes. unfold CentralDirectory.readEntry. intros Hrun.
  apply result_bind_Ok in Hrun as (flags & _ & Hrun).
  apply result_bind_Ok in Hrun as (method & _ & Hrun).
  apply result_bind_Ok in Hrun as (crc & _ & Hrun).
  apply result_bind_Ok in Hrun as (csize32e & _ & Hrun).
  apply result_bind_Ok in Hrun as (usize32e & _ & Hrun).
  apply result_bind_Ok in Hrun as (nameLen & Hname & Hrun).
  apply result_bind_Ok in Hrun as (extraLen & Hextra & Hrun).
  apply result_bind_Ok in Hrun as (commentLen & Hcomment & Hrun).
  apply result_bind_Ok in Hrun as (lhoff32 & _ & Hrun).
  cbn zeta in Hrun.
  apply result_bind_Ok in Hrun as ([[usize csize] lhoff] & _ & Hrun).
  apply result_bind_Ok in Hrun as (name & _ & Hrun).
  injection Hrun as _ <-.
  apply readUIntLE_nonneg in Hname, Hextra, Hcomment; try done. lia.
Qed.

(** The turn count of the loop over the central directory is immaterial
    once it covers the buffer: the loop ends by its own test. *)
Lemma readEntries_fuel fuel fuel' cdBuf p entries :
  bytes cdBuf -> covers 46 cdBuf p fuel -> covers 46 cdBuf p fuel' ->
  CentralDirectory.readEntries fuel cdBuf p entries
  = CentralDirectory.readEntries fuel' cdBuf p entries.
Proof.
  intros Hbytes. unfold covers. revert fuel' p entries.
  induction fuel as [|fuel IH]; intros [|fuel'] p entries Hc Hc';
    cbn [CentralDirectory.readEntries]; [done| | |].
  - destruct (Z.leb_spec (p + 46) (Z.of_nat (length cdBuf))); [lia|done].
  - destruct (Z.leb_spec (p + 46) (Z.of_nat (length cdBuf))); [lia|done].
  - destruct (negb _); [done|].
    destruct (readUInt32LE cdBuf p) as [sig|e]; [|done]. cbn [mbind result_bind].
    destruct (negb _); [done|].
    destruct (CentralDirectory.readEntry cdBuf p) as [[e p']|e] eqn:Hentry; [|done].
    cbn [mbind result_bind]. apply readEntry_advance in Hentry; [|done].
    apply IH; lia.
Qed.

End Entries.

(** On the central directory of the archive of "hello.txt", one record of
    55 bytes, the loop reads the one entry in a turn, and reads the same with
    one turn to spare as with the 55 the reader gives it. *)
Lemma readEntries_fuel_witness :
  @CentralDirectory.readEntries Reference.runtime 1 Reference.helloDirectory 0 []
  = @CentralDirectory.readEntries Reference.runtime 55 Reference.helloDirectory 0 []
  /\ exists e,
       @CentralDirectory.readEntries Reference.runtime 55 Reference.helloDirectory 0 []
       = Ok [e]
       /\ e.(CentralDirectory.fileName) = str "hello.txt".
Proof.
  split.
  - apply (@readEntries_fuel Reference.runtime 1 55 Reference.helloDirectory 0 []).
    + apply (bool_decide_unpack _). vm_compute. exact I.
    + unfold covers. vm_compute. reflexivity.
    + unfold covers. vm_compute. reflexivity.
  - eexists. split; [vm_compute; reflexivity|reflexivity].
Defined.

End LoopFacts.

(* ================================================================== *)
(** * The processor *)
(* ================================================================== *)

Module ProcessFacts.
Import JS Props Cas Upload UploadMonad Crc32Facts.

Lemma tap_run limits chunks rawSize crc sha :
  0 <= rawSize <= limits.(maxFileBytes) ->
  tap limits chunks rawSize crc sha =
  if limits.(maxFileBytes) <? rawSize + Z.of_nat (length (concat chunks))
  then Err File_too_large
  else Ok (rawSize + Z.of_nat (length (concat chunks)),
           fold_left Crc32.crc32Update chunks crc,
           sha ++ concat chunks).
Proof.
  revert rawSize crc sha. induction chunks as [|chunk chunks IH]; intros rawSize crc sha Hn.
  - cbn [tap concat length fold_left]. rewrite Z.add_0_r, app_nil_r.
    destruct (Z.ltb_spec limits.(maxFileBytes) rawSize); [lia|done].
  - cbn [tap concat fold_left]. rewrite length_app, Nat2Z.inj_add.
    destruct (Z.ltb_spec limits.(maxFileBytes) (rawSize + Z.of_nat (length chunk)))
      as [Hover|Hfits]; cbn [throwIf mbind result_bind].
    + destruct (Z.ltb_spec limits.(maxFileBytes)
                  (rawSize + (Z.of_nat (length chunk)
                              + Z.of_nat (length (concat chunks))))); [done|lia].
    + rewrite IH by lia. rewrite Z.add_assoc, <- app_assoc. done.
Qed.

Section Process.
Context `{Runtime}.

(** [processRawToCas] on a stream of chunks, for a cap that is not
    negative: it throws 'File too large', and commits nothing, exactly when
    the chunks together are longer than the cap; otherwise it commits the
    object under the digest of all the bytes and returns that digest, their
    number and their CRC-32, whatever the chunking. *)
Theorem processRawToCas_whole rawStream limits cas :
  0 <= limits.(maxFileBytes) ->
  let data := concat rawStream in
  processRawToCas rawStream limits cas =
  if limits.(maxFileBytes) <? Z.of_nat (length data)
  then (cas, Err File_too_large)
  else (commitTempObject (sha256hex data) cas,
        Ok {| sha256 := sha256hex data;
              size := Z.of_nat (length data);
              crc32 := Crc32.crc32Update 0 data |}).
Proof.
  intros Hcap data. unfold processRawToCas.
  rewrite bind_run, lift_run, tap_run by lia. rewrite Z.add_0_l. fold data.
  destruct (limits.(maxFileBytes) <? Z.of_nat (length data)); [done|].
  cbn [app]. rewrite bind_run. unfold commit. rewrite mret_run.
  rewrite fold_crc32Update_concat by lia. fold data.
  rewrite ushr_shiftr by lia. rewrite Z.shiftr_0_r.
  rewrite ToUint32_small by apply crc32Update_u32. done.
Qed.

End Process.

(** Two chunks of three and two bytes under a cap of five. *)
Lemma processRawToCas_whole_witness :
  @processRawToCas Reference.runtime [[104; 101; 108]; [108; 111]] Reference.limits emptyStore
  = (Reference.helloStore, Ok Reference.helloResult).
Proof.
  rewrite (@processRawToCas_whole Reference.runtime [[104; 101; 108]; [108; 111]]
             Reference.limits emptyStore); [|vm_compute; discriminate].
  vm_compute. reflexivity.
Defined.

End ProcessFacts.

(* ================================================================== *)
(** * The manifest, the store and the central directory *)
(* ================================================================== *)

Module IntegrityFacts.
Import JS JSFacts Props Cas Upload UploadMonad UploadFacts DuplicateFacts.

Lemma keepsObjects_lift {A} (r : result A) : keepsObjects (lift r).
Proof. intros cas cas' r' Heq. unfold lift in Heq. by simplify_eq. Qed.

Lemma keepsObjects_mret {A} (a : A) : keepsObjects (mret a : M A).
Proof. intros cas cas' r' Heq. cbv in Heq. by simplify_eq. Qed.

Lemma keepsObjects_commit sha : keepsObjects (commit sha).
Proof. intros cas cas' r' Heq. unfold commit in Heq. simplify_eq. cbn. set_solver. Qed.

Lemma keepsObjects_bind {A B} (m : M A) (f : A -> M B) :
  keepsObjects m -> (forall a, keepsObjects (f a)) -> keepsObjects (m ≫= f).
Proof.
  intros Hm Hf cas cas' r Heq. rewrite bind_run in Heq.
  destruct (m cas) as [cas1 [a|e]] eqn:Hrun.
  - apply Hm in Hrun. apply Hf in Heq. set_solver.
  - apply Hm in Hrun. by simplify_eq.
Qed.

Ltac keeps_objects_using leaf :=
  repeat first
    [ leaf
    | apply keepsObjects_lift
    | apply keepsObjects_mret
    | apply keepsObjects_commit
    | apply keepsObjects_bind; [|intros ?]
    | match goal with
      | |- keepsObjects (match ?x with _ => _ end) => destruct x
      | |- keepsObjects (let '(_, _) := ?x in _) => destruct x
      end ].

Lemma allStored_mono processed cas cas' :
  cas.(objects) ⊆ cas'.(objects) -> allStored processed cas -> allStored processed cas'.
Proof. intros Hsub Hall k r Hk. apply Hsub. by apply (Hall k r). Qed.

Lemma allStored_insert processed cas k r :
  r.(sha256) ∈ cas.(objects) -> allStored processed cas ->
  allStored (<[ k := r ]> processed) cas.
Proof. intros Hr Hall. by apply map_Forall_insert_2. Qed.

(** Every entry of the final list was recorded from a resolved entry, or
    stood in the list before. *)
Lemma recordFinal_from fs p r e :
  e ∈ (recordFinal p r fs).(finalEntries) ->
  e ∈ fs.(finalEntries) \/ e = fileEntry p r.
Proof.
  unfold recordFinal. destruct (fs.(seenPaths) !! p) as [idx|]; cbn [finalEntries].
  - intros Hin. apply list_elem_of_lookup in Hin as [i Hi].
    apply list_lookup_insert_Some in Hi as [(_ & <- & _)|[_ Hi]]; [by right|].
    left. by eapply list_elem_of_lookup_2.
  - intros Hin. apply elem_of_app in Hin as [Hin|Hin]; [by left|].
    apply list_elem_of_singleton in Hin. by right.
Qed.

Lemma recordAll_from resolved fs e :
  e ∈ (recordAll resolved fs).(finalEntries) ->
  e ∈ fs.(finalEntries) \/ exists p r, (p, r) ∈ resolved /\ e = fileEntry p r.
Proof.
  revert fs. induction resolved as [|[p r] resolved IH]; intros fs Hin; [by left|].
  change (recordAll ((p, r) :: resolved) fs)
    with (recordAll resolved (recordFinal p r fs)) in Hin.
  apply IH in Hin as [Hin|(p' & r' & Hin & ->)].
  - apply recordFinal_from in Hin as [Hin| ->]; [by left|].
    right. exists p, r. split; [left|done].
  - right. exists p', r'. split; [by right|done].
Qed.

Section Integrity.
Context `{Runtime}.

Lemma keepsObjects_processRawToCas rawStream limits :
  keepsObjects (processRawToCas rawStream limits).
Proof. unfold processRawToCas. keeps_objects_using fail. Qed.

Lemma keepsObjects_processEntryFromSpool zipFile off method csize limits :
  keepsObjects (processEntryFromSpool zipFile off method csize limits).
Proof.
  unfold processEntryFromSpool.
  keeps_objects_using ltac:(apply keepsObjects_processRawToCas).
Qed.

Lemma keepsObjects_streamEntry limits hdr st : keepsObjects (streamEntry limits hdr st).
Proof.
  unfold streamEntry. keeps_objects_using ltac:(apply keepsObjects_processRawToCas).
Qed.

Lemma keepsObjects_streamingPhase turns limits st :
  keepsObjects (streamingPhase turns limits st).
Proof.
  revert st. induction turns as [|turns IH]; intros st; cbn [streamingPhase].
  - apply keepsObjects_lift.
  - keeps_objects_using ltac:(first [apply keepsObjects_streamEntry | apply IH]).
Qed.

Lemma keepsObjects_resolveEntry zipFile limits e processed :
  keepsObjects (resolveEntry zipFile limits e processed).
Proof.
  unfold resolveEntry.
  keeps_objects_using ltac:(apply keepsObjects_processEntryFromSpool).
Qed.

Lemma keepsObjects_resolveAll zipFile limits entries processed :
  keepsObjects (resolveAll zipFile limits entries processed).
Proof.
  revert processed. induction entries as [|e entries IH]; intros processed;
    cbn [resolveAll].
  - apply keepsObjects_mret.
  - keeps_objects_using ltac:(first [apply keepsObjects_resolveEntry | apply IH]).
Qed.

Lemma keepsObjects_reconcile zipFile limits entries rs :
  keepsObjects (reconcile zipFile limits entries rs).
Proof.
  revert rs. induction entries as [|e entries IH]; intros rs; cbn [reconcile].
  - apply keepsObjects_mret.
  - unfold reconcileEntry.
    keeps_objects_using ltac:(first [apply keepsObjects_resolveEntry | apply IH]).
Qed.

Lemma keepsObjects_commitFileset m updateRef : keepsObjects (commitFileset m updateRef).
Proof.
  intros cas cas' r. unfold commitFileset, storeManifest, updateRefTo.
  rewrite bind_run. destruct (truthy updateRef) as [name|].
  - unfold CasFs.writeRef. destruct (includesUnit NUL name); [by intros [= <- _]|].
    destruct (plainName name).
    + destruct (refNameRefused name); by intros [= <- _].
    + destruct (writeRefElsewhere _ _ _) as [cas'' [e|]]; intros [= <- _]; cbn;
        set_solver.
  - rewrite mret_run. intros. by simplify_eq.
Qed.

Lemma processRawToCas_stored rawStream limits cas cas' r :
  processRawToCas rawStream limits cas = (cas', Ok r) -> r.(sha256) ∈ cas'.(objects).
Proof.
  unfold processRawToCas. intros Hrun.
  apply bind_Ok in Hrun as ([[rawSize crc] sha] & cas1 & Htap & Hrun).
  apply bind_Ok in Hrun as ([] & cas2 & Hcommit & Hrun).
  rewrite mret_run in Hrun. unfold commit in Hcommit. simplify_eq. cbn. set_solver.
Qed.

Lemma processEntryFromSpool_stored zipFile off method csize limits cas cas' r :
  processEntryFromSpool zipFile off method csize limits cas = (cas', Ok r) ->
  r.(sha256) ∈ cas'.(objects).
Proof.
  unfold processEntryFromSpool. intros Hrun.
  apply bind_Ok in Hrun as (h & cas1 & _ & Hrun).
  apply bind_Ok in Hrun as (sig & cas2 & _ & Hrun).
  apply bind_Ok in Hrun as ([] & cas3 & _ & Hrun).
  apply bind_Ok in Hrun as (nameLen & cas4 & _ & Hrun).
  apply bind_Ok in Hrun as (extraLen & cas5 & _ & Hrun).
  cbn zeta in Hrun.
  apply bind_Ok in Hrun as ([] & cas6 & _ & Hrun).
  apply bind_Ok in Hrun as (rs & cas7 & _ & Hrun).
  destruct (method =? 0); [by eapply processRawToCas_stored|].
  destruct (method =? 8); [|done].
  apply bind_Ok in Hrun as (raw & cas8 & _ & Hrun).
  by eapply processRawToCas_stored.
Qed.

Lemma streamEntry_allStored limits hdr st cas cas' st' :
  streamEntry limits hdr st cas = (cas', Ok st') ->
  allStored st.(processed) cas -> allStored st'.(processed) cas'.
Proof.
  intros Hrun Hall.
  pose proof (keepsObjects_streamEntry limits hdr st cas cas' _ Hrun) as Hsub.
  unfold streamEntry in Hrun.
  apply bind_Ok in Hrun as ([] & cas0 & Hcap & Hrun).
  destruct (usesDD hdr && (hdr.(ZipStream.method) =? 0)).
  - rewrite mret_run in Hrun. simplify_eq. cbn. by eapply allStored_mono.
  - apply bind_Ok in Hrun as ([rawStream q] & cas1 & Hraw & Hrun).
    apply bind_Ok in Hrun as (r & cas2 & Hproc & Hrun).
    apply bind_Ok in Hrun as ([] & cas3 & Htot & Hrun).
    apply bind_Ok in Hrun as (q' & cas4 & Hcross & Hrun).
    rewrite mret_run in Hrun. unfold lift in *. simplify_eq. cbn.
    apply allStored_insert; [by eapply processRawToCas_stored|].
    by eapply allStored_mono.
Qed.

Lemma streamingPhase_allStored turns limits st cas cas' st' :
  streamingPhase turns limits st cas = (cas', Ok st') ->
  allStored st.(processed) cas -> allStored st'.(processed) cas'.
Proof.
  revert st cas. induction turns as [|turns IH]; intros st cas Hrun Hall;
    cbn [streamingPhase] in Hrun; [done|].
  apply bind_Ok in Hrun as ([hdr q] & cas0 & Hhdr & Hrun).
  unfold lift in Hhdr. simplify_eq.
  destruct hdr as [hdr|].
  - apply bind_Ok in Hrun as (st1 & cas1 & Hentry & Hrun).
    apply (IH _ _ Hrun). by apply (streamEntry_allStored _ _ _ _ _ _ Hentry).
  - rewrite mret_run in Hrun. by simplify_eq.
Qed.

(** What a turn of the reconciliation resolves an entry to: the entry is a
    file, the path is its normalised name, the result has its size and
    checksum and names an object of the store. *)
Lemma resolveEntry_Ok zipFile limits e processed cas cas' resolved processed' :
  resolveEntry zipFile limits e processed cas = (cas', Ok (resolved, processed')) ->
  allStored processed cas ->
  allStored processed' cas'
  /\ match resolved with
     | Some (p, r) =>
         recordedAs e p
         /\ (e.(CentralDirectory.method) = 0 \/ e.(CentralDirectory.method) = 8)
         /\ r.(size) = e.(CentralDirectory.uncompressedSize)
         /\ r.(crc32) = e.(CentralDirectory.crc32)
         /\ r.(sha256) ∈ cas'.(objects)
     | None =>
         e.(CentralDirectory.isDirectory) = true
         \/ ZipPath.normalizeZipPath e.(CentralDirectory.fileName) = Ok []
     end.
Proof.
  intros Hrun Hall.
  pose proof (keepsObjects_resolveEntry zipFile limits e processed cas cas' _ Hrun)
    as Hsub.
  unfold resolveEntry in Hrun.
  destruct e.(CentralDirectory.isDirectory) eqn:Hdir.
  { rewrite mret_run in Hrun. simplify_eq. split; [done|by left]. }
  apply bind_Ok in Hrun as ([] & cas1 & Hmethod & Hrun).
  apply bind_Ok in Hrun as (norm & cas2 & Hnorm & Hrun).
  unfold lift in Hmethod, Hnorm. simplify_eq.
  assert (Hm : e.(CentralDirectory.method) = 0 \/ e.(CentralDirectory.method) = 8).
  { destruct (Z.eqb_spec e.(CentralDirectory.method) 0); [by left|].
    destruct (Z.eqb_spec e.(CentralDirectory.method) 8); [by right|done]. }
  destruct (streq norm []) eqn:Hempty.
  { apply streq_true in Hempty. rewrite mret_run in Hrun. simplify_eq.
    split; [done|by right]. }
  apply streq_false in Hempty.
  destruct (processed !! _) as [r|] eqn:Hkey.
  - apply bind_Ok in Hrun as ([] & cas3 & Hsize & Hrun).
    apply bind_Ok in Hrun as ([] & cas4 & Hcrc & Hrun).
    rewrite mret_run in Hrun. unfold lift in Hsize, Hcrc. simplify_eq.
    split; [done|]. split; [done|]. split; [done|].
    destruct (Z.eqb_spec r.(size) e.(CentralDirectory.uncompressedSize)); [|done].
    destruct (Z.eqb_spec r.(crc32) e.(CentralDirectory.crc32)); [|done].
    split; [done|]. split; [done|]. by apply (Hall _ _ Hkey).
  - apply bind_Ok in Hrun as (r & cas3 & Hspool & Hrun).
    apply bind_Ok in Hrun as ([] & cas4 & Hsize & Hrun).
    apply bind_Ok in Hrun as ([] & cas5 & Hcrc & Hrun).
    rewrite mret_run in Hrun. unfold lift in Hsize, Hcrc. simplify_eq.
    apply processEntryFromSpool_stored in Hspool as Hr.
    split; [apply allStored_insert; [done|by eapply allStored_mono]|].
    split; [done|]. split; [done|].
    destruct (Z.eqb_spec r.(size) e.(CentralDirectory.uncompressedSize)); [|done].
    destruct (Z.eqb_spec r.(crc32) e.(CentralDirectory.crc32)); [|done].
    done.
Qed.

Lemma resolveAll_Ok zipFile limits entries processed cas cas' resolved processed' :
  resolveAll zipFile limits entries processed cas = (cas', Ok (resolved, processed')) ->
  allStored processed cas ->
  allStored processed' cas'
  /\ (forall p r, (p, r) ∈ resolved ->
        r.(sha256) ∈ cas'.(objects)
        /\ exists e, e ∈ entries /\ recordedAs e p
                     /\ r.(size) = e.(CentralDirectory.uncompressedSize)
                     /\ r.(crc32) = e.(CentralDirectory.crc32))
  /\ (forall e p, e ∈ entries -> recordedAs e p -> p ∈ map fst resolved).
Proof.
  revert processed cas resolved. induction entries as [|e entries IH];
    intros processed cas resolved Hrun Hall; cbn [resolveAll] in Hrun.
  { rewrite mret_run in Hrun. simplify_eq. split; [done|]. split.
    - intros p r Hin. by apply elem_of_nil in Hin.
    - intros e p Hin. by apply elem_of_nil in Hin. }
  apply bind_Ok in Hrun as ([first processed1] & cas1 & Hfirst & Hrun).
  apply bind_Ok in Hrun as ([more processed2] & cas2 & Hmore & Hrun).
  rewrite mret_run in Hrun. simplify_eq.
  pose proof (keepsObjects_resolveAll _ _ _ _ _ _ _ Hmore) as Hsub.
  apply resolveEntry_Ok in Hfirst as [Hall1 Hfirst]; [|done].
  apply IH in Hmore as (Hall2 & Hmore & Hcover); [|done].
  split; [done|]. split.
  - intros p r Hin.
    assert (Hlater : (p, r) ∈ more ->
              r.(sha256) ∈ cas'.(objects)
              /\ exists e0, e0 ∈ e :: entries /\ recordedAs e0 p
                   /\ r.(size) = e0.(CentralDirectory.uncompressedSize)
                   /\ r.(crc32) = e0.(CentralDirectory.crc32)).
    { intros Hin'. destruct (Hmore p r Hin') as (Hsha & e0 & He0 & Hrest).
      split; [done|]. exists e0. split; [by right|done]. }
    destruct first as [[p0 r0]|]; [|by apply Hlater].
    apply elem_of_cons in Hin as [Heq|Hin]; [|by apply Hlater].
    simplify_eq. destruct Hfirst as (Hrec & _ & Hsize & Hcrc & Hsha).
    split; [by apply Hsub|]. exists e. split; [left|done].
  - intros e0 p Hin Hrec. apply elem_of_cons in Hin as [->|Hin].
    + destruct first as [[p0 r0]|].
      * destruct Hfirst as ((_ & Hnorm0 & _) & _). destruct Hrec as (_ & Hnorm & _).
        rewrite Hnorm in Hnorm0. simplify_eq. cbn. left.
      * destruct Hrec as (Hdir & Hnorm & Hne).
        destruct Hfirst as [Hdir'|Hnorm']; [congruence|].
        rewrite Hnorm in Hnorm'. by simplify_eq.
    + specialize (Hcover e0 p Hin Hrec).
      destruct first as [[p0 r0]|]; [cbn; by right|done].
Qed.

(** The files of the manifest of a successful ingest against the store and
    the central directory: every file names an object of the store, and has
    the normalised name and the size of an entry of the central directory
    that is no directory. *)
Theorem manifest_files_stored req updateRef limits cas cas' res :
  uploadZipAsFileset req updateRef limits cas = (cas', Ok res) ->
  exists cd,
    CentralDirectory.readCentralDirectory req = Ok cd
    /\ forall f, f ∈ res.(manifest).(Fileset.files) ->
         f.(Fileset.sha256) ∈ cas'.(objects)
         /\ exists e, e ∈ cd.(CentralDirectory.entries)
              /\ recordedAs e f.(Fileset.path)
              /\ f.(Fileset.size) = e.(CentralDirectory.uncompressedSize).
Proof.
  intros Hrun.
  apply uploadZipAsFileset_Ok in Hrun
    as (st & cas1 & cd & resolved & processed & cas2 & _ & Hstream & Hcd & Hres
        & Hcommit & ->).
  exists cd. split; [done|]. intros f Hf. cbn [manifest makeManifest Fileset.files] in Hf.
  rewrite sort_Permutation in Hf.
  apply recordAll_from in Hf as [Hf|(p & r & Hin & ->)];
    [by apply elem_of_nil in Hf|].
  apply streamingPhase_allStored in Hstream; [|apply map_Forall_empty].
  apply resolveAll_Ok in Hres as (_ & Hres & _); [|done].
  destruct (Hres p r Hin) as (Hsha & e & He & Hrec & Hsize & _).
  split.
  - apply (keepsObjects_commitFileset _ _ _ _ _ Hcommit). done.
  - exists e. done.
Qed.

(** Every entry of the central directory that is no directory and whose
    name normalises to a path that is not empty has that path in the
    manifest of a successful ingest. *)
Theorem manifest_covers_central_directory req updateRef limits cas cas' res :
  uploadZipAsFileset req updateRef limits cas = (cas', Ok res) ->
  exists cd,
    CentralDirectory.readCentralDirectory req = Ok cd
    /\ forall e p, e ∈ cd.(CentralDirectory.entries) -> recordedAs e p ->
         p ∈ map Fileset.path res.(manifest).(Fileset.files).
Proof.
  intros Hrun.
  apply uploadZipAsFileset_Ok in Hrun
    as (st & cas1 & cd & resolved & processed & cas2 & _ & Hstream & Hcd & Hres
        & Hcommit & ->).
  exists cd. split; [done|]. intros e p He Hrec.
  cbn [manifest makeManifest Fileset.files]. rewrite sort_Permutation.
  apply streamingPhase_allStored in Hstream; [|apply map_Forall_empty].
  apply resolveAll_Ok in Hres as (_ & _ & Hcover); [|done].
  apply (ManifestFacts.recordAll_paths_in resolved); [apply indexed_empty|].
  by eapply Hcover.
Qed.

End Integrity.
(** The file of the archive of "hello.txt" names an object of the store. *)
Lemma manifest_files_stored_witness :
  let outcome := @uploadZipAsFileset Reference.runtime Reference.helloArchive None
                   Reference.limits emptyStore in
  match outcome.2 with
  | Ok res =>
      forall f, f ∈ res.(manifest).(Fileset.files) ->
                f.(Fileset.sha256) ∈ outcome.1.(objects)
  | Err _ => False
  end.
Proof.
  intros outcome. subst outcome.
  destruct (@uploadZipAsFileset Reference.runtime Reference.helloArchive None
              Reference.limits emptyStore) as [cas' [res|e]] eqn:Hrun;
    [|vm_compute in Hrun; discriminate Hrun].
  cbn [fst snd]. intros f Hf.
  destruct (@manifest_files_stored Reference.runtime _ _ _ _ _ _ Hrun)
    as (cd & _ & Hfiles).
  by destruct (Hfiles f Hf) as [Hsha _].
Defined.

(** The entry "hello.txt" of the central directory is in the manifest. *)
Lemma manifest_covers_central_directory_witness :
  let outcome := @uploadZipAsFileset Reference.runtime Reference.helloArchive None
                   Reference.limits emptyStore in
  match outcome.2 with
  | Ok res => str "hello.txt" ∈ map Fileset.path res.(manifest).(Fileset.files)
  | Err _ => False
  end.
Proof.
  intros outcome. subst outcome.
  destruct (@uploadZipAsFileset Reference.runtime Reference.helloArchive None
              Reference.limits emptyStore) as [cas' [res|e]] eqn:Hrun;
    [|vm_compute in Hrun; discriminate Hrun].
  cbn [snd].
  destruct (@manifest_covers_central_directory Reference.runtime _ _ _ _ _ _ Hrun)
    as (cd & Hcd & Hcover).
  vm_compute in Hcd. injection Hcd as <-.
  eapply Hcover; [left|]. split; [reflexivity|]. split; [reflexivity|discriminate].
Defined.

End IntegrityFacts.

(* ================================================================== *)
(** * The fallback on an empty entry *)
(* ================================================================== *)

Module FallbackFacts.
Import JS Buf Props Cas Upload UploadMonad.

Lemma createReadStream_empty_range file start :
  exists e, createReadStream file start (start - 1) = Err e.
Proof.
  unfold createReadStream.
  destruct ((start <? 0) || (MAX_SAFE_INTEGER <? start)); [by eexists|].
  cbn [throwIf mbind result_bind].
  destruct ((start - 1 <? 0) || (MAX_SAFE_INTEGER <? start - 1)); [by eexists|].
  cbn [throwIf mbind result_bind].
  destruct (Z.ltb_spec (start - 1) start); [by eexists|lia].
Qed.

Section Fallback.
Context `{Runtime}.

(** The fallback never succeeds on an entry of compressed size 0: the range
    it asks of [createReadStream] ends one byte before it starts, which the
    constructor refuses; the store is left as it was. *)
Theorem processEntryFromSpool_empty zipFile localHeaderOffset method limits cas :
  exists e,
    processEntryFromSpool zipFile localHeaderOffset method 0 limits cas = (cas, Err e).
Proof.
  unfold processEntryFromSpool.
  rewrite bind_run, lift_run. destruct (allocRead _ _ _) as [h|e]; [|by eexists].
  rewrite bind_run, lift_run. destruct (readUInt32LE h 0) as [sig|e]; [|by eexists].
  rewrite bind_run, lift_run. destruct (throwIf _ _) as [[]|e]; [|by eexists].
  rewrite bind_run, lift_run. destruct (readUInt16LE h 26) as [nameLen|e]; [|by eexists].
  rewrite bind_run, lift_run. destruct (readUInt16LE h 28) as [extraLen|e]; [|by eexists].
  cbn zeta. rewrite bind_run, lift_run. destruct (throwIf _ _) as [[]|e]; [|by eexists].
  rewrite bind_run, lift_run.
  replace (localHeaderOffset + 30 + (nameLen + extraLen) + 0 - 1)
    with (localHeaderOffset + 30 + (nameLen + extraLen) - 1) by lia.
  destruct (createReadStream_empty_range zipFile
              (localHeaderOffset + 30 + (nameLen + extraLen))) as [e ->].
  by eexists.
Qed.

End Fallback.
End FallbackFacts.

(* ================================================================== *)
(** * Normalised paths *)
(* ================================================================== *)

Module PathSafetyFacts.
Import JS JSFacts ZipPath Props ZipPathFacts.

Lemma safePart_units part :
  safePart part -> (SLASH ∉ part) /\ (BACKSLASH ∉ part) /\ (NUL ∉ part).
Proof. intros (_ & _ & _ & ? & ? & ?). done. Qed.

Lemma join_elem sep parts part x :
  part ∈ parts -> x ∈ part -> x ∈ join sep parts.
Proof.
  induction parts as [|p parts IH]; intros Hin Hx; [by apply elem_of_nil in Hin|].
  apply elem_of_cons in Hin as [->|Hin].
  - destruct parts; cbn [join]; set_solver.
  - specialize (IH Hin Hx). destruct parts; [by apply elem_of_nil in Hin|].
    cbn [join] in *. set_solver.
Qed.

Lemma join_elem_inv c parts x :
  x ∈ join [c] parts -> x = c \/ exists part, part ∈ parts /\ x ∈ part.
Proof.
  induction parts as [|p parts IH]; intros Hx; [by apply elem_of_nil in Hx|].
  destruct parts as [|p' parts].
  - right. exists p. split; [left|done].
  - cbn [join] in Hx. apply elem_of_app in Hx as [Hx|Hx].
    + right. exists p. split; [left|done].
    + apply elem_of_cons in Hx as [->|Hx]; [by left|].
      destruct (IH Hx) as [->|(part & Hin & Hpart)]; [by left|].
      right. exists part. split; [by right|done].
Qed.

Lemma split_elem c s part x : part ∈ split c s -> x ∈ part -> x ∈ s.
Proof.
  intros Hin Hx. rewrite <- (split_join c s). by eapply join_elem.
Qed.

Lemma replaceAllUnit_absent c d s : c ∉ s -> replaceAllUnit c d s = s.
Proof.
  induction s as [|x s IH]; intros Hc; [done|]. cbn.
  destruct (N.eqb_spec x c) as [->|_]; [set_solver|]. f_equal. apply IH. set_solver.
Qed.

Lemma replaceAllUnit_elem c d s x :
  x ∈ replaceAllUnit c d s -> (x = d \/ x ∈ s) /\ (c <> d -> x <> c).
Proof.
  unfold replaceAllUnit. intros Hx. apply list_elem_of_fmap in Hx as (y & -> & Hy).
  destruct (N.eqb_spec y c) as [->|Hne]; split; try done; [by left|by right].
Qed.

Lemma split_none c s : c ∉ s -> split c s = [s].
Proof.
  induction s as [|x s IH]; intros Hc; [done|]. cbn [split].
  destruct (N.eqb_spec x c) as [->|_]; [set_solver|].
  rewrite IH by set_solver. done.
Qed.

Lemma split_app c p s : c ∉ p -> split c (p ++ c :: s) = p :: split c s.
Proof.
  induction p as [|x p IH]; intros Hc; cbn [app split].
  - by rewrite N.eqb_refl.
  - destruct (N.eqb_spec x c) as [->|_]; [set_solver|].
    rewrite IH by set_solver. done.
Qed.

Lemma split_join_parts c parts :
  parts <> [] -> Forall (fun part => c ∉ part) parts ->
  split c (join [c] parts) = parts.
Proof.
  induction parts as [|p parts IH]; intros Hne Hall; [done|].
  apply Forall_cons in Hall as [Hp Hall]. destruct parts as [|p' parts].
  - cbn [join]. by apply split_none.
  - change (join [c] (p :: p' :: parts)) with (p ++ c :: join [c] (p' :: parts)).
    rewrite split_app by done. f_equal. by apply IH.
Qed.

(** The parts [normalizeZipPath] keeps are safe ones. *)
Lemma normalizeZipPath_parts p q :
  normalizeZipPath p = Ok q ->
  exists parts, q = join (str "/") parts /\ Forall safePart parts.
Proof.
  unfold normalizeZipPath. destruct (includesUnit NUL p) eqn:Hnul; [done|].
  cbn [throwIf mbind result_bind].
  set (replaced := replaceAllUnit BACKSLASH SLASH p).
  set (q0 := stripDotSlash replaced).
  destruct (startsWith (str "/") q0); [done|]. cbn [throwIf mbind result_bind].
  rewrite collectParts_spec. case_bool_decide as Hdots; [done|].
  cbn [app mbind result_bind]. intros [= <-].
  exists (List.filter keepPart (split SLASH q0)). split; [done|].
  apply Forall_forall. intros part Hin.
  apply list_elem_of_In, filter_In in Hin as [Hin Hkeep].
  apply list_elem_of_In in Hin.
  assert (Hq0 : forall x, x ∈ part -> x ∈ replaced).
  { intros x Hx. destruct (stripDotSlash_spec replaced) as (n & Heq & _).
    rewrite Heq. apply elem_of_app. right. by eapply split_elem. }
  unfold keepPart in Hkeep. apply negb_true_iff, orb_false_iff in Hkeep as [He Hd].
  apply streq_false in He, Hd.
  split; [done|]. split; [done|]. split; [by intros ->|].
  split; [by eapply split_no_separator|]. split.
  - intros Hx. apply Hq0, replaceAllUnit_elem in Hx as [_ Hx]. by apply Hx.
  - intros Hx. apply Hq0, replaceAllUnit_elem in Hx as [[Hx|Hx] _]; [done|].
    apply includesUnit_spec in Hx. congruence.
Qed.

(** A path made of safe parts is its own normal form. *)
Lemma normalizeZipPath_normal parts :
  Forall safePart parts ->
  normalizeZipPath (join (str "/") parts) = Ok (join (str "/") parts).
Proof.
  intros Hsafe. set (q := join (str "/") parts).
  assert (Hin : forall x, x ∈ q -> x = SLASH \/ exists part, part ∈ parts /\ x ∈ part).
  { intros x. apply join_elem_inv. }
  assert (Hpart : forall part, part ∈ parts -> safePart part).
  { by apply Forall_forall. }
  unfold normalizeZipPath.
  assert (Hnul : includesUnit NUL q = false).
  { apply not_true_is_false. intros Hx. apply includesUnit_spec, Hin in Hx
      as [Hx|(part & Hp & Hx)]; [done|].
    by apply (proj2 (proj2 (safePart_units part (Hpart part Hp)))). }
  rewrite Hnul. cbn [throwIf mbind result_bind].
  rewrite replaceAllUnit_absent; cycle 1.
  { intros Hx. apply Hin in Hx as [Hx|(part & Hp & Hx)]; [done|].
    by apply (proj1 (proj2 (safePart_units part (Hpart part Hp)))). }
  destruct parts as [|part parts]; [subst q; reflexivity|].
  assert (Hfirst : safePart part) by (apply Hpart; left).
  destruct Hfirst as (Hne & Hdot & Hdots & Hslash & _).
  destruct part as [|a t]; [done|].
  assert (Ha : a <> SLASH) by (intros ->; apply Hslash; left).
  assert (Hshape : exists rest, q = a :: rest
                     /\ (a = DOT -> startsWith [SLASH] rest = false)).
  { subst q. destruct parts as [|p' parts].
    - exists t. split; [done|]. intros ->. destruct t as [|b t]; [reflexivity|].
      cbn [startsWith]. destruct (N.eqb_spec SLASH b) as [<-|_]; [|done].
      exfalso. apply Hslash. right. left.
    - change (join (str "/") ((a :: t) :: p' :: parts))
        with ((a :: t) ++ SLASH :: join (str "/") (p' :: parts)).
      eexists. split; [reflexivity|]. intros ->.
      destruct t as [|b t]; [by exfalso; apply Hdot|].
      cbn [startsWith]. destruct (N.eqb_spec SLASH b) as [<-|_]; [|done].
      exfalso. apply Hslash. right. left. }
  destruct Hshape as (rest & Hq & Hrest).
  assert (Hstrip : stripDotSlash q = q).
  { rewrite Hq. destruct rest as [|b rest]; [done|]. cbn [stripDotSlash].
    destruct (N.eqb_spec a DOT) as [->|_]; [|done].
    specialize (Hrest eq_refl). cbn [startsWith] in Hrest.
    rewrite (N.eqb_sym b SLASH). cbn [andb].
    destruct (N.eqb SLASH b); [done|done]. }
  rewrite Hstrip.
  assert (Habs : startsWith (str "/") q = false).
  { rewrite Hq. change (str "/") with [SLASH]. cbn [startsWith].
    destruct (N.eqb_spec SLASH a) as [<-|_]; [done|done]. }
  rewrite Habs. cbn [throwIf mbind result_bind].
  subst q. rewrite split_join_parts; [|done|]; cycle 1.
  { apply Forall_forall. intros p Hp.
    by apply (proj1 (safePart_units p (Hpart p Hp))). }
  rewrite collectParts_spec. rewrite bool_decide_eq_false_2; cycle 1.
  { intros Hp. by destruct (Hpart _ Hp) as (_ & _ & Hdd & _). }
  cbn [app mbind result_bind]. do 2 f_equal.
  rewrite forallb_filter_id; [done|].
  apply forallb_forall. intros p Hp. apply list_elem_of_In, Hpart in Hp.
  destruct Hp as (He & Hd & _). unfold keepPart.
  apply negb_true_iff, orb_false_iff. split; by apply streq_false.
Qed.

(** What [normalizeZipPath] returns is a relative path: parts joined by
    "/", none of them empty, "." or "..", none holding a slash, a backslash
    or a NUL. *)
Theorem normalizeZipPath_safe p q :
  normalizeZipPath p = Ok q ->
  exists parts,
    q = join (str "/") parts
    /\ Forall safePart parts
    /\ startsWith (str "/") q = false
    /\ (NUL ∉ q) /\ (BACKSLASH ∉ q).
Proof.
  intros Hok. destruct (normalizeZipPath_parts p q Hok) as (parts & -> & Hsafe).
  exists parts. split; [done|]. split; [done|].
  assert (Hpart : forall part, part ∈ parts -> safePart part) by by apply Forall_forall.
  split; [|split].
  - destruct parts as [|[|a t] parts]; [done| |].
    + exfalso. assert (Hn : safePart []) by (apply Hpart; left). by destruct Hn.
    + assert (Hs : safePart (a :: t)) by (apply Hpart; left).
      destruct Hs as (_ & _ & _ & Hslash & _).
      assert (Ha : a <> SLASH) by (intros ->; apply Hslash; left).
      change (str "/") with [SLASH].
      destruct parts; cbn [join app startsWith];
        by destruct (N.eqb_spec SLASH a) as [<-|_].
  - intros Hx. apply join_elem_inv in Hx as [Hx|(part & Hp & Hx)]; [done|].
    by apply (proj2 (proj2 (safePart_units part (Hpart part Hp)))).
  - intros Hx. apply join_elem_inv in Hx as [Hx|(part & Hp & Hx)]; [done|].
    by apply (proj1 (proj2 (safePart_units part (Hpart part Hp)))).
Qed.

(** [normalizeZipPath] is idempotent: a path it returns normalises to
    itself. *)
Theorem normalizeZipPath_idempotent p q :
  normalizeZipPath p = Ok q -> normalizeZipPath q = Ok q.
Proof.
  intros Hok. destruct (normalizeZipPath_parts p q Hok) as (parts & -> & Hsafe).
  by apply normalizeZipPath_normal.
Qed.

Lemma normalizeZipPath_safe_witness :
  exists parts,
    str "a/b.txt" = join (str "/") parts
    /\ Forall safePart parts
    /\ startsWith (str "/") (str "a/b.txt") = false
    /\ (NUL ∉ str "a/b.txt") /\ (BACKSLASH ∉ str "a/b.txt").
Proof.
  apply (normalizeZipPath_safe (str "./a\.\b.txt") (str "a/b.txt")). reflexivity.
Defined.

Lemma normalizeZipPath_idempotent_witness :
  normalizeZipPath (str "a/b.txt") = Ok (str "a/b.txt").
Proof.
  apply (normalizeZipPath_idempotent (str "./a\.\b.txt") (str "a/b.txt")). reflexivity.
Defined.

End PathSafetyFacts.

(* ================================================================== *)
(** * The routes *)
(* ================================================================== *)

Module RoutesFacts.
Import JS JSFacts Props Cas CasFs Upload UploadMonad UploadFacts Server ServerFacts
  AtomicityFacts PathSafetyFacts.

Lemma segment2_route (route id : jsstring) :
  SLASH ∉ route -> SLASH ∉ id ->
  segment2 (SLASH :: route ++ SLASH :: id) = id.
Proof.
  intros Hroute Hid. unfold segment2.
  change (SLASH :: route ++ SLASH :: id) with ([] ++ SLASH :: route ++ SLASH :: id).
  rewrite split_app by set_solver. rewrite split_app by done.
  rewrite split_none by done. done.
Qed.

Section Routes.
Context `{Runtime}.

(** A [GET] under "/filesets/" reaches the manifest lookup. *)
Lemma server_filesets_route req cas id :
  req.(method) = str "GET" -> req.(path) = str "/filesets/" ++ id ->
  id <> [] -> SLASH ∉ id ->
  server req cas =
  match loadFilesetManifest id cas with
  | None => (cas, sendText 404 (str "Not found") [])
  | Some manifest =>
      (cas, sendJson 200 (JsonManifest manifest) [(str "etag", Lit (etagOf id))])
  end.
Proof.
  intros Hm Hp Hne Hslash.
  unfold server, serveOpenApi, serveApiDocsHtml. rewrite Hm, Hp.
  assert (Hget : streq (str "GET") (str "GET") = true) by reflexivity.
  assert (Hpost : streq (str "GET") (str "POST") = false) by reflexivity.
  rewrite Hget, Hpost. cbn [negb andb].
  assert (Hother : forall s, (forall r, s <> str "/f" ++ r) ->
                             streq (str "/filesets/" ++ id) s = false).
  { intros s Hs. apply streq_false. intros Heq. by apply (Hs (str "ilesets/" ++ id)). }
  rewrite !Hother by (intros r; discriminate).
  assert (Hfs : startsWith (str "/filesets/") (str "/filesets/" ++ id) = true).
  { apply startsWith_app. by exists id. }
  rewrite Hfs.
  change (str "/filesets/" ++ id) with (SLASH :: str "filesets" ++ SLASH :: id).
  rewrite segment2_route; [|by vm_compute; inversion 1; set_solver|done].
  apply streq_false in Hne. by rewrite Hne.
Qed.

(** A [GET] under "/refs/" reaches the ref lookup. *)
Lemma server_refs_route req cas name :
  req.(method) = str "GET" -> req.(path) = str "/refs/" ++ name ->
  name <> [] -> SLASH ∉ name ->
  server req cas =
  match readRef name cas with
  | None | Some [] => (cas, sendText 404 (str "Not found") [])
  | Some v => (cas, sendText 200 v [])
  end.
Proof.
  intros Hm Hp Hne Hslash.
  unfold server, serveOpenApi, serveApiDocsHtml. rewrite Hm, Hp.
  assert (Hget : streq (str "GET") (str "GET") = true) by reflexivity.
  assert (Hpost : streq (str "GET") (str "POST") = false) by reflexivity.
  rewrite Hget, Hpost. cbn [negb andb].
  assert (Hother : forall s, (forall r, s <> str "/r" ++ r) ->
                             streq (str "/refs/" ++ name) s = false).
  { intros s Hs. apply streq_false. intros Heq. by apply (Hs (str "efs/" ++ name)). }
  rewrite !Hother by (intros r; discriminate).
  assert (Hfs : startsWith (str "/filesets/") (str "/refs/" ++ name) = false)
    by reflexivity.
  assert (Hob : startsWith (str "/objects/") (str "/refs/" ++ name) = false)
    by reflexivity.
  assert (Hrf : startsWith (str "/refs/") (str "/refs/" ++ name) = true).
  { apply startsWith_app. by exists name. }
  rewrite Hfs, Hob, Hrf.
  change (str "/refs/" ++ name) with (SLASH :: str "refs" ++ SLASH :: name).
  rewrite segment2_route; [|by vm_compute; inversion 1; set_solver|done].
  apply streq_false in Hne. by rewrite Hne.
Qed.

Lemma pathSegment_route s : pathSegment s -> s <> [] /\ SLASH ∉ s.
Proof.
  intros [Hplain _]. unfold plainName in Hplain.
  apply andb_true_iff in Hplain as [Hplain _].
  apply andb_true_iff in Hplain as [Hplain _].
  apply andb_true_iff in Hplain as [Hne Hslash].
  apply negb_true_iff in Hne, Hslash. split; [by apply streq_false|].
  intros Hin. unfold includesUnit in Hslash.
  assert (Hex : existsb (N.eqb SLASH) s = true); [|congruence].
  apply existsb_exists. exists SLASH. split; [by apply list_elem_of_In|].
  apply N.eqb_refl.
Qed.

(** What a successful ingest under a plain ref name, or under none, leaves
    in the store. *)
Lemma uploadZipAsFileset_committed body updateRef limits cas cas' res :
  uploadZipAsFileset body updateRef limits cas = (cas', Ok res) ->
  (forall name, truthy updateRef = Some name -> plainName name = true) ->
  loadFilesetManifest res.(filesetId) cas' = Some res.(manifest)
  /\ forall name, truthy updateRef = Some name ->
       readRef name cas' = Some (trim res.(filesetId)).
Proof.
  rewrite uploadZipAsFileset_prepare. intros Hrun Hplain.
  destruct (prepare body limits cas) as [cas2 [m|e]]; [|done].
  rewrite commitFileset_run in Hrun. cbn zeta in Hrun.
  unfold loadFilesetManifest, readRef.
  destruct (truthy updateRef) as [name|].
  - destruct (writeRef name _ _) as [cas3 [e|]] eqn:Hwrite; [done|].
    injection Hrun as <- <-. cbn [filesetId manifest].
    apply (writeRef_plain _ _ _ _ _ (Hplain name eq_refl)) in Hwrite
      as (_ & -> & ->). cbn. split.
    + by rewrite lookup_insert_eq.
    + intros name' [= <-]. by rewrite lookup_insert_eq.
  - injection Hrun as <- <-. cbn. split; [by rewrite lookup_insert_eq|done].
Qed.

(** After a successful ingest under a plain ref name, or under none, the
    handler serves what was stored: the manifest under the fileset id, with
    its entity tag, and the id, trimmed, under the ref that was updated.
    The id and the name stand in the paths as they are: they are of
    characters that a URL does not encode. *)
Theorem upload_then_fetch body updateRef limits cas cas' res :
  uploadZipAsFileset body updateRef limits cas = (cas', Ok res) ->
  (forall name, truthy updateRef = Some name -> plainName name = true) ->
  let id := res.(filesetId) in
  (forall get,
     get.(method) = str "GET" -> get.(path) = str "/filesets/" ++ id ->
     pathSegment id ->
     server get cas' =
       (cas', sendJson 200 (JsonManifest res.(manifest)) [(str "etag", Lit (etagOf id))]))
  /\ (forall get name,
        truthy updateRef = Some name ->
        get.(method) = str "GET" -> get.(path) = str "/refs/" ++ name ->
        pathSegment name -> trim id <> [] ->
        server get cas' = (cas', sendText 200 (trim id) [])).
Proof.
  intros Hrun Hplain id.
  apply uploadZipAsFileset_committed in Hrun as [Hload Href]; [|done]. split.
  - intros get Hm Hp [Hne Hslash]%pathSegment_route.
    rewrite (server_filesets_route get cas' id Hm Hp Hne Hslash). fold id in Hload.
    by rewrite Hload.
  - intros get name Hname Hm Hp [Hne Hslash]%pathSegment_route Htrim.
    rewrite (server_refs_route get cas' name Hm Hp Hne Hslash).
    rewrite (Href name Hname). fold id. by destruct (trim id).
Qed.

(** Only [POST /filesets] with a ZIP content type writes the store: every
    other request leaves it as it was. *)
Theorem server_writes_by_post_only req cas :
  (server req cas).1 = cas
  \/ (req.(method) = str "POST" /\ req.(path) = str "/filesets"
      /\ includes (str "application/zip") (default [] req.(content_type)) = true).
Proof.
  unfold server.
  destruct (serveOpenApi req); [by left|].
  destruct (serveApiDocsHtml req); [by left|].
  cbn zeta.
  destruct (streq _ _ && streq _ _); [by left|].
  destruct (streq req.(method) (str "POST")) eqn:Hpost;
    [destruct (streq req.(path) (str "/filesets")) eqn:Hpath|]; cbn [andb].
  - apply streq_true in Hpost, Hpath. unfold postFilesets.
    destruct (includes _ _) eqn:Hct; [by right|by left].
  - repeat (case_match; try by left).
  - repeat (case_match; try by left).
Qed.

End Routes.

(** After the archive of "hello.txt" is ingested with the ref "latest",
    [GET /refs/latest] answers the fileset id. *)
Lemma upload_then_fetch_witness :
  let outcome := @uploadZipAsFileset Reference.runtime Reference.helloArchive
                   (Some (str "latest")) Reference.limits emptyStore in
  match outcome.2 with
  | Ok res =>
      @server Reference.runtime Reference.refRequest outcome.1
      = (outcome.1, sendText 200 (trim res.(filesetId)) [])
  | Err _ => False
  end.
Proof.
  intros outcome. subst outcome.
  destruct (@uploadZipAsFileset Reference.runtime Reference.helloArchive
              (Some (str "latest")) Reference.limits emptyStore)
    as [cas' [res|e]] eqn:Hrun; [|vm_compute in Hrun; discriminate Hrun].
  cbn [fst snd].
  assert (Hplain : forall name, truthy (Some (str "latest")) = Some name ->
                                plainName name = true) by by intros name [= <-].
  apply (proj2 (@upload_then_fetch Reference.runtime _ _ _ _ _ _ Hrun Hplain)
           Reference.refRequest (str "latest")); try reflexivity.
  - split; [reflexivity|]. repeat constructor.
  - vm_compute in Hrun. injection Hrun as _ <-. vm_compute. discriminate.
Defined.

End RoutesFacts.

(* ================================================================== *)
(** * Names *)
(* ================================================================== *)

Module NameFacts.
Import JS Buf CentralDirectory Props LoopFacts.

Lemma readUIntLE_inside w buf off :
  0 <= off -> off + Z.of_nat w <= Z.of_nat (length buf) ->
  readUIntLE w buf off = Ok (le (take w (drop (Z.to_nat off) buf))).
Proof.
  intros H0 Hw. unfold readUIntLE.
  destruct (Z.leb_spec 0 off); [|lia].
  destruct (Z.leb_spec (off + Z.of_nat w) (Z.of_nat (length buf))); [done|lia].
Qed.

Lemma parseUnicodePathLoop_total fuel extra off :
  bytes extra -> 0 <= off ->
  exists upath, parseUnicodePathLoop fuel extra off = Ok upath.
Proof.
  intros Hbytes. revert off. induction fuel as [|fuel IH]; intros off Hoff;
    cbn [parseUnicodePathLoop]; [by eexists|].
  destruct (Z.leb_spec (off + 4) (Z.of_nat (length extra))) as [Hin|_];
    cbn [negb]; [|by eexists].
  unfold readUInt16LE, readUInt8.
  rewrite (readUIntLE_inside 2 extra off) by lia. cbn [mbind result_bind].
  destruct (readUIntLE 2 extra (off + 2)) as [sz|e] eqn:Hsz;
    [|by rewrite readUIntLE_inside in Hsz by lia].
  apply readUIntLE_nonneg in Hsz; [|done]. cbn [mbind result_bind].
  destruct (Z.ltb_spec (Z.of_nat (length extra)) (off + 4 + sz)); [by eexists|].
  destruct (_ && (5 <=? sz)) eqn:Hid.
  - apply andb_true_iff in Hid as [_ Hfive]. apply Z.leb_le in Hfive.
    rewrite (readUIntLE_inside 1 extra (off + 4)) by lia. cbn [mbind result_bind].
    destruct (negb _); by eexists.
  - apply IH. lia.
Qed.

Section Names.
Context `{Runtime}.

(** Decoding a name never throws, whatever the name, the flags and the
    extra field: the search for a Unicode path reads inside the extra field,
    and a name that the Shift_JIS decoder rejects falls back to Latin-1. *)
Theorem decodeName_never_throws nameBytes flags extra :
  bytes extra ->
  exists name, decodeName nameBytes flags extra = Ok name.
Proof.
  intros Hbytes. unfold decodeName, parseUnicodePath.
  destruct (parseUnicodePathLoop_total (length extra) extra 0 Hbytes) as [upath ->];
    [lia|]. cbn [mbind result_bind].
  destruct (negb _); [by eexists|]. destruct upath; [by eexists|].
  destruct (decode_shift_jis nameBytes); by eexists.
Qed.

End Names.

(** A name of two bytes above 0x7F, with the UTF-8 flag clear and an extra
    field that holds another record than a Unicode path. *)
Lemma decodeName_never_throws_witness :
  exists name,
    @decodeName Reference.runtime [130; 160] 0 [1; 0; 0; 0] = Ok name.
Proof.
  apply (@decodeName_never_throws Reference.runtime [130; 160] 0 [1; 0; 0; 0]).
  unfold bytes. repeat constructor; lia.
Defined.

End NameFacts.

(* ================================================================== *)
(** * The forward reader *)
(* ================================================================== *)

Module ReaderFacts.
Import JS Buf ZipStream Props LoopFacts ManifestFacts.

Lemma read_Ok n q chunk q' :
  0 <= n -> read n q = Ok (chunk, q') ->
  q.(pending) = chunk ++ q'.(pending)
  /\ Z.of_nat (length chunk) = n
  /\ q'.(consumedTotal) = q.(consumedTotal) + n
  /\ q'.(discarding) = q.(discarding).
Proof.
  intros Hn. unfold read. destruct (Z.eqb_spec n 0) as [->|Hne].
  { intros [= <- <-]. split; [done|]. split; [done|]. split; [lia|done]. }
  destruct (Z.ltb_spec (Z.of_nat (length q.(pending))) n); [done|].
  cbn [throwIf mbind result_bind]. intros [= <- <-]. cbn.
  split; [by rewrite take_drop|]. split; [|done].
  rewrite length_take. lia.
Qed.

(** What [nextHeader] leaves behind.  When it returns a header, the reader
    has consumed the 30 bytes of the fixed header, the name and the extra
    field, and nothing else: it stands at the first byte of the data, and
    the header's offset is the count of bytes consumed before it.  When it
    returns none, the four bytes ahead were no local-header signature and
    the rest of the input is discarded. *)
Theorem nextHeader_consumes q hdr q' :
  bytes q.(pending) ->
  nextHeader q = Ok (hdr, q') ->
  match hdr with
  | Some hdr =>
      exists fixed,
        length fixed = 30%nat
        /\ le (take 4 fixed) = LFH_SIG
        /\ q.(pending) = fixed ++ hdr.(fileNameBytes) ++ hdr.(extra) ++ q'.(pending)
        /\ hdr.(localHeaderOffset) = q.(consumedTotal)
        /\ q'.(consumedTotal)
           = q.(consumedTotal) + 30 + Z.of_nat (length hdr.(fileNameBytes))
             + Z.of_nat (length hdr.(extra))
        /\ (hdr.(method) = 0 \/ hdr.(method) = 8)
  | None =>
      q' = discardFuture q
      /\ (4 <= length q.(pending))%nat
      /\ le (take 4 q.(pending)) <> LFH_SIG
  end.
Proof.
  intros Hbytes. unfold nextHeader. intros Hrun.
  apply result_bind_Ok in Hrun as ([] & Hfour & Hrun).
  unfold ensure in Hfour.
  destruct (Z.ltb_spec (Z.of_nat (length q.(pending))) 4) as [|Hlen]; [done|].
  apply result_bind_Ok in Hrun as (sig & Hsig & Hrun).
  unfold peekU32LE in Hsig.
  apply result_bind_Ok in Hsig as ([] & _ & Hsig).
  unfold readUInt32LE, readUIntLE in Hsig.
  destruct (_ && _) in Hsig; [|done]. injection Hsig as <-.
  rewrite drop_0 in Hrun.
  destruct (_ || _) eqn:Hcd.
  { injection Hrun as <- <-. split; [done|]. split; [lia|].
    intros Heq. rewrite Heq in Hcd. done. }
  destruct (Z.eqb_spec (le (take 4 q.(pending))) LFH_SIG) as [Hlfh|Hlfh]; cbn [negb] in Hrun.
  2:{ injection Hrun as <- <-. split; [done|]. split; [lia|done]. }
  apply result_bind_Ok in Hrun as ([] & _ & Hrun).
  apply result_bind_Ok in Hrun as ([h q1] & Hread & Hrun).
  apply read_Ok in Hread as (Hp1 & Hl1 & Hc1 & _); [|lia].
  assert (Hh : bytes h).
  { unfold bytes in *. rewrite Hp1 in Hbytes. by apply Forall_app in Hbytes as [? _]. }
  apply result_bind_Ok in Hrun as (flags & _ & Hrun).
  apply result_bind_Ok in Hrun as (meth & _ & Hrun).
  apply result_bind_Ok in Hrun as ([] & Hmethod & Hrun).
  apply result_bind_Ok in Hrun as (crc & _ & Hrun).
  apply result_bind_Ok in Hrun as (csize32 & _ & Hrun).
  apply result_bind_Ok in Hrun as (usize32 & _ & Hrun).
  apply result_bind_Ok in Hrun as (nameLen & HnameLen & Hrun).
  apply result_bind_Ok in Hrun as (extraLen & HextraLen & Hrun).
  apply readUIntLE_nonneg in HnameLen, HextraLen; try done.
  apply result_bind_Ok in Hrun as ([] & _ & Hrun).
  apply result_bind_Ok in Hrun as ([nameBuf q2] & Hread2 & Hrun).
  apply read_Ok in Hread2 as (Hp2 & Hl2 & Hc2 & _); [|lia].
  apply result_bind_Ok in Hrun as ([extraBuf q3] & Hread3 & Hrun).
  apply read_Ok in Hread3 as (Hp3 & Hl3 & Hc3 & _); [|lia].
  apply result_bind_Ok in Hrun as ([csize usize] & _ & Hrun).
  injection Hrun as <- <-. cbn [fileNameBytes extra localHeaderOffset method].
  exists h. split; [lia|]. split.
  { rewrite <- Hlfh. rewrite Hp1. rewrite take_app_le by lia. done. }
  split; [by rewrite Hp1, Hp2, Hp3|]. split; [done|]. split; [lia|].
  destruct (Z.eqb_spec meth 0); [by left|].
  destruct (Z.eqb_spec meth 8); [by right|done].
Qed.

(** The header of the archive of "hello.txt". *)
Lemma nextHeader_consumes_witness :
  exists fixed,
    length fixed = 30%nat
    /\ le (take 4 fixed) = LFH_SIG
    /\ Reference.helloArchive
       = fixed ++ Reference.helloHeader.(fileNameBytes)
         ++ Reference.helloHeader.(extra) ++ (Reference.helloQueue 39).(pending)
    /\ Reference.helloHeader.(localHeaderOffset) = 0
    /\ (Reference.helloQueue 39).(consumedTotal)
       = 0 + 30 + Z.of_nat (length Reference.helloHeader.(fileNameBytes))
         + Z.of_nat (length Reference.helloHeader.(extra))
    /\ (Reference.helloHeader.(method) = 0 \/ Reference.helloHeader.(method) = 8).
Proof.
  apply (nextHeader_consumes (newQueue Reference.helloArchive)
           (Some Reference.helloHeader) (Reference.helloQueue 39)).
  - unfold bytes. apply Forall_forall. intros b Hb.
    vm_compute in Hb. repeat (apply elem_of_cons in Hb as [->|Hb]; [lia|]).
    by apply elem_of_nil in Hb.
  - vm_compute. reflexivity.
Defined.

End ReaderFacts.

Module DescriptorFacts.
Import JS Buf ZipStream Props LoopFacts ManifestFacts Crc32Facts NameFacts ReaderFacts.

Lemma le_bound bs : bytes bs -> 0 <= le bs < 256 ^ Z.of_nat (length bs).
Proof.
  induction 1 as [|b bs Hb _ IH]; [cbn; lia|].
  cbn [le length]. rewrite Nat2Z.inj_succ, Z.pow_succ_r by lia. lia.
Qed.

Lemma bytes_app_inv l1 l2 : bytes (l1 ++ l2) -> bytes l1 /\ bytes l2.
Proof. unfold bytes. apply Forall_app. Qed.

Lemma readUIntLE_whole (w : nat) buf :
  length buf = w -> readUIntLE w buf 0 = Ok (le buf).
Proof.
  intros Hlen. rewrite readUIntLE_inside by lia. cbn [Z.to_nat]. rewrite drop_0.
  by rewrite firstn_all2 by lia.
Qed.

(** What [readDataDescriptor] reads: the signature when the four bytes
    ahead are one, then the checksum in four bytes and the two sizes, in
    four bytes each or in eight each for ZIP64, little-endian; the reader is
    left right after them. *)
Theorem readDataDescriptor_consumes (zip64 : bool) q dd q' :
  bytes q.(pending) ->
  readDataDescriptor zip64 q = Ok (dd, q') ->
  let w := if zip64 then 8%nat else 4%nat in
  exists sig crc csize usize,
    q.(pending) = sig ++ crc ++ csize ++ usize ++ q'.(pending)
    /\ ((sig = [] /\ le (take 4 q.(pending)) <> DD_SIG)
        \/ (length sig = 4%nat /\ le sig = DD_SIG))
    /\ length crc = 4%nat /\ length csize = w /\ length usize = w
    /\ dd = {| dd_crc32 := le crc;
               dd_compressedSize := le csize;
               dd_uncompressedSize := le usize |}
    /\ q'.(consumedTotal)
       = q.(consumedTotal) + Z.of_nat (length sig) + 4 + 2 * Z.of_nat w.
Proof.
  intros Hbytes Hrun w. unfold readDataDescriptor in Hrun.
  apply result_bind_Ok in Hrun as ([] & Htwelve & Hrun).
  unfold ensure in Htwelve.
  destruct (Z.ltb_spec (Z.of_nat (length q.(pending))) 12) as [|Hlen]; [done|].
  apply result_bind_Ok in Hrun as (first & Hfirst & Hrun).
  unfold peekU32LE in Hfirst.
  apply result_bind_Ok in Hfirst as ([] & _ & Hfirst).
  unfold readUInt32LE in Hfirst. rewrite readUIntLE_inside in Hfirst by lia.
  injection Hfirst as <-. cbn [Z.to_nat] in Hrun. rewrite drop_0 in Hrun.
  apply result_bind_Ok in Hrun as ([sig q1] & Hsig & Hrun).
  assert (Hq1 : q.(pending) = sig ++ q1.(pending)
                /\ q1.(consumedTotal) = q.(consumedTotal) + Z.of_nat (length sig)
                /\ ((sig = [] /\ le (take 4 q.(pending)) <> DD_SIG)
                    \/ (length sig = 4%nat /\ le sig = DD_SIG))).
  { destruct (Z.eqb_spec (le (take 4 q.(pending))) DD_SIG) as [Hdd|Hdd].
    - apply read_Ok in Hsig as (Hp & Hl & Hc & _); [|lia].
      split; [done|]. split; [lia|]. right. split; [lia|].
      rewrite <- Hdd, Hp. by rewrite take_app_le, firstn_all2 by lia.
    - injection Hsig as <- <-. split; [done|]. split; [cbn; lia|]. by left. }
  destruct Hq1 as (Hp1 & Hc1 & Hsigcase).
  apply result_bind_Ok in Hrun as ([] & _ & Hrun).
  apply result_bind_Ok in Hrun as ([c q2] & Hread & Hrun).
  apply read_Ok in Hread as (Hp2 & Hl2 & Hc2 & _); [|lia].
  assert (Hb1 : bytes q1.(pending)).
  { rewrite Hp1 in Hbytes. by apply bytes_app_inv in Hbytes as [_ ?]. }
  assert (Hbc : bytes c /\ bytes q2.(pending)).
  { rewrite Hp2 in Hb1. by apply bytes_app_inv in Hb1. }
  destruct Hbc as [Hbc Hb2].
  apply result_bind_Ok in Hrun as (crc & Hcrc & Hrun).
  apply result_bind_Ok in Hcrc as (v & Hv & Hcrc).
  unfold readUInt32LE in Hv. rewrite readUIntLE_whole in Hv by lia.
  injection Hv as <-. injection Hcrc as <-.
  assert (Hushr : ushr (le c) 0 = le c).
  { rewrite ushr_shiftr by lia. rewrite Z.shiftr_0_r. apply ToUint32_small.
    pose proof (le_bound c Hbc) as Hb. replace (length c) with 4%nat in Hb by lia.
    cbn in Hb. lia. }
  apply result_bind_Ok in Hrun as ([[csize usize] q3] & Hsizes & Hrun).
  injection Hrun as <- <-. rewrite Hushr.
  destruct zip64.
  - apply result_bind_Ok in Hsizes as ([b q4] & Hread3 & Hsizes).
    apply read_Ok in Hread3 as (Hp3 & Hl3 & Hc3 & _); [|lia].
    apply result_bind_Ok in Hsizes as (cs & Hcs & Hsizes).
    apply result_bind_Ok in Hsizes as (us & Hus & Hsizes).
    injection Hsizes as <- <- <-.
    unfold readBigUInt64LE in Hcs, Hus.
    rewrite readUIntLE_inside in Hcs, Hus by lia.
    injection Hcs as <-. injection Hus as <-.
    cbn [Z.to_nat] in *. rewrite drop_0.
    exists sig, c, (take 8 b), (drop 8 b).
    split; [rewrite Hp1, Hp2, Hp3; by rewrite (app_assoc (take 8 b)), take_drop|].
    split; [done|]. split; [lia|]. split; [rewrite length_take; lia|].
    split; [rewrite length_drop; lia|]. split.
    + f_equal. change (Z.to_nat 8) with 8%nat.
      by rewrite (firstn_all2 (drop 8 b)) by (rewrite length_drop; lia).
    + subst w. lia.
  - apply result_bind_Ok in Hsizes as ([b q4] & Hread3 & Hsizes).
    apply read_Ok in Hread3 as (Hp3 & Hl3 & Hc3 & _); [|lia].
    apply result_bind_Ok in Hsizes as (cs & Hcs & Hsizes).
    apply result_bind_Ok in Hsizes as (us & Hus & Hsizes).
    injection Hsizes as <- <- <-.
    unfold readUInt32LE in Hcs, Hus.
    rewrite readUIntLE_inside in Hcs, Hus by lia.
    injection Hcs as <-. injection Hus as <-.
    cbn [Z.to_nat] in *. rewrite drop_0.
    exists sig, c, (take 4 b), (drop 4 b).
    split; [rewrite Hp1, Hp2, Hp3; by rewrite (app_assoc (take 4 b)), take_drop|].
    split; [done|]. split; [lia|]. split; [rewrite length_take; lia|].
    split; [rewrite length_drop; lia|]. split.
    + f_equal. change (Z.to_nat 4) with 4%nat.
      by rewrite (firstn_all2 (drop 4 b)) by (rewrite length_drop; lia).
    + subst w. lia.
Qed.

(** The descriptor with its signature: sixteen bytes are consumed. *)
Lemma readDataDescriptor_consumes_witness :
  exists sig crc csize usize,
    Reference.descriptorQueue.(pending) = sig ++ crc ++ csize ++ usize ++ []
    /\ ((sig = [] /\ le (take 4 Reference.descriptorQueue.(pending)) <> DD_SIG)
        \/ (length sig = 4%nat /\ le sig = DD_SIG))
    /\ length crc = 4%nat /\ length csize = 4%nat /\ length usize = 4%nat
    /\ {| dd_crc32 := 1; dd_compressedSize := 2; dd_uncompressedSize := 3 |}
       = {| dd_crc32 := le crc;
            dd_compressedSize := le csize;
            dd_uncompressedSize := le usize |}
    /\ 16 = 0 + Z.of_nat (length sig) + 4 + 2 * Z.of_nat 4.
Proof.
  apply (readDataDescriptor_consumes false Reference.descriptorQueue
           {| dd_crc32 := 1; dd_compressedSize := 2; dd_uncompressedSize := 3 |}
           {| pending := []; consumedTotal := 16; discarding := false |}).
  - unfold bytes. apply Forall_forall. intros b Hb. vm_compute in Hb.
    repeat (apply elem_of_cons in Hb as [->|Hb]; [lia|]).
    by apply elem_of_nil in Hb.
  - vm_compute. reflexivity.
Defined.

End DescriptorFacts.

(* ================================================================== *)
(** * The cap on the total *)
(* ================================================================== *)

Module TotalCapFacts.
Import JS Props Cas Upload UploadMonad UploadFacts EntryLimitFacts.

Section TotalCap.
Context `{Runtime}.

Lemma tap_fileCapOnly limits chunks rawSize crc sha :
  tap limits chunks rawSize crc sha = tap (fileCapOnly limits) chunks rawSize crc sha.
Proof.
  revert rawSize crc sha. induction chunks as [|chunk chunks IH]; intros; [done|].
  cbn [tap]. cbn [fileCapOnly maxFileBytes]. destruct (throwIf _ _); [|done].
  cbn. apply IH.
Qed.

Lemma processRawToCas_fileCapOnly limits rawStream :
  processRawToCas rawStream limits = processRawToCas rawStream (fileCapOnly limits).
Proof. unfold processRawToCas. by rewrite tap_fileCapOnly. Qed.

Lemma processEntryFromSpool_fileCapOnly limits zipFile off method csize :
  sameRun (processEntryFromSpool zipFile off method csize limits)
          (processEntryFromSpool zipFile off method csize (fileCapOnly limits)).
Proof.
  unfold processEntryFromSpool.
  same_run_using ltac:(rewrite <- processRawToCas_fileCapOnly).
Qed.

Lemma resolveEntry_fileCapOnly limits zipFile e processed :
  sameRun (resolveEntry zipFile limits e processed)
          (resolveEntry zipFile (fileCapOnly limits) e processed).
Proof.
  unfold resolveEntry.
  same_run_using ltac:(apply processEntryFromSpool_fileCapOnly).
Qed.

Lemma reconcile_fileCapOnly limits zipFile entries rs :
  sameRun (reconcile zipFile limits entries rs)
          (reconcile zipFile (fileCapOnly limits) entries rs).
Proof.
  revert rs. induction entries as [|e entries IH]; intros rs; [done|].
  cbn [reconcile]. unfold reconcileEntry.
  same_run_using ltac:(first [apply resolveEntry_fileCapOnly | apply IH]).
Qed.

End TotalCap.

(** The reconciliation reads no limit but the cap on one file: the bytes
    of the entries it processes from the spool are not added to the total
    that 'Total too large' guards.  The archive whose first member is stored
    with a data descriptor, ingested under a cap of two bytes in total,
    gives a manifest of three bytes. *)
Theorem total_cap_streaming_only :
  (forall (H : Runtime) limits zipFile entries rs cas,
     reconcile zipFile limits entries rs cas
     = reconcile zipFile (fileCapOnly limits) entries rs cas)
  /\ exists cas' res,
       @uploadZipAsFileset Reference.runtime Reference.descriptorFirstArchive None
         (withMaxTotalBytes 2 Reference.limits) emptyStore
       = (cas', Ok res)
       /\ res.(manifest).(Fileset.total_bytes) = 3.
Proof.
  split; [intros; apply reconcile_fileCapOnly|].
  eexists _, _. split; vm_compute; reflexivity.
Qed.

End TotalCapFacts.

(* ================================================================== *)
(** * The order of the entries *)
(* ================================================================== *)

Module OrderFacts.
Import JS Props Cas Upload DuplicateFacts.

(** Two sorted lists with the same elements are equal, when elements that
    compare at most equal both ways are equal. *)
Lemma StronglySorted_Permutation_eq {A} (R : A -> A -> Prop) (l1 l2 : list A) :
  (forall a b, a ∈ l1 -> b ∈ l1 -> R a b -> R b a -> a = b) ->
  StronglySorted R l1 -> StronglySorted R l2 -> l1 ≡ₚ l2 -> l1 = l2.
Proof.
  revert l2. induction l1 as [|x l1 IH]; intros l2 Hanti Hs1 Hs2 Hperm.
  { by apply Permutation_nil_l in Hperm. }
  destruct l2 as [|y l2]; [by apply Permutation_nil_r in Hperm|].
  apply StronglySorted_inv in Hs1 as [Hs1 Hx]. apply StronglySorted_inv in Hs2 as [Hs2 Hy].
  rewrite List.Forall_forall in Hx, Hy.
  assert (Hxy : x = y).
  { assert (Hyin : y ∈ x :: l1) by (rewrite Hperm; left).
    assert (Hxin : x ∈ y :: l2) by (rewrite <- Hperm; left).
    apply elem_of_cons in Hyin as [->|Hyin]; [done|].
    apply elem_of_cons in Hxin as [->|Hxin]; [done|].
    apply Hanti; [left|by right| |].
    - apply Hx. by apply list_elem_of_In.
    - apply Hy. by apply list_elem_of_In. }
  subst y. f_equal. apply IH; [|done|done|by apply (inj (cons x))].
  intros a b Ha Hb. apply Hanti; by right.
Qed.

(** Insertion sort under a comparator that is total and transitive on the
    elements at hand. *)
Lemma insertSorted_StronglySorted_on {A} (cmp : A -> A -> Z) (P : A -> Prop) x l :
  (forall a b, P a -> P b -> cmp a b <= 0 \/ cmp b a <= 0) ->
  (forall a b c, P a -> P b -> P c -> cmp a b <= 0 -> cmp b c <= 0 -> cmp a c <= 0) ->
  P x -> Forall P l ->
  StronglySorted (fun a b => cmp a b <= 0) l ->
  StronglySorted (fun a b => cmp a b <= 0) (insertSorted cmp x l).
Proof.
  intros Htotal Htrans Hx. induction l as [|y l IH]; intros HP Hs; cbn.
  - by repeat constructor.
  - apply Forall_cons in HP as [Hy HP].
    apply StronglySorted_inv in Hs as [Hs Hall].
    destruct (Z.leb_spec (cmp x y) 0) as [Hle|Hgt].
    + constructor; [by constructor|]. constructor; [done|].
      rewrite List.Forall_forall in Hall. apply List.Forall_forall. intros z Hz.
      apply (Htrans x y z); [done|done| |done|by apply Hall].
      rewrite Forall_forall in HP. apply HP. by apply list_elem_of_In.
    + constructor; [by apply IH|].
      apply List.Forall_forall. intros z Hz. apply list_elem_of_In in Hz.
      rewrite insertSorted_Permutation in Hz. apply elem_of_cons in Hz as [->|Hz].
      * destruct (Htotal x y Hx Hy); lia.
      * rewrite List.Forall_forall in Hall. apply Hall. by apply list_elem_of_In.
Qed.

Lemma sort_StronglySorted_on {A} (cmp : A -> A -> Z) (P : A -> Prop) l :
  (forall a b, P a -> P b -> cmp a b <= 0 \/ cmp b a <= 0) ->
  (forall a b c, P a -> P b -> P c -> cmp a b <= 0 -> cmp b c <= 0 -> cmp a c <= 0) ->
  Forall P l ->
  StronglySorted (fun a b => cmp a b <= 0) (sort cmp l).
Proof.
  intros Htotal Htrans. induction l as [|x l IH]; intros HP; [constructor|].
  apply Forall_cons in HP as [Hx HP].
  change (sort cmp (x :: l)) with (insertSorted cmp x (sort cmp l)).
  apply (insertSorted_StronglySorted_on cmp P); try done; [|by apply IH].
  by rewrite sort_Permutation.
Qed.

Section Order.
Context `{Runtime}.

(** The manifest does not depend on the order of the final entries, when
    the collation orders their paths: for final entries with pairwise
    distinct paths, on which [localeCompare] is total and transitive and
    compares no two of them equal, every permutation gives the same files,
    in the same order, and the same fileset id. *)
Theorem manifest_order_independent (l l' : list Fileset.FileEntry) warnings :
  let paths := map Fileset.path l in
  (forall a b, a ∈ paths -> b ∈ paths ->
     localeCompare a b <= 0 \/ localeCompare b a <= 0) ->
  (forall a b c, a ∈ paths -> b ∈ paths -> c ∈ paths ->
     localeCompare a b <= 0 -> localeCompare b c <= 0 -> localeCompare a c <= 0) ->
  (forall a b, a ∈ paths -> b ∈ paths ->
     localeCompare a b <= 0 -> localeCompare b a <= 0 -> a = b) ->
  NoDup paths ->
  l ≡ₚ l' ->
  makeManifest (sort byPath l) warnings = makeManifest (sort byPath l') warnings.
Proof.
  intros paths Htotal Htrans Hanti Hnodup Hperm. f_equal.
  set (P := fun e : Fileset.FileEntry => e.(Fileset.path) ∈ paths).
  assert (HP : Forall P l).
  { apply Forall_forall. intros e He. apply list_elem_of_fmap. by exists e. }
  assert (HP' : Forall P l') by by rewrite <- Hperm.
  apply (StronglySorted_Permutation_eq (fun a b => byPath a b <= 0)).
  - intros a b Ha Hb Hab Hba. rewrite sort_Permutation in Ha, Hb.
    rewrite Forall_forall in HP.
    assert (Heq : a.(Fileset.path) = b.(Fileset.path))
      by (apply Hanti; [by apply HP|by apply HP|done|done]).
    apply list_elem_of_lookup in Ha as [i Hi]. apply list_elem_of_lookup in Hb as [j Hj].
    assert (Hij : i = j).
    { apply (NoDup_lookup (map Fileset.path l) i j a.(Fileset.path)); [done| |].
      - by rewrite list_lookup_fmap, Hi.
      - by rewrite list_lookup_fmap, Hj, Heq. }
    subst j. congruence.
  - apply (sort_StronglySorted_on byPath P); [|intros a b c; apply Htrans|done].
    intros a b; apply Htotal.
  - apply (sort_StronglySorted_on byPath P); [|intros a b c; apply Htrans|done].
    intros a b; apply Htotal.
  - by rewrite !sort_Permutation.
Qed.

End Order.

(** ** The reference collation is a total order *)

Lemma compareUnits_Eq a b : compareUnits a b = Eq -> a = b.
Proof.
  revert b. induction a as [|x a IH]; intros [|y b]; cbn; try done.
  destruct (N.compare_spec x y) as [->|_|_]; [|done|done].
  intros Heq. f_equal. by apply IH.
Qed.

Lemma letterOf_positive c : Reference.letterOf c <> 0%N.
Proof. unfold Reference.letterOf. destruct (Reference.isUpper c); lia. Qed.

Lemma sortKey_parts (l1 l2 r1 r2 : list N) :
  0%N ∉ l1 -> 0%N ∉ l2 ->
  l1 ++ [0%N] ++ r1 = l2 ++ [0%N] ++ r2 -> l1 = l2 /\ r1 = r2.
Proof.
  revert l2. induction l1 as [|x l1 IH]; intros [|y l2] H1 H2 Heq; cbn in Heq.
  - by simplify_eq.
  - simplify_eq. exfalso. apply H2. left.
  - simplify_eq. exfalso. apply H1. left.
  - injection Heq as -> Heq. destruct (IH l2) as [-> ->]; [set_solver|set_solver|done|done].
Qed.

Lemma letter_case_inj (a b : jsstring) :
  map Reference.letterOf a = map Reference.letterOf b ->
  map Reference.caseOf a = map Reference.caseOf b -> a = b.
Proof.
  revert b. induction a as [|x a IH]; intros [|y b] Hl Hc; try done.
  cbn in Hl, Hc. injection Hl as Hx Hl. injection Hc as Hcx Hc.
  f_equal; [|by apply IH].
  unfold Reference.letterOf, Reference.caseOf in Hx, Hcx.
  destruct (Reference.isUpper x), (Reference.isUpper y); try done; lia.
Qed.

Lemma sortKey_inj a b : Reference.sortKey a = Reference.sortKey b -> a = b.
Proof.
  unfold Reference.sortKey. intros Heq.
  apply sortKey_parts in Heq as [Hl Hc].
  - by apply letter_case_inj.
  - intros Hin. apply list_elem_of_fmap in Hin as (c & Hc & _).
    by apply (letterOf_positive c).
  - intros Hin. apply list_elem_of_fmap in Hin as (c & Hc & _).
    by apply (letterOf_positive c).
Qed.

Lemma collate_antisym a b :
  Reference.collate a b <= 0 -> Reference.collate b a <= 0 -> a = b.
Proof.
  unfold Reference.collate.
  rewrite (ReferenceFacts.compareUnits_antisym (Reference.sortKey a) (Reference.sortKey b)).
  destruct (compareUnits _ _) eqn:Hcmp; cbn; [|lia|lia].
  intros _ _. by apply sortKey_inj, compareUnits_Eq.
Qed.

(** The entries "B" and "a", in both orders. *)
Lemma manifest_order_independent_witness :
  let eB := {| Fileset.path := str "B"; Fileset.sha256 := str "01"; Fileset.size := 1 |} in
  let ea := {| Fileset.path := str "a"; Fileset.sha256 := str "02"; Fileset.size := 1 |} in
  @makeManifest Reference.runtime (sort (@byPath Reference.runtime) [eB; ea]) []
  = @makeManifest Reference.runtime (sort (@byPath Reference.runtime) [ea; eB]) [].
Proof.
  intros eB ea.
  apply (@manifest_order_independent Reference.runtime [eB; ea] [ea; eB] []).
  - intros a b _ _. apply ReferenceFacts.collate_total.
  - intros a b c _ _ _. apply ReferenceFacts.collate_trans.
  - intros a b _ _. apply collate_antisym.
  - apply NoDup_cons. split; [|apply NoDup_singleton].
    intros Hin. apply list_elem_of_singleton in Hin. discriminate Hin.
  - apply Permutation_swap.
Defined.

End OrderFacts.

(* ================================================================== *)
(** * The errors of the central directory reader *)
(* ================================================================== *)

Module CentralErrorFacts.
Import JS Buf CentralDirectory Props CentralDirectoryFacts.

Lemma cannotRaise_scanEOCD bad tail n :
  bad <> ERR_OUT_OF_RANGE -> cannotRaise bad (scanEOCD tail n).
Proof.
  intros Hbad. induction n as [|n IH]; cbn [scanEOCD]; cannot_raise_using ltac:(apply IH).
Qed.

Section Errors.
Context `{Runtime}.

Lemma cannotRaise_readEntry_other bad cdBuf p :
  ~ centralError bad -> cannotRaise bad (readEntry cdBuf p).
Proof.
  intros Hbad. unfold centralError in Hbad. unfold readEntry.
  cannot_raise_using
    ltac:(first [ apply cannotRaise_parseExtraZip64; intros ->; tauto
                | apply cannotRaise_decodeName; intros ->; tauto
                | apply cannotRaise_throwIf; intros <-; tauto
                | apply cannotRaise_readUIntLE; intros ->; tauto ]).
Qed.

Lemma cannotRaise_readEntries_other bad fuel cdBuf p entries :
  ~ centralError bad -> cannotRaise bad (readEntries fuel cdBuf p entries).
Proof.
  intros Hbad. revert p entries. induction fuel as [|fuel IH]; intros p entries;
    cbn [readEntries].
  - cannot_raise.
  - cannot_raise_using
      ltac:(first [ apply cannotRaise_readEntry_other; assumption
                  | apply IH
                  | apply cannotRaise_readUIntLE; intros ->; unfold centralError in Hbad; tauto ]).
Qed.

Lemma cannotRaise_readCentralDirectory bad file :
  ~ centralError bad -> cannotRaise bad (readCentralDirectory file).
Proof.
  intros Hbad. unfold readCentralDirectory, findEOCD.
  assert (Hrange : bad <> ERR_OUT_OF_RANGE) by (intros ->; apply Hbad; unfold centralError; tauto).
  assert (Heocd : EOCD_not_found <> bad) by (intros <-; apply Hbad; unfold centralError; tauto).
  assert (Hz64 : Zip64_EOCD_not_found <> bad)
    by (intros <-; apply Hbad; unfold centralError; tauto).
  cannot_raise_using
    ltac:(first [ apply cannotRaise_scanEOCD; assumption
                | apply cannotRaise_readEntries_other; assumption
                | apply cannotRaise_throwIf; assumption
                | apply cannotRaise_readUIntLE; assumption
                | apply cannotRaise_allocRead; assumption ]).
Qed.

(** The central directory reader throws 'EOCD not found', 'Zip64 EOCD not
    found', one of the three 'Zip64 ... missing in central', or a range
    error of a Buffer or file read, and nothing else. *)
Theorem readCentralDirectory_errors file e :
  readCentralDirectory file = Err e -> centralError e.
Proof.
  intros Hrun.
  destruct e; try (unfold centralError; tauto);
    exfalso;
    match type of Hrun with
    | _ = Err ?bad =>
        apply (cannotRaise_readCentralDirectory bad file); [|exact Hrun]
    end;
    unfold centralError; intros Hc; repeat destruct Hc as [Hc|Hc]; discriminate Hc.
Qed.

End Errors.

(** A file with no end record. *)
Lemma readCentralDirectory_errors_witness : centralError EOCD_not_found.
Proof.
  apply (@readCentralDirectory_errors Reference.runtime signatureOnly EOCD_not_found).
  reflexivity.
Defined.

End CentralErrorFacts.

(* ================================================================== *)
(** * What the streaming loop guarantees *)
(* ================================================================== *)

Module StreamCapFacts.
Import JS Props Cas Upload UploadMonad UploadFacts StreamingFacts.

Section StreamCap.
Context `{Runtime}.

Lemma streamEntry_totalBytes limits hdr st cas cas' st' :
  streamEntry limits hdr st cas = (cas', Ok st') ->
  st.(totalBytes) <= limits.(maxTotalBytes) ->
  st'.(totalBytes) <= limits.(maxTotalBytes).
Proof.
  unfold streamEntry. intros Hrun Htotal.
  apply bind_Ok in Hrun as ([] & cas0 & _ & Hrun).
  destruct (usesDD hdr && (hdr.(ZipStream.method) =? 0)).
  - rewrite mret_run in Hrun. by simplify_eq.
  - apply bind_Ok in Hrun as ([rawStream q] & cas1 & _ & Hrun).
    apply bind_Ok in Hrun as (r & cas2 & _ & Hrun).
    apply bind_Ok in Hrun as ([] & cas3 & Hcap & Hrun).
    apply bind_Ok in Hrun as (q' & cas4 & _ & Hrun).
    rewrite mret_run in Hrun. simplify_eq. cbn [totalBytes].
    unfold lift, throwIf in Hcap.
    destruct (Z.ltb_spec limits.(maxTotalBytes) (st.(totalBytes) + r.(size)));
      [by simplify_eq|done].
Qed.

(** What the streaming loop guarantees when it ends without throwing: it
    has read at most [maxEntries] headers, and the bytes of the entries it
    processed total at most [maxTotalBytes]. *)
Theorem streamingPhase_within_caps limits pass cas cas' st :
  0 <= limits.(maxEntries) -> 0 <= limits.(maxTotalBytes) ->
  streamingPhase (turnsFor limits) limits (initialStream pass) cas = (cas', Ok st) ->
  0 <= st.(entryCount) <= limits.(maxEntries)
  /\ st.(totalBytes) <= limits.(maxTotalBytes).
Proof.
  intros Hentries Htotal.
  assert (Hinv : forall turns st0 cas0,
            streamingPhase turns limits st0 cas0 = (cas', Ok st) ->
            0 <= st0.(entryCount) <= limits.(maxEntries) ->
            st0.(totalBytes) <= limits.(maxTotalBytes) ->
            0 <= st.(entryCount) <= limits.(maxEntries)
            /\ st.(totalBytes) <= limits.(maxTotalBytes)).
  { induction turns as [|turns IH]; intros st0 cas0 Hrun Hc Ht;
      cbn [streamingPhase] in Hrun; [done|].
    apply bind_Ok in Hrun as ([hdr q] & cas1 & _ & Hrun).
    destruct hdr as [hdr|].
    - apply bind_Ok in Hrun as (st1 & cas2 & Hentry & Hrun).
      apply streamEntry_entryCount in Hentry as Hcount. cbn in Hcount.
      apply streamEntry_totalBytes in Hentry; [|done].
      apply (IH _ _ Hrun); [lia|done].
    - rewrite mret_run in Hrun. by simplify_eq. }
  intros Hrun. apply (Hinv _ _ _ Hrun); cbn; lia.
Qed.

End StreamCap.

(** The archive of "hello.txt": one header, five bytes. *)
Lemma streamingPhase_within_caps_witness :
  exists cas' st,
    @streamingPhase Reference.runtime (turnsFor Reference.limits) Reference.limits
      (initialStream Reference.helloArchive) emptyStore = (cas', Ok st)
    /\ 0 <= st.(entryCount) <= Reference.limits.(maxEntries)
    /\ st.(totalBytes) <= Reference.limits.(maxTotalBytes).
Proof.
  eexists _, _. split; [vm_compute; reflexivity|].
  eapply (@streamingPhase_within_caps Reference.runtime Reference.limits
            Reference.helloArchive emptyStore).
  - vm_compute. discriminate.
  - vm_compute. discriminate.
  - vm_compute. reflexivity.
Defined.

End StreamCapFacts.

(* ================================================================== *)
(** * The two ZIP64 parsers *)
(* ================================================================== *)

Module Zip64Facts.
Import JS Buf Props.

(** The two parsers of the ZIP64 extra field agree: the one of the forward
    reader returns the sizes the one of the central directory reader
    returns when no offset is wanted, and throws when it throws. *)
Theorem parseZip64Extra_agrees extra (wantC wantU : bool) :
  ZipStream.parseZip64Extra extra wantC wantU
  = (z64 ← CentralDirectory.parseExtraZip64 extra wantU wantC false;
     Ok {| ZipStream.usize := z64.(CentralDirectory.usize);
           ZipStream.csize := z64.(CentralDirectory.csize) |}).
Proof.
  unfold ZipStream.parseZip64Extra, CentralDirectory.parseExtraZip64.
  generalize (length extra). intros fuel. generalize 0.
  induction fuel as [|fuel IH]; intros off;
    cbn [ZipStream.parseZip64ExtraLoop CentralDirectory.parseExtraZip64Loop];
    [done|].
  destruct (negb _); [done|].
  destruct (readUInt16LE extra off) as [id|e]; [|done]. cbn [mbind result_bind].
  destruct (readUInt16LE extra (off + 2)) as [sz|e]; [|done]. cbn [mbind result_bind].
  destruct (_ <? _); [done|].
  destruct (id =? 1); [|apply IH].
  unfold ZipStream.wantField, CentralDirectory.wantField.
  destruct wantU, wantC; cbn [mbind result_bind];
    repeat (match goal with
            | |- context [readBigUInt64LE ?b ?p] =>
                destruct (readBigUInt64LE b p); cbn [mbind result_bind]
            end); done.
Qed.

End Zip64Facts.

(* ================================================================== *)
(** * A body above the cap *)
(* ================================================================== *)

Module SpoolFacts.
Import JS Props Cas Upload UploadMonad UploadFacts AtomicityFacts.

Lemma written_bounds chunks seen maxBytes :
  seen <= maxBytes ->
  seen <= Spool.written chunks seen maxBytes <= maxBytes.
Proof.
  revert seen. induction chunks as [|n chunks IH]; intros seen Hseen;
    cbn [Spool.written]; [lia|].
  destruct (Z.ltb_spec maxBytes (seen + Z.of_nat n)); [lia|].
  specialize (IH (seen + Z.of_nat n)). lia.
Qed.

Section Oversize.
Context `{Runtime}.


End Oversize.


End SpoolFacts.
